(** * Gomoku: the game-state engine

    A shallow embedding of the rules engine ([GameLogic.js]), the move log
    ([MovieHistory.js], class [MoveHistory]), the part of the interaction
    manager that gates board clicks, and the coordinator
    ([GameController.js]), followed by the properties of the design
    document that concern them.

    Conventions.
    - JavaScript numbers that hold coordinates, players, step counters and
      sizes are integers here ([Z]); cells hold 0 (empty), 1 (black) or
      2 (white), as in the source.
    - [null] and [false] used as "no value" become [None].
    - [emit] is modelled by returning the list of emitted events, in order;
      the coordinator then runs the listeners that the source registers.
    - [Date.now()] is an explicit argument [now].
    - Sound, DOM classes and messages are presentation and are left out; the
      three fields of the interaction manager that decide whether a click
      reaches the rules engine are kept, and so is whether its
      [audioManager] is an object or [null] (as it is with
      [enableAudio: false]): a method called on [null] throws a
      [TypeError], which ends the handler that made the call.
    - A method that can throw returns an [Outcome] with the state it
      leaves.
    - The initial state of a game is the one [reset()] establishes.  (The
      constructor of [GameLogic] calls [reset()] before it assigns
      [listeners], so in the source [emit] has no listener table at that
      first call and fails there; the model takes the engine as constructed,
      in the state the assignments of [reset()] describe.) *)

From Stdlib Require Import ZArith Lia List Bool.
From stdpp Require Import base list.
Import ListNotations.

Local Open Scope Z_scope.

(** ** Shared data *)

(** A position [row, col]. *)
Abbreviation Pos := (Z * Z)%type.

(** [moveData] of [placeStone]: [{row, col, player, step}]. *)
Record MoveData := mkMoveData {
  md_row : Z;
  md_col : Z;
  md_player : Z;
  md_step : Z
}.

(** An entry of the move log: [{row, col, player, step, timestamp}]. *)
Record Move := mkMove {
  row : Z;
  col : Z;
  player : Z;
  step : Z;
  timestamp : Z
}.

(** How a call ends: it returns, or it throws. *)
Inductive Outcome := returns | throws.

(** A value read as a coordinate from a parsed JSON text: an integer, a
    number that is not an integer (given by its floor), [null], [true] or
    [false], or nothing at all ([undefined], for a field that is absent).
    Strings, arrays and objects in the place of a coordinate are not part
    of this model. *)
Inductive Coord :=
| cInt (z : Z)
| cFrac (floor : Z)
| cNull
| cBool (b : bool)
| cAbsent.

(** An element of the array [boardState.moveHistory] of an imported text:
    [null], or a value with the fields [row] and [col] as read from it (a
    number, a string, a boolean or an array in the place of an element
    has neither field: both are [cAbsent]). *)
Inductive Entry :=
| entryNull
| entryObj (row col : Coord).

(** The board: [boardData[row][col]], an array of rows. *)
Abbreviation Board := (list (list Z)).

(** Read of [boardData[r][c]].  Every read in the source is guarded by a
    bounds test; the default is never reached on a well-formed board. *)
Definition cellAt (b : Board) (r c : Z) : Z :=
  match b !! Z.to_nat r with
  | Some line => match line !! Z.to_nat c with
                 | Some v => v
                 | None => 0
                 end
  | None => 0
  end.

(** Write [boardData[r][c] = v].  Every write in the source is at a
    position that was validated when the stone was placed. *)
Definition setCell (b : Board) (r c v : Z) : Board :=
  match b !! Z.to_nat r with
  | Some line => <[Z.to_nat r := <[Z.to_nat c := v]> line]> b
  | None => b
  end.

(** ** GameLogic.js *)

Module GameLogic.

Record t := mk {
  boardSize : Z;
  boardData : Board;
  currentPlayer : Z;
  stepNumber : Z;
  gameOver : bool;
  winner : option Z
}.

Inductive Event :=
| gameReset
| playerChanged (p : Z)
| gameWin (w : Z) (winningPositions : list Pos) (moveData : MoveData)
| stonePlaced (moveData : MoveData).

(** Result of [placeStone]: [false], or [{success, win, ...}]. *)
Inductive PlaceResult :=
| placeFalse
| placeWin (winningPositions : list Pos) (moveData : MoveData)
| placeContinue (moveData : MoveData).

Definition success (r : PlaceResult) : bool :=
  match r with placeFalse => false | _ => true end.

Definition win (r : PlaceResult) : bool :=
  match r with placeWin _ _ => true | _ => false end.

Definition emptyBoard (n : Z) : Board :=
  replicate (Z.to_nat n) (replicate (Z.to_nat n) 0).

(** [reset()], on an engine of size [n]. *)
Definition reset (n : Z) : t * list Event :=
  (mk n (emptyBoard n) 1 1 false None, [gameReset; playerChanged 1]).

Definition isValidPosition (g : t) (r c : Z) : bool :=
  (0 <=? r) && (r <? boardSize g) && (0 <=? c) && (c <? boardSize g).

Definition canPlaceStone (g : t) (r c : Z) : bool :=
  negb (gameOver g) &&
  (0 <=? r) && (r <? boardSize g) &&
  (0 <=? c) && (c <? boardSize g) &&
  (cellAt (boardData g) r c =? 0).

(** One of the two [while] loops of [checkWin]: walk from [(r, c)] by
    [(dr, dc)] while the position is valid and holds [p], counting and
    pushing.  Each iteration moves one cell along the axis, so the loop
    leaves the board after at most [boardSize] iterations; [fuel] is that
    bound. *)
Fixpoint walk (fuel : nat) (g : t) (p r c dr dc : Z)
         (count : Z) (winningPositions : list Pos) : Z * list Pos :=
  match fuel with
  | O => (count, winningPositions)
  | S fuel' =>
      if isValidPosition g r c && (cellAt (boardData g) r c =? p)
      then walk fuel' g p (r + dr) (c + dc) dr dc
                (count + 1) (winningPositions ++ [(r, c)])
      else (count, winningPositions)
  end.

(** Body of the [for] loop of [checkWin] for one direction. *)
Definition lineThrough (g : t) (p r c dx dy : Z) : Z * list Pos :=
  let fuel := Z.to_nat (boardSize g) in
  let '(count, wp) := walk fuel g p (r + dx) (c + dy) dx dy 1 [(r, c)] in
  walk fuel g p (r - dx) (c - dy) (- dx) (- dy) count wp.

Definition directions : list (Z * Z) :=
  [(0, 1); (1, 0); (1, 1); (1, -1)].

Fixpoint checkDirections (g : t) (p r c : Z) (dirs : list (Z * Z))
  : option (list Pos) :=
  match dirs with
  | [] => None
  | (dx, dy) :: rest =>
      let '(count, wp) := lineThrough g p r c dx dy in
      if count =? 5 then Some wp else checkDirections g p r c rest
  end.

Definition checkWin (g : t) (r c : Z) : option (list Pos) :=
  let p := cellAt (boardData g) r c in
  if p =? 0 then None else checkDirections g p r c directions.

Definition placeStone (g : t) (r c : Z) : PlaceResult * t * list Event :=
  if negb (canPlaceStone g r c) then (placeFalse, g, [])
  else
    let moveData := mkMoveData r c (currentPlayer g) (stepNumber g) in
    let g1 := mk (boardSize g) (setCell (boardData g) r c (currentPlayer g))
                 (currentPlayer g) (stepNumber g) (gameOver g) (winner g) in
    match checkWin g1 r c with
    | Some wp =>
        let g2 := mk (boardSize g1) (boardData g1) (currentPlayer g1)
                     (stepNumber g1) true (Some (currentPlayer g1)) in
        (placeWin wp moveData, g2, [gameWin (currentPlayer g1) wp moveData])
    | None =>
        let next := if currentPlayer g1 =? 1 then 2 else 1 in
        let g2 := mk (boardSize g1) (boardData g1) next
                     (stepNumber g1 + 1) (gameOver g1) (winner g1) in
        (placeContinue moveData, g2, [stonePlaced moveData; playerChanged next])
    end.

(** [v >= 0 && v < boardSize] with the conversions of JavaScript's
    comparisons: [null] and [false] count as 0, [true] as 1, and
    [undefined] compares false with everything. *)
Definition inRange (g : t) (v : Coord) : bool :=
  match v with
  | cInt z => (0 <=? z) && (z <? boardSize g)
  | cFrac f => (0 <=? f) && (f <? boardSize g)
  | cNull => 0 <? boardSize g
  | cBool b => (if b then 1 else 0) <? boardSize g
  | cAbsent => false
  end.

(** [canPlaceStone] on coordinates as an imported text gives them.  After
    the range tests [boardData[row]] is a row only when [row] is an
    integer; otherwise it is [undefined] and reading [[col]] of it throws
    ([None]).  In a row, [[col]] is a cell only when [col] is an integer;
    otherwise it is [undefined], which is not [0]. *)
Definition canPlaceStoneAt (g : t) (r c : Coord) : option bool :=
  if gameOver g then Some false
  else if negb (inRange g r) then Some false
  else if negb (inRange g c) then Some false
  else
    match r with
    | cInt zr =>
        Some (match c with
              | cInt zc => cellAt (boardData g) zr zc =? 0
              | _ => false
              end)
    | _ => None
    end.

(** [placeStone] on such coordinates: [None] when [canPlaceStone]
    throws. *)
Definition placeStoneAt (g : t) (r c : Coord)
  : option (PlaceResult * t * list Event) :=
  match canPlaceStoneAt g r c with
  | None => None
  | Some _ =>
      match r, c with
      | cInt zr, cInt zc => Some (placeStone g zr zc)
      | _, _ => Some (placeFalse, g, [])
      end
  end.

Definition getCurrentPlayer (g : t) : Z := currentPlayer g.
Definition getCurrentStep (g : t) : Z := stepNumber g.
Definition isGameOver (g : t) : bool := gameOver g.
Definition getWinner (g : t) : option Z := winner g.


(** [getStone]: [null] off the board, else the cell. *)
Definition getStone (g : t) (r c : Z) : option Z :=
  if negb (isValidPosition g r c) then None
  else Some (cellAt (boardData g) r c).

(** The nested scan of [isDraw]: [true] when some cell with row and
    column below [boardSize] holds 0. *)
Definition hasEmptyCell (g : t) : bool :=
  existsb (fun i =>
    existsb (fun j => cellAt (boardData g) (Z.of_nat i) (Z.of_nat j) =? 0)
            (seq 0 (Z.to_nat (boardSize g))))
    (seq 0 (Z.to_nat (boardSize g))).

Definition isDraw (g : t) : bool :=
  if gameOver g && (match winner g with None => true | Some _ => false end)
  then true
  else negb (hasEmptyCell g).

End GameLogic.

(** ** MovieHistory.js (class MoveHistory) *)

Module MoveHistory.

Record t := mk {
  history : list Move;
  maxHistorySize : Z
}.

Inductive Event :=
| moveAdded (m : Move)
| moveUndone (m : Move)
| historyCleared (oldHistory : list Move)
| historyImported (data : list Move)
| historyTruncated (removed : list Move).

(** The constructor. *)
Definition new : t := mk [] 1000.

(** [addMove]: [push], then one [shift] when the length exceeds the cap;
    the only event emitted is [moveAdded]. *)
Definition addMove (h : t) (moveData : MoveData) (now : Z)
  : Move * t * list Event :=
  let move := mkMove (md_row moveData) (md_col moveData)
                     (md_player moveData) (md_step moveData) now in
  let pushed := history h ++ [move] in
  let kept := if Z.of_nat (length pushed) >? maxHistorySize h
              then tail pushed else pushed in
  (move, mk kept (maxHistorySize h), [moveAdded move]).

(** [undoLastMove]: [null] on an empty log, else [pop]. *)
Definition undoLastMove (h : t) : option Move * t * list Event :=
  match last (history h) with
  | None => (None, h, [])
  | Some lastMove =>
      (Some lastMove, mk (removelast (history h)) (maxHistorySize h),
       [moveUndone lastMove])
  end.

Definition getLastMove (h : t) : option Move := last (history h).

Definition getMoveByStep (h : t) (s : Z) : option Move :=
  find (fun m => step m =? s) (history h).

Definition getAllMoves (h : t) : list Move := history h.

Definition getMovesByPlayer (h : t) (p : Z) : list Move :=
  filter (fun m => player m = p) (history h).

Definition getLength (h : t) : Z := Z.of_nat (length (history h)).

Definition canUndo (h : t) : bool := 0 <? Z.of_nat (length (history h)).

Definition clear (h : t) : t * list Event :=
  (mk [] (maxHistorySize h), [historyCleared (history h)]).

(** The counters of [getStatistics]. *)
Record Tally := mkTally {
  blackMoves : Z;
  whiteMoves : Z;
  totalThinkTime : Z;
  lastTimestamp : option Z
}.

(** One round of the [forEach] of [getStatistics] at [index]: a move of
    player 1 counts as black, any other as white; the gap to the previous
    timestamp is added when [index > 0] and [lastTimestamp] is truthy
    (set, and not 0). *)
Definition tallyMove (index : nat) (acc : Tally) (m : Move) : Tally :=
  let black := if player m =? 1 then blackMoves acc + 1 else blackMoves acc in
  let white := if player m =? 1 then whiteMoves acc else whiteMoves acc + 1 in
  let think :=
    match lastTimestamp acc with
    | Some t => if (0 <? Z.of_nat index) && negb (t =? 0)
                then totalThinkTime acc + (timestamp m - t)
                else totalThinkTime acc
    | None => totalThinkTime acc
    end in
  mkTally black white think (Some (timestamp m)).

Fixpoint tallyFrom (index : nat) (l : list Move) (acc : Tally) : Tally :=
  match l with
  | [] => acc
  | m :: rest => tallyFrom (S index) rest (tallyMove index acc m)
  end.

(** [getStatistics] up to its last step: [totalMoves] and the counters
    after the [forEach].  The source then sets [averageThinkTime] to
    [Math.round(totalThinkTime / (length - 1))], a rounded floating-point
    quotient that is not part of this model. *)
Definition getStatistics (h : t) : Z * Tally :=
  (Z.of_nat (length (history h)), tallyFrom 0 (history h) (mkTally 0 0 0 None)).

(** [importFromJSON], on the parsed and validated [data.history]:
    [None] stands for a text that does not parse or fails validation. *)
Definition importFromJSON (h : t) (data : option (list Move))
  : bool * t * list Event :=
  match data with
  | None => (false, h, [])
  | Some l => (true, mk l (maxHistorySize h), [historyImported l])
  end.

(** [setMaxHistorySize]: the cap is at least 1; a longer log loses its
    oldest entries ([splice(0, length - max)]) and [historyTruncated]
    carries them. *)
Definition setMaxHistorySize (h : t) (size : Z) : t * list Event :=
  let cap := Z.max 1 size in
  if Z.of_nat (length (history h)) >? cap
  then
    let n := Z.to_nat (Z.of_nat (length (history h)) - cap) in
    (mk (drop n (history h)) cap, [historyTruncated (take n (history h))])
  else (mk (history h) cap, []).

End MoveHistory.

(** ** InteractionManager: the fields that gate clicks *)

Module InteractionManager.

(** [audioManager] is [true] for an object and [false] for [null]. *)
Record t := mk {
  audioManager : bool;
  isMarkingMode : bool;
  prePlacePosition : option Pos;
  isEnabled : bool
}.

(** The constructor, given the audio manager or [null]. *)
Definition new (audio : bool) : t := mk audio false None true.

(** A call [this.audioManager.play...()]. *)
Definition playSound (i : t) : Outcome :=
  if audioManager i then returns else throws.

Definition clearPreview (i : t) : t :=
  mk (audioManager i) (isMarkingMode i) None (isEnabled i).

Definition showPreview (i : t) (r c : Z) : t :=
  mk (audioManager i) (isMarkingMode i) (Some (r, c)) (isEnabled i).

Definition updatePreview (i : t) (r c : Z) : t := showPreview i r c.

(** [toggleMarkingMode]; leaving marking mode clears the preview.  The
    click sound is its last statement. *)
Definition toggleMarkingMode (i : t) : Outcome * t :=
  let i1 := mk (audioManager i) (negb (isMarkingMode i)) (prePlacePosition i)
               (isEnabled i) in
  let i2 := if negb (isMarkingMode i1) then clearPreview i1 else i1 in
  (playSound i2, i2).

Definition handleMarkToggleRequest (i : t) : Outcome * t :=
  if negb (isEnabled i) then (returns, i) else toggleMarkingMode i.

(** Its own listener of [undoRequested]: it clears the preview and shows
    a message. *)
Definition handleUndoRequest (i : t) : t :=
  if negb (isEnabled i) then i else clearPreview i.

(** [handleGameWin]: the victory sound is its first statement, clearing
    the preview comes after it. *)
Definition handleGameWin (i : t) : Outcome * t :=
  match playSound i with
  | throws => (throws, i)
  | returns => (returns, clearPreview i)
  end.

(** Listener of [gameReset]. *)
Definition handleGameReset (i : t) : t :=
  let i1 := clearPreview i in
  mk (audioManager i1) false (prePlacePosition i1) (isEnabled i1).

Definition enable (i : t) : t :=
  mk (audioManager i) (isMarkingMode i) (prePlacePosition i) true.

Definition disable (i : t) : t :=
  clearPreview (mk (audioManager i) (isMarkingMode i) (prePlacePosition i) false).

(** [performUndo(moveData)]: visual clean-up of the undone stone; the
    click sound is its last statement. *)
Definition performUndo (i : t) : Outcome * t :=
  let i1 := clearPreview i in (playSound i1, i1).

End InteractionManager.

(** ** GameController.js, with the click path of the interaction manager *)

Module GameController.

Inductive Phase := idle | playing | paused | finished.

Definition phase_eqb (a b : Phase) : bool :=
  match a, b with
  | idle, idle | playing, playing | paused, paused | finished, finished => true
  | _, _ => false
  end.

(** The part of [config] the engine depends on. *)
Record Config := mkConfig {
  cfg_boardSize : Z;
  enableAudio : bool;
  enableHistory : bool;
  cfg_maxHistorySize : Z
}.

Definition defaultConfig : Config := mkConfig 15 true true 1000.

(** The objects the controller owns.  The rules engine is one object
    shared by the controller and the interaction manager; it appears
    once, and every method below updates that one copy. *)
Record t := mk {
  gameLogic : GameLogic.t;
  moveHistory : option MoveHistory.t;
  interactionManager : InteractionManager.t;
  gameState : Phase
}.

Definition withLogic (s : t) (g : GameLogic.t) : t :=
  mk g (moveHistory s) (interactionManager s) (gameState s).
Definition withHistory (s : t) (h : option MoveHistory.t) : t :=
  mk (gameLogic s) h (interactionManager s) (gameState s).
Definition withInteraction (s : t) (i : InteractionManager.t) : t :=
  mk (gameLogic s) (moveHistory s) i (gameState s).
Definition withState (s : t) (p : Phase) : t :=
  mk (gameLogic s) (moveHistory s) (interactionManager s) p.

(** [initializeModules] followed by the end of [init]. *)
Definition init (cfg : Config) : t :=
  mk (fst (GameLogic.reset (cfg_boardSize cfg)))
     (if enableHistory cfg
      then Some (fst (MoveHistory.setMaxHistorySize MoveHistory.new
                                                     (cfg_maxHistorySize cfg)))
      else None)
     (InteractionManager.new (enableAudio cfg))
     playing.

(** The listeners of the rules engine's events, in registration order:
    the interaction manager's ([setupGameLogicListeners]), then the
    controller's ([setupModuleConnections], [bindControllerEvents]).
    None of them reads or writes the rules engine, so running them after
    the engine's own update gives the state the source reaches.  [emit]
    catches what a listener throws and goes on with the next one, so a
    listener contributes the state it leaves. *)
Definition onLogicEvent (now : Z) (s : t) (e : GameLogic.Event) : t :=
  match e with
  | GameLogic.playerChanged _ => s
  | GameLogic.gameWin _ _ _ =>
      withState
        (withInteraction s
           (snd (InteractionManager.handleGameWin (interactionManager s))))
        finished
  | GameLogic.gameReset =>
      let s1 := withInteraction s
                  (InteractionManager.handleGameReset (interactionManager s)) in
      let s2 := withState s1 playing in
      match moveHistory s2 with
      | Some h => withHistory s2 (Some (fst (MoveHistory.clear h)))
      | None => s2
      end
  | GameLogic.stonePlaced moveData =>
      match moveHistory s with
      | Some h =>
          withHistory s (Some (snd (fst (MoveHistory.addMove h moveData now))))
      | None => s
      end
  end.

Definition dispatch (now : Z) (s : t) (es : list GameLogic.Event) : t :=
  fold_left (onLogicEvent now) es s.

(** [this.modules.gameLogic.placeStone(row, col)] with its listeners. *)
Definition placeStone (now : Z) (s : t) (r c : Z) : GameLogic.PlaceResult * t :=
  let '(res, g, es) := GameLogic.placeStone (gameLogic s) r c in
  (res, dispatch now (withLogic s g) es).

(** [InteractionManager.handleSuccessfulMove]: it reads [result.moveData],
    which throws on the result [false]; the move sound comes next; the
    rest is presentation and, on a win, a second [handleGameWin]. *)
Definition handleSuccessfulMove (s : t) (res : GameLogic.PlaceResult) : Outcome * t :=
  match res with
  | GameLogic.placeFalse => (throws, s)
  | _ =>
      match InteractionManager.playSound (interactionManager s) with
      | throws => (throws, s)
      | returns =>
          if GameLogic.win res
          then
            let '(o, i) := InteractionManager.handleGameWin (interactionManager s) in
            (o, withInteraction s i)
          else (returns, s)
      end
  end.

Definition confirmPlacement (now : Z) (s : t) (r c : Z) : Outcome * t :=
  let s1 := withInteraction s (InteractionManager.clearPreview (interactionManager s)) in
  let '(res, s2) := placeStone now s1 r c in
  if GameLogic.success res then handleSuccessfulMove s2 res
  else (InteractionManager.playSound (interactionManager s2), s2).

Definition handleNormalClick (now : Z) (s : t) (r c : Z) : Outcome * t :=
  if GameLogic.isGameOver (gameLogic s)
  then (InteractionManager.playSound (interactionManager s), s)
  else if negb (GameLogic.canPlaceStone (gameLogic s) r c)
  then (InteractionManager.playSound (interactionManager s), s)
  else
    match InteractionManager.prePlacePosition (interactionManager s) with
    | Some (pr, pc) =>
        if (pr =? r) && (pc =? c)
        then confirmPlacement now s r c
        else (returns,
              withInteraction s
                (InteractionManager.updatePreview (interactionManager s) r c))
    | None =>
        (returns,
         withInteraction s (InteractionManager.showPreview (interactionManager s) r c))
    end.

(** A click on cell [(r, c)]: nothing when interaction is disabled; else
    the click sound, then, in marking mode, only marks change. *)
Definition handleCellClick (now : Z) (s : t) (r c : Z) : Outcome * t :=
  if negb (InteractionManager.isEnabled (interactionManager s)) then (returns, s)
  else
    match InteractionManager.playSound (interactionManager s) with
    | throws => (throws, s)
    | returns =>
        if InteractionManager.isMarkingMode (interactionManager s) then (returns, s)
        else handleNormalClick now s r c
    end.

Definition canUndo (s : t) : bool :=
  phase_eqb (gameState s) playing &&
  match moveHistory s with
  | Some h => MoveHistory.canUndo h
  | None => false
  end.

(** [performUndo]: the controller writes the engine's fields itself. *)
Definition performUndo (s : t) : bool * t :=
  if negb (canUndo s) then (false, s)
  else
    match moveHistory s with
    | None => (false, s)
    | Some h =>
        let '(popped, h1, _) := MoveHistory.undoLastMove h in
        match popped with
        | None => (false, withHistory s (Some h1))
        | Some lastMove =>
            (* listener of [moveUndone]: [onMoveUndone] *)
            let i1 := snd (InteractionManager.performUndo (interactionManager s)) in
            let g := gameLogic s in
            let g1 := GameLogic.mk (GameLogic.boardSize g)
                        (setCell (GameLogic.boardData g) (row lastMove) (col lastMove) 0)
                        (player lastMove) (step lastMove) false None in
            (true, mk g1 (Some h1) i1 playing)
        end
    end.

(** The undo button: [uiManager] emits [undoRequested]; the interaction
    manager's listener runs first, then the controller's, [performUndo]. *)
Definition undoRequested (s : t) : t :=
  snd (performUndo
         (withInteraction s
            (InteractionManager.handleUndoRequest (interactionManager s)))).

(** [InteractionManager.resetGame], reached through [resetGame]. *)
Definition resetGame (s : t) : bool * t :=
  let '(g, es) := GameLogic.reset (GameLogic.boardSize (gameLogic s)) in
  let s1 := dispatch 0 (withLogic s g) es in
  let i := interactionManager s1 in
  (true, withInteraction s1
           (InteractionManager.mk (InteractionManager.audioManager i) false None
                                  (InteractionManager.isEnabled i))).

Definition pauseGame (s : t) : bool * t :=
  if phase_eqb (gameState s) playing
  then (true, withInteraction (withState s paused)
                (InteractionManager.disable (interactionManager s)))
  else (false, s).

Definition resumeGame (s : t) : bool * t :=
  if phase_eqb (gameState s) paused
  then (true, withInteraction (withState s playing)
                (InteractionManager.enable (interactionManager s)))
  else (false, s).

(** The text handed to [importGame], after [JSON.parse]: a text that does
    not parse, one without [boardState.boardData], or one with it and a
    [moveHistory] field that is missing or falsy, truthy but not an array,
    or an array of entries. *)
Inductive MovesField :=
| movesMissing
| movesNotArray
| movesArray (ms : list Entry).

Inductive GameData :=
| parseError
| noBoardData
| boardState (mh : MovesField).

(** [this.modules.gameLogic.placeStone(move.row, move.col)] with its
    listeners, on coordinates as the text gives them; [None] when it
    throws. *)
Definition placeStoneAt (now : Z) (s : t) (r c : Coord)
  : option (GameLogic.PlaceResult * t) :=
  match GameLogic.placeStoneAt (gameLogic s) r c with
  | None => None
  | Some (res, g, es) => Some (res, dispatch now (withLogic s g) es)
  end.

(** The [forEach] of [importGame]; it ends at the first entry whose
    callback throws: a [null] entry (reading [move.row]), a throwing
    [placeStone], or a throwing [handleSuccessfulMove] after an accepted
    stone.  [clock k] is the reading of [Date.now()] at its [k]-th call
    since the import began; the log reads it once for each move it
    records. *)
Fixpoint replay (clock : nat -> Z) (k : nat) (ms : list Entry) (s : t)
  : Outcome * t :=
  match ms with
  | [] => (returns, s)
  | entryNull :: _ => (throws, s)
  | entryObj r c :: rest =>
      match placeStoneAt (clock k) s r c with
      | None => (throws, s)
      | Some (res, s1) =>
          if GameLogic.success res
          then
            match handleSuccessfulMove s1 res with
            | (throws, s2) => (throws, s2)
            | (returns, s2) =>
                let k' := match res with GameLogic.placeContinue _ => S k | _ => k end in
                replay clock k' rest s2
            end
          else replay clock k rest s1
      end
  end.

(** [importGame]: an error thrown before [resetGame] leaves the state as
    it was; one thrown after it ([forEach] on a value that is not an
    array, or in the replay) is caught with the game reset and the replay
    as far as it got, and [false] is returned. *)
Definition importGame (clock : nat -> Z) (s : t) (data : GameData) : bool * t :=
  match data with
  | parseError => (false, s)
  | noBoardData => (false, s)
  | boardState mh =>
      let s1 := snd (resetGame s) in
      match mh, moveHistory s1 with
      | movesMissing, _ => (true, s1)
      | _, None => (true, s1)
      | movesNotArray, Some _ => (false, s1)
      | movesArray ms, Some _ =>
          match replay clock 0 ms s1 with
          | (returns, s2) => (true, s2)
          | (throws, s2) => (false, s2)
          end
      end
  end.



(** Read-only queries delegate to the rules engine; like every method
    here they are given with the state they leave behind. *)
Definition getStone (s : t) (r c : Z) : option Z * t :=
  (GameLogic.getStone (gameLogic s) r c, s).
Definition canPlaceStone (s : t) (r c : Z) : bool :=
  GameLogic.canPlaceStone (gameLogic s) r c.
Definition getCurrentPlayer (s : t) : Z := GameLogic.getCurrentPlayer (gameLogic s).
Definition isGameOver (s : t) : bool := GameLogic.isGameOver (gameLogic s).
Definition getWinner (s : t) : option Z := GameLogic.getWinner (gameLogic s).
Definition isDraw (s : t) : bool := GameLogic.isDraw (gameLogic s).
Definition getGameState (s : t) : Phase := gameState s.

(** *** Runs of the coordinator *)

(** What can be asked of a running game: a direct placement on the rules
    engine, a board click, undo (called or by its button), reset, pause,
    resume, the marking-mode toggle and an import. *)
Inductive Op :=
| opPlace (r c now : Z)
| opClick (r c now : Z)
| opUndo
| opUndoButton
| opReset
| opPause
| opResume
| opMarkToggle
| opImport (data : GameData) (clock : nat -> Z).

Definition run (s : t) (o : Op) : t :=
  match o with
  | opPlace r c now => snd (placeStone now s r c)
  | opClick r c now => snd (handleCellClick now s r c)
  | opUndo => snd (performUndo s)
  | opUndoButton => undoRequested s
  | opReset => snd (resetGame s)
  | opPause => snd (pauseGame s)
  | opResume => snd (resumeGame s)
  | opMarkToggle =>
      withInteraction s
        (snd (InteractionManager.handleMarkToggleRequest (interactionManager s)))
  | opImport data clock => snd (importGame clock s data)
  end.

Definition runAll (s : t) (os : list Op) : t := fold_left run os s.

(** States a game configured by [cfg] can be in once [init] has completed
    (a controller whose [init] fails stays in the phase [idle] with no
    modules, and none of the operations can run on it).
    [Array(boardSize)] needs a size that is not negative. *)
Inductive reachable (cfg : Config) : t -> Prop :=
| reach_init : 0 <= cfg_boardSize cfg -> reachable cfg (init cfg)
| reach_step s o : reachable cfg s -> reachable cfg (run s o).

End GameController.

(** * Vocabulary of the properties *)

(** The board has [n] rows of [n] cells. *)
Definition square (n : Z) (b : Board) : Prop :=
  length b = Z.to_nat n /\ Forall (fun line => length line = Z.to_nat n) b.

(** Every cell is empty or holds one of the two players. *)
Definition stones_ok (b : Board) : Prop :=
  Forall (Forall (fun v => v = 0 \/ v = 1 \/ v = 2)) b.

(** Cell [(r, c)] is on the board and holds a stone of [p]. *)
Definition holds (g : GameLogic.t) (p r c : Z) : Prop :=
  GameLogic.isValidPosition g r c = true /\ cellAt (GameLogic.boardData g) r c = p.

(** Exactly [k] stones of [p] follow [(r, c)] in direction [(dr, dc)]:
    the next [k] cells hold [p], the one after does not. *)
Definition extent (g : GameLogic.t) (p r c dr dc k : Z) : Prop :=
  0 <= k /\
  (forall i, 1 <= i <= k -> holds g p (r + i * dr) (c + i * dc)) /\
  ~ holds g p (r + (k + 1) * dr) (c + (k + 1) * dc).

(** The contiguous run of [p] through [(r, c)] along the axis [(dx, dy)]
    has [len] stones, the one at [(r, c)] included. *)
Definition runThrough (g : GameLogic.t) (p r c dx dy len : Z) : Prop :=
  exists a b, extent g p r c dx dy a /\ extent g p r c (- dx) (- dy) b /\
              len = 1 + a + b.

(** A step of one cell along a line. *)
Definition unitStep (dr dc : Z) : Prop :=
  -1 <= dr <= 1 /\ -1 <= dc <= 1 /\ (dr <> 0 \/ dc <> 0).

(** The engine after [boardData[r][c] = currentPlayer]. *)
Definition stoneSet (g : GameLogic.t) (r c : Z) : GameLogic.t :=
  GameLogic.mk (GameLogic.boardSize g)
    (setCell (GameLogic.boardData g) r c (GameLogic.currentPlayer g))
    (GameLogic.currentPlayer g) (GameLogic.stepNumber g)
    (GameLogic.gameOver g) (GameLogic.winner g).

(** The [moveData] that [placeStone] builds for a stone at [(r, c)]. *)
Definition moveDataOf (g : GameLogic.t) (r c : Z) : MoveData :=
  mkMoveData r c (GameLogic.currentPlayer g) (GameLogic.stepNumber g).

(** [currentPlayer === 1 ? 2 : 1]. *)
Definition otherPlayer (p : Z) : Z := if p =? 1 then 2 else 1.

(** The engine after a winning stone. *)
Definition wonLogic (g : GameLogic.t) (r c : Z) : GameLogic.t :=
  GameLogic.mk (GameLogic.boardSize g)
    (setCell (GameLogic.boardData g) r c (GameLogic.currentPlayer g))
    (GameLogic.currentPlayer g) (GameLogic.stepNumber g)
    true (Some (GameLogic.currentPlayer g)).

(** The engine after a stone that does not win: next step, other player. *)
Definition nextLogic (g : GameLogic.t) (r c : Z) : GameLogic.t :=
  GameLogic.mk (GameLogic.boardSize g)
    (setCell (GameLogic.boardData g) r c (GameLogic.currentPlayer g))
    (otherPlayer (GameLogic.currentPlayer g)) (GameLogic.stepNumber g + 1)
    (GameLogic.gameOver g) (GameLogic.winner g).

(** The log after the listener of [stonePlaced] ran, when there is one. *)
Definition logged (now : Z) (oh : option MoveHistory.t) (md : MoveData)
  : option MoveHistory.t :=
  match oh with
  | Some h => Some (snd (fst (MoveHistory.addMove h md now)))
  | None => None
  end.

(** The rules engine is well formed: a square board of the configured
    size with cells in 0..2, a player to move, and a winner exactly when
    the game is over. *)
Definition logic_ok (n : Z) (g : GameLogic.t) : Prop :=
  GameLogic.boardSize g = n /\ 0 <= n /\
  square n (GameLogic.boardData g) /\ stones_ok (GameLogic.boardData g) /\
  (GameLogic.currentPlayer g = 1 \/ GameLogic.currentPlayer g = 2) /\
  (GameLogic.gameOver g = false -> GameLogic.winner g = None) /\
  (GameLogic.gameOver g = true -> GameLogic.winner g <> None).

(** A logged move lies on the board, on a cell that holds a stone. *)
Definition entry_ok (g : GameLogic.t) (m : Move) : Prop :=
  GameLogic.isValidPosition g (row m) (col m) = true /\
  cellAt (GameLogic.boardData g) (row m) (col m) <> 0 /\
  (player m = 1 \/ player m = 2).

(** The cells of the logged moves, oldest first. *)
Definition positions (l : list Move) : list Pos :=
  (fun m => (row m, col m)) <$> l.

(** The log is sound for the board: its moves are on distinct occupied
    cells and it is within its cap. *)
Definition log_ok (g : GameLogic.t) (h : MoveHistory.t) : Prop :=
  Forall (entry_ok g) (MoveHistory.history h) /\
  NoDup (positions (MoveHistory.history h)) /\
  Z.of_nat (length (MoveHistory.history h)) <= MoveHistory.maxHistorySize h.

(** The log holds the moves 1, 2, ... and the engine is at the next one. *)
Definition numbered (g : GameLogic.t) (h : MoveHistory.t) : Prop :=
  GameLogic.stepNumber g = Z.of_nat (length (MoveHistory.history h)) + 1 /\
  forall (i : nat) m, MoveHistory.history h !! i = Some m -> step m = Z.of_nat i + 1.

(** The cap the controller installs: [setMaxHistorySize(maxHistorySize)]. *)
Definition cap (cfg : GameController.Config) : Z :=
  Z.max 1 (GameController.cfg_maxHistorySize cfg).

(** No eviction can happen when the log can hold a move for every cell. *)
Definition roomy (cfg : GameController.Config) : Prop :=
  GameController.cfg_boardSize cfg * GameController.cfg_boardSize cfg <= cap cfg.

(** Engine, log and phase agree with each other and with the
    configuration. *)
Definition consistent_parts (cfg : GameController.Config)
    (g : GameLogic.t) (oh : option MoveHistory.t) (st : GameController.Phase) : Prop :=
  logic_ok (GameController.cfg_boardSize cfg) g /\
  (st = GameController.finished <-> GameLogic.gameOver g = true) /\
  st <> GameController.idle /\
  match oh with
  | None => GameController.enableHistory cfg = false
  | Some h =>
      GameController.enableHistory cfg = true /\
      MoveHistory.maxHistorySize h = cap cfg /\
      log_ok g h /\
      (roomy cfg -> numbered g h)
  end.

(** The invariant of the coordinator. *)
Definition consistent (cfg : GameController.Config) (s : GameController.t) : Prop :=
  consistent_parts cfg (GameController.gameLogic s) (GameController.moveHistory s)
                   (GameController.gameState s).

(** While paused, the interaction manager is disabled. *)
Definition gated (s : GameController.t) : Prop :=
  GameController.gameState s = GameController.paused ->
  InteractionManager.isEnabled (GameController.interactionManager s) = false.

(** The engine after the controller's writes in [performUndo]. *)
Definition undoneLogic (g : GameLogic.t) (m : Move) : GameLogic.t :=
  GameLogic.mk (GameLogic.boardSize g)
    (setCell (GameLogic.boardData g) (row m) (col m) 0)
    (player m) (step m) false None.

(** A step that neither enables the interaction manager nor pauses. *)
Definition keeps_gate (s s' : GameController.t) : Prop :=
  InteractionManager.isEnabled (GameController.interactionManager s')
  = InteractionManager.isEnabled (GameController.interactionManager s) /\
  (GameController.gameState s' = GameController.paused ->
   GameController.gameState s = GameController.paused).

(** Direct placements at the given cells, in order. *)
Definition placements (now : Z) (cells : list Pos) : list GameController.Op :=
  map (fun '(r, c) => GameController.opPlace r c now) cells.

(** A 5x5 board, History enabled with the default cap. *)
Definition smallConfig : GameController.Config :=
  GameController.mkConfig 5 true true 1000.

(** The game reached from a fresh one by placing at [cells] in turn. *)
Definition playFrom (cfg : GameController.Config) (now : Z) (cells : list Pos)
  : GameController.t :=
  GameController.runAll (GameController.init cfg) (placements now cells).

(** The log of a state that has one. *)
Definition logOf (s : GameController.t) : MoveHistory.t :=
  match GameController.moveHistory s with
  | Some h => h
  | None => MoveHistory.new
  end.

(** Black has (0,0), (0,1), (0,2), (0,4), (0,5); white is elsewhere; black
    is to move and (0,3) is free. *)
Definition beforeOverline : GameController.t :=
  playFrom GameController.defaultConfig 0
    [(0, 0); (1, 0); (0, 1); (1, 1); (0, 2); (1, 2); (0, 4); (1, 4); (0, 5); (2, 0)].

(** The 5x5 example: black on (0,0)..(0,3), white on (1,0), (1,1), (1,2)
    and, so that black is to move, on (2,0). *)
Definition beforeFive : GameController.t :=
  playFrom smallConfig 0
    [(0, 0); (1, 0); (0, 1); (1, 1); (0, 2); (1, 2); (0, 3); (2, 0)].

(** A 5x5 game whose log keeps one move only. *)
Definition tinyLogConfig : GameController.Config :=
  GameController.mkConfig 5 true true 1.

(** The game of the 5x5 example after black's winning stone. *)
Definition afterFive : GameController.t :=
  playFrom smallConfig 0
    [(0, 0); (1, 0); (0, 1); (1, 1); (0, 2); (1, 2); (0, 3); (2, 0); (0, 4)].

(** A 5x5 game one stone before the board is full, with no five in a row
    anywhere; black is to move and (4,3) is the last free cell. *)
Definition beforeFull : GameController.t :=
  playFrom smallConfig 0
    [(0, 0); (0, 2); (0, 1); (0, 3); (0, 4); (1, 0); (1, 2); (1, 1); (1, 3); (1, 4);
     (2, 0); (2, 2); (2, 1); (2, 3); (2, 4); (3, 0); (3, 2); (3, 1); (3, 3); (3, 4);
     (4, 0); (4, 2); (4, 1); (4, 4)].

(** A 5x5 game one stone before the board is full, in which black's last
    stone, at (0,4), completes the top row. *)
Definition beforeFullWin : GameController.t :=
  playFrom smallConfig 0
    [(0, 0); (1, 0); (0, 1); (1, 1); (0, 2); (1, 3); (0, 3); (1, 4); (1, 2); (2, 1);
     (2, 0); (2, 2); (2, 3); (2, 4); (3, 1); (3, 0); (3, 4); (3, 2); (4, 0); (3, 3);
     (4, 2); (4, 1); (4, 3); (4, 4)].

(** A fresh default game, paused. *)
Definition pausedGame : GameController.t :=
  GameController.runAll (GameController.init GameController.defaultConfig)
                        [GameController.opPause].

(** A move of an imported text with integer [row] and [col]. *)
Definition intEntry (cell : Pos) : Entry := entryObj (cInt cell.1) (cInt cell.2).


(** The interaction manager of [s] has an audio manager. *)
Definition hasAudio (s : GameController.t) : Prop :=
  InteractionManager.audioManager (GameController.interactionManager s) = true.

(** * Further vocabulary *)

(** The player who moves at step [k]: black on odd steps, white on even. *)
Definition playerAt (k : Z) : Z := if Z.odd k then 1 else 2.

(** The engine has the player of its step number to move. *)
Definition turn_ok (g : GameLogic.t) : Prop :=
  GameLogic.currentPlayer g = playerAt (GameLogic.stepNumber g).

(** 1 for a stone, 0 for an empty cell. *)
Definition occupied (v : Z) : Z := if v =? 0 then 0 else 1.

(** Stones in a row, and on the board. *)
Fixpoint stonesIn (line : list Z) : Z :=
  match line with
  | [] => 0
  | v :: rest => occupied v + stonesIn rest
  end.

Fixpoint countStones (b : Board) : Z :=
  match b with
  | [] => 0
  | line :: rest => stonesIn line + countStones rest
  end.

(** The log holds consecutive steps, the last one just before the engine's
    step number. *)
Definition steps_ok (g : GameLogic.t) (h : MoveHistory.t) : Prop :=
  Z.of_nat (length (MoveHistory.history h)) + 1 <= GameLogic.stepNumber g /\
  forall (i : nat) m,
    MoveHistory.history h !! i = Some m ->
    step m = GameLogic.stepNumber g - Z.of_nat (length (MoveHistory.history h)) + Z.of_nat i.

(** Every logged move was made by the player of its step. *)
Definition turns_logged (h : MoveHistory.t) : Prop :=
  Forall (fun m => player m = playerAt (step m)) (MoveHistory.history h).

(** One call of [placeStone] on the rules engine, keeping the engine. *)
Definition enginePlace (g : GameLogic.t) (cell : Pos) : GameLogic.t :=
  snd (fst (GameLogic.placeStone g cell.1 cell.2)).

(** The engine after [placeStone] at each of [cells] in turn. *)
Definition enginePlay (g : GameLogic.t) (cells : list Pos) : GameLogic.t :=
  fold_left enginePlace cells g.

(** A fresh engine of size [n]. *)
Definition freshEngine (n : Z) : GameLogic.t := fst (GameLogic.reset n).

(** Every logged move's cell holds the stone of that move's player. *)
Definition stones_logged (g : GameLogic.t) (h : MoveHistory.t) : Prop :=
  Forall (fun m => cellAt (GameLogic.boardData g) (row m) (col m) = player m)
         (MoveHistory.history h).

(** The engine is the one replaying the log gives, followed, when the game
    is over, by the winning stone, which the log does not hold. *)
Definition replayed (n : Z) (g : GameLogic.t) (h : MoveHistory.t) : Prop :=
  let g0 := enginePlay (freshEngine n) (positions (MoveHistory.history h)) in
  (GameLogic.gameOver g = false -> g = g0) /\
  (GameLogic.gameOver g = true ->
   exists r c, GameLogic.canPlaceStone g0 r c = true /\ g = wonLogic g0 r c).

(** What the engine and the log keep besides [consistent]: the turn follows
    the step number, the stones are counted by it, a finished game is won
    by the player to move, the log holds consecutive steps made by the
    right players on cells that hold their stones and, while nothing was
    evicted, the engine is the one that replaying the log gives. *)
Definition tracked (cfg : GameController.Config)
    (g : GameLogic.t) (oh : option MoveHistory.t) : Prop :=
  turn_ok g /\
  1 <= GameLogic.stepNumber g /\
  countStones (GameLogic.boardData g)
  = GameLogic.stepNumber g - 1 + (if GameLogic.gameOver g then 1 else 0) /\
  (GameLogic.gameOver g = true ->
   GameLogic.winner g = Some (GameLogic.currentPlayer g)) /\
  match oh with
  | Some h =>
      steps_ok g h /\ turns_logged h /\ stones_logged g h /\
      (roomy cfg -> replayed (GameController.cfg_boardSize cfg) g h)
  | None => True
  end.

(** [P] holds of the engine and the log of [s]. *)
Definition holdsAt (P : GameLogic.t -> option MoveHistory.t -> Prop)
    (s : GameController.t) : Prop :=
  P (GameController.gameLogic s) (GameController.moveHistory s).

(** The engine is well formed and at the turn of its step number. *)
Definition engine_ok (n : Z) (g : GameLogic.t) : Prop :=
  logic_ok n g /\ turn_ok g /\ 1 <= GameLogic.stepNumber g.

(** The [k] cells met from [(r, c)] in steps of [(dr, dc)], [(r, c)] first. *)
Fixpoint ray (r c dr dc : Z) (k : nat) : list Pos :=
  match k with
  | O => []
  | S k' => (r, c) :: ray (r + dr) (c + dc) dr dc k'
  end.

(** * Properties *)

(** ** The board as a square array *)

Lemma square_line n b r line :
  square n b -> b !! r = Some line -> length line = Z.to_nat n.
Proof.
  intros [_ Hall] Hr.
  rewrite Forall_forall in Hall. apply Hall.
  eapply list_elem_of_lookup_2; eauto.
Qed.

Lemma square_lookup n b r c :
  square n b -> 0 <= r < n -> 0 <= c < n ->
  exists line v, b !! Z.to_nat r = Some line /\ line !! Z.to_nat c = Some v.
Proof.
  intros Hsq Hr Hc.
  destruct (lookup_lt_is_Some_2 b (Z.to_nat r)) as [line Hline].
  { destruct Hsq as [-> _]. lia. }
  destruct (lookup_lt_is_Some_2 line (Z.to_nat c)) as [v Hv].
  { rewrite (square_line _ _ _ _ Hsq Hline). lia. }
  eauto.
Qed.

Lemma emptyBoard_square n : square n (GameLogic.emptyBoard n).
Proof.
  unfold square, GameLogic.emptyBoard. split.
  - apply length_replicate.
  - apply Forall_replicate. apply length_replicate.
Qed.

Lemma emptyBoard_stones n : stones_ok (GameLogic.emptyBoard n).
Proof.
  unfold stones_ok, GameLogic.emptyBoard.
  apply Forall_replicate, Forall_replicate. auto.
Qed.

Lemma emptyBoard_cell n r c : cellAt (GameLogic.emptyBoard n) r c = 0.
Proof.
  unfold cellAt.
  destruct (GameLogic.emptyBoard n !! Z.to_nat r) as [line|] eqn:Hl; [|reflexivity].
  unfold GameLogic.emptyBoard in Hl. apply lookup_replicate in Hl as [-> _].
  destruct (replicate (Z.to_nat n) 0 !! Z.to_nat c) as [v|] eqn:Hv; [|reflexivity].
  apply lookup_replicate in Hv as [-> _]. reflexivity.
Qed.

Lemma setCell_square n b r c v : square n b -> square n (setCell b r c v).
Proof.
  intros Hsq. unfold setCell.
  destruct (b !! Z.to_nat r) as [line|] eqn:Hl; [|exact Hsq].
  pose proof (square_line _ _ _ _ Hsq Hl) as Hlen.
  destruct Hsq as [Hb Hall]. split.
  - rewrite length_insert. exact Hb.
  - apply Forall_insert; [exact Hall|]. cbv beta. rewrite length_insert. exact Hlen.
Qed.

Lemma setCell_stones b r c v :
  stones_ok b -> v = 0 \/ v = 1 \/ v = 2 -> stones_ok (setCell b r c v).
Proof.
  intros Hs Hv. unfold setCell.
  destruct (b !! Z.to_nat r) as [line|] eqn:Hl; [|exact Hs].
  apply Forall_insert; [exact Hs|].
  apply Forall_insert; [|exact Hv].
  unfold stones_ok in Hs. rewrite Forall_forall in Hs. apply Hs.
  eapply list_elem_of_lookup_2; eauto.
Qed.

Lemma cellAt_stones b r c :
  stones_ok b -> cellAt b r c = 0 \/ cellAt b r c = 1 \/ cellAt b r c = 2.
Proof.
  intros Hs. unfold cellAt.
  destruct (b !! Z.to_nat r) as [line|] eqn:Hl; [|auto].
  destruct (line !! Z.to_nat c) as [v|] eqn:Hv; [|auto].
  unfold stones_ok in Hs.
  pose proof (Forall_lookup_1 _ _ _ _ Hs Hl) as Hline.
  exact (Forall_lookup_1 _ _ _ _ Hline Hv).
Qed.

Lemma cellAt_setCell_same n b r c v :
  square n b -> 0 <= r < n -> 0 <= c < n -> cellAt (setCell b r c v) r c = v.
Proof.
  intros Hsq Hr Hc.
  destruct (square_lookup _ _ _ _ Hsq Hr Hc) as (line & w & Hl & Hw).
  unfold setCell, cellAt. rewrite Hl.
  rewrite list_lookup_insert_eq by (eapply lookup_lt_Some; eauto).
  rewrite list_lookup_insert_eq by (eapply lookup_lt_Some; eauto).
  reflexivity.
Qed.

Lemma cellAt_setCell_other b r c v r' c' :
  0 <= r -> 0 <= c -> 0 <= r' -> 0 <= c' -> (r, c) <> (r', c') ->
  cellAt (setCell b r c v) r' c' = cellAt b r' c'.
Proof.
  intros Hr Hc Hr' Hc' Hne. unfold setCell.
  destruct (b !! Z.to_nat r) as [line|] eqn:Hl; [|reflexivity].
  unfold cellAt.
  destruct (decide (Z.to_nat r = Z.to_nat r')) as [Heq|Hrr].
  - assert (r = r') by lia. subst r'.
    rewrite list_lookup_insert_eq by (eapply lookup_lt_Some; eauto).
    rewrite Hl.
    rewrite list_lookup_insert_ne; [reflexivity|].
    intros Hcc. apply Hne. f_equal. lia.
  - rewrite list_lookup_insert_ne by exact Hrr. reflexivity.
Qed.

Lemma setCell_restore n b r c v :
  square n b -> 0 <= r < n -> 0 <= c < n -> cellAt b r c = 0 ->
  setCell (setCell b r c v) r c 0 = b.
Proof.
  intros Hsq Hr Hc Hz.
  destruct (square_lookup _ _ _ _ Hsq Hr Hc) as (line & w & Hl & Hw).
  assert (w = 0) as ->. { unfold cellAt in Hz. rewrite Hl, Hw in Hz. exact Hz. }
  unfold setCell. rewrite Hl.
  rewrite list_lookup_insert_eq by (eapply lookup_lt_Some; eauto).
  rewrite list_insert_insert_eq, list_insert_insert_eq.
  rewrite (list_insert_id line) by exact Hw.
  apply list_insert_id. exact Hl.
Qed.

(** ** Win detection *)

Lemma holds_test g p r c :
  GameLogic.isValidPosition g r c && (cellAt (GameLogic.boardData g) r c =? p) = true
  <-> holds g p r c.
Proof.
  unfold holds. rewrite andb_true_iff, Z.eqb_eq. reflexivity.
Qed.

Lemma isValidPosition_iff g r c :
  GameLogic.isValidPosition g r c = true
  <-> 0 <= r < GameLogic.boardSize g /\ 0 <= c < GameLogic.boardSize g.
Proof.
  unfold GameLogic.isValidPosition.
  rewrite !andb_true_iff, !Z.leb_le, !Z.ltb_lt. lia.
Qed.

Lemma extent_unique g p r c dr dc k k' :
  extent g p r c dr dc k -> extent g p r c dr dc k' -> k = k'.
Proof.
  intros (Hk & Hin & Hout) (Hk' & Hin' & Hout').
  destruct (Z.lt_trichotomy k k') as [Hlt | [Heq | Hgt]]; [|exact Heq|].
  - exfalso. apply Hout. apply Hin'. lia.
  - exfalso. apply Hout'. apply Hin. lia.
Qed.

(** What a loop of [checkWin] computes, whatever the fuel: it advances
    over [k] cells that hold [p]; if fuel is left, the next cell does not. *)
Lemma walk_spec fuel g p dr dc :
  forall r c count wp,
  exists k : nat, exists wp',
    (k <= fuel)%nat /\
    GameLogic.walk fuel g p r c dr dc count wp = (count + Z.of_nat k, wp') /\
    length wp' = (length wp + k)%nat /\
    (forall i, 0 <= i < Z.of_nat k -> holds g p (r + i * dr) (c + i * dc)) /\
    ((k < fuel)%nat -> ~ holds g p (r + Z.of_nat k * dr) (c + Z.of_nat k * dc)).
Proof.
  induction fuel as [|fuel IH]; intros r c count wp.
  - exists 0%nat, wp. simpl. split_and!; try lia.
    + f_equal. lia.
  - simpl.
    destruct (GameLogic.isValidPosition g r c &&
              (cellAt (GameLogic.boardData g) r c =? p)) eqn:Htest.
    + apply holds_test in Htest.
      destruct (IH (r + dr) (c + dc) (count + 1) (wp ++ [(r, c)]))
        as (k & wp' & Hle & Heq & Hlen & Hin & Hout).
      exists (S k), wp'. split_and!.
      * lia.
      * rewrite Heq. f_equal. lia.
      * rewrite Hlen, length_app. simpl. lia.
      * intros i Hi. destruct (Z.eq_dec i 0) as [-> | Hnz].
        -- replace (r + 0 * dr) with r by lia.
           replace (c + 0 * dc) with c by lia. exact Htest.
        -- replace (r + i * dr) with (r + dr + (i - 1) * dr) by ring.
           replace (c + i * dc) with (c + dc + (i - 1) * dc) by ring.
           apply Hin. lia.
      * intros Hlt.
        replace (r + Z.of_nat (S k) * dr) with (r + dr + Z.of_nat k * dr)
          by (rewrite Nat2Z.inj_succ; ring).
        replace (c + Z.of_nat (S k) * dc) with (c + dc + Z.of_nat k * dc)
          by (rewrite Nat2Z.inj_succ; ring).
        apply Hout. lia.
    + exists 0%nat, wp. split_and!; try lia.
      * f_equal. lia.
      * intros _. replace (r + Z.of_nat 0 * dr) with r by (simpl; lia).
        replace (c + Z.of_nat 0 * dc) with c by (simpl; lia).
        intros Hh. apply holds_test in Hh. congruence.
Qed.

(** From a cell of the board, [boardSize] iterations are enough for the
    loop to stop by its own test. *)
Lemma walk_extent g p row col dr dc count wp :
  GameLogic.isValidPosition g row col = true -> unitStep dr dc ->
  exists k wp',
    GameLogic.walk (Z.to_nat (GameLogic.boardSize g)) g p
                   (row + dr) (col + dc) dr dc count wp = (count + k, wp') /\
    length wp' = (length wp + Z.to_nat k)%nat /\
    extent g p row col dr dc k.
Proof.
  intros Hvalid Hstep.
  apply isValidPosition_iff in Hvalid.
  destruct (walk_spec (Z.to_nat (GameLogic.boardSize g)) g p dr dc
                      (row + dr) (col + dc) count wp)
    as (k & wp' & Hle & Heq & Hlen & Hin & Hout).
  exists (Z.of_nat k), wp'. split; [exact Heq|]. split; [rewrite Hlen; lia|].
  assert (Hshift : forall i, holds g p (row + dr + (i - 1) * dr) (col + dc + (i - 1) * dc)
                             <-> holds g p (row + i * dr) (col + i * dc)).
  { intros i. replace (row + dr + (i - 1) * dr) with (row + i * dr) by ring.
    replace (col + dc + (i - 1) * dc) with (col + i * dc) by ring. reflexivity. }
  split; [lia|]. split.
  - intros i Hi. apply Hshift. apply Hin. lia.
  - assert (Hlt : (k < Z.to_nat (GameLogic.boardSize g))%nat).
    { destruct (Nat.eq_dec k 0%nat) as [-> | Hpos]; [lia|].
      assert (Hlast : holds g p (row + Z.of_nat k * dr) (col + Z.of_nat k * dc)).
      { apply Hshift. apply Hin. lia. }
      destruct Hlast as [Hv _]. apply isValidPosition_iff in Hv.
      destruct Hstep as (Hdr & Hdc & Hnz). nia. }
    intros Hh. apply (Hout Hlt).
    replace (row + dr + Z.of_nat k * dr) with (row + (Z.of_nat k + 1) * dr) by ring.
    replace (col + dc + Z.of_nat k * dc) with (col + (Z.of_nat k + 1) * dc) by ring.
    exact Hh.
Qed.

Lemma lineThrough_spec g p r c dx dy :
  GameLogic.isValidPosition g r c = true -> unitStep dx dy ->
  exists len wp,
    GameLogic.lineThrough g p r c dx dy = (len, wp) /\
    runThrough g p r c dx dy len /\
    Z.of_nat (length wp) = len.
Proof.
  intros Hvalid Hstep. unfold GameLogic.lineThrough.
  destruct (walk_extent g p r c dx dy 1 [(r, c)] Hvalid Hstep)
    as (a & wp1 & Hw1 & Hl1 & Ha).
  rewrite Hw1.
  assert (Hback : unitStep (- dx) (- dy)).
  { destruct Hstep as (? & ? & ?). unfold unitStep. lia. }
  destruct (walk_extent g p r c (- dx) (- dy) (1 + a) wp1 Hvalid Hback)
    as (b & wp2 & Hw2 & Hl2 & Hb).
  replace (r + - dx) with (r - dx) in Hw2 by lia.
  replace (c + - dy) with (c - dy) in Hw2 by lia.
  exists (1 + a + b), wp2. split; [exact Hw2|]. split.
  - exists a, b. auto.
  - rewrite Hl2, Hl1. simpl length.
    destruct Ha as [Ha0 _]. destruct Hb as [Hb0 _]. lia.
Qed.

Lemma directions_unit d : d ∈ GameLogic.directions -> unitStep d.1 d.2.
Proof.
  unfold GameLogic.directions. intros Hd.
  repeat (apply elem_of_cons in Hd as [-> | Hd]; [unfold unitStep; simpl; lia|]).
  inversion Hd.
Qed.

Lemma checkDirections_spec g p r c dirs :
  GameLogic.isValidPosition g r c = true ->
  (forall d, d ∈ dirs -> unitStep d.1 d.2) ->
  match GameLogic.checkDirections g p r c dirs with
  | Some wp =>
      length wp = 5%nat /\ exists d, d ∈ dirs /\ runThrough g p r c d.1 d.2 5
  | None => forall d, d ∈ dirs -> ~ runThrough g p r c d.1 d.2 5
  end.
Proof.
  intros Hvalid. induction dirs as [|[dx dy] rest IH]; intros Hunit.
  - simpl. intros d Hd. inversion Hd.
  - simpl.
    destruct (lineThrough_spec g p r c dx dy Hvalid (Hunit (dx, dy) ltac:(left)))
      as (len & wp & Hline & Hrun & Hlen).
    rewrite Hline.
    destruct (len =? 5) eqn:Hfive.
    + apply Z.eqb_eq in Hfive. rewrite Hfive in Hrun, Hlen. split; [lia|].
      exists (dx, dy). split; [left|exact Hrun].
    + apply Z.eqb_neq in Hfive.
      assert (Hrest : forall d, d ∈ rest -> unitStep d.1 d.2).
      { intros d Hd. apply Hunit. right. exact Hd. }
      specialize (IH Hrest).
      destruct (GameLogic.checkDirections g p r c rest) as [wp'|].
      * destruct IH as (Hl & d & Hd & Hr). split; [exact Hl|].
        exists d. split; [right; exact Hd|exact Hr].
      * intros d Hd Hr. apply elem_of_cons in Hd as [-> | Hd].
        -- destruct Hrun as (a & b & Ha & Hb & ->).
           destruct Hr as (a' & b' & Ha' & Hb' & Hsum). simpl in Ha', Hb'.
           rewrite (extent_unique _ _ _ _ _ _ _ _ Ha Ha') in Hfive.
           rewrite (extent_unique _ _ _ _ _ _ _ _ Hb Hb') in Hfive. lia.
        -- exact (IH d Hd Hr).
Qed.

(** [checkWin] on an occupied cell of the board: a line is returned exactly
    when the run through the cell has five stones along one of the four
    axes, and the line returned has five cells. *)
Lemma checkWin_spec g r c :
  GameLogic.isValidPosition g r c = true ->
  cellAt (GameLogic.boardData g) r c <> 0 ->
  match GameLogic.checkWin g r c with
  | Some wp =>
      length wp = 5%nat /\
      exists d, d ∈ GameLogic.directions /\
                runThrough g (cellAt (GameLogic.boardData g) r c) r c d.1 d.2 5
  | None =>
      forall d, d ∈ GameLogic.directions ->
                ~ runThrough g (cellAt (GameLogic.boardData g) r c) r c d.1 d.2 5
  end.
Proof.
  intros Hvalid Hocc. unfold GameLogic.checkWin.
  apply Z.eqb_neq in Hocc. rewrite Hocc.
  apply checkDirections_spec; [exact Hvalid|apply directions_unit].
Qed.

(** ** The steps of [placeStone] *)

Lemma canPlaceStone_iff g r c :
  GameLogic.canPlaceStone g r c = true <->
  GameLogic.gameOver g = false /\ GameLogic.isValidPosition g r c = true /\
  cellAt (GameLogic.boardData g) r c = 0.
Proof.
  unfold GameLogic.canPlaceStone, GameLogic.isValidPosition.
  rewrite !andb_true_iff, negb_true_iff, Z.eqb_eq. tauto.
Qed.

Lemma placeStone_rejected g r c :
  GameLogic.canPlaceStone g r c = false ->
  GameLogic.placeStone g r c = (GameLogic.placeFalse, g, []).
Proof. intros H. unfold GameLogic.placeStone. rewrite H. reflexivity. Qed.

Lemma placeStone_accepted g r c :
  GameLogic.canPlaceStone g r c = true ->
  GameLogic.placeStone g r c =
  match GameLogic.checkWin (stoneSet g r c) r c with
  | Some wp =>
      (GameLogic.placeWin wp (moveDataOf g r c), wonLogic g r c,
       [GameLogic.gameWin (GameLogic.currentPlayer g) wp (moveDataOf g r c)])
  | None =>
      (GameLogic.placeContinue (moveDataOf g r c), nextLogic g r c,
       [GameLogic.stonePlaced (moveDataOf g r c);
        GameLogic.playerChanged (otherPlayer (GameLogic.currentPlayer g))])
  end.
Proof.
  intros H. unfold GameLogic.placeStone. rewrite H. simpl.
  fold (stoneSet g r c).
  destruct (GameLogic.checkWin (stoneSet g r c) r c); reflexivity.
Qed.

Lemma ctl_eta (s : GameController.t) :
  GameController.mk (GameController.gameLogic s) (GameController.moveHistory s)
    (GameController.interactionManager s) (GameController.gameState s) = s.
Proof. destruct s; reflexivity. Qed.

Lemma ctl_placeStone_rejected now s r c :
  GameLogic.canPlaceStone (GameController.gameLogic s) r c = false ->
  GameController.placeStone now s r c = (GameLogic.placeFalse, s).
Proof.
  intros H. unfold GameController.placeStone.
  rewrite (placeStone_rejected _ _ _ H). simpl.
  unfold GameController.withLogic. rewrite ctl_eta. reflexivity.
Qed.

Lemma ctl_placeStone_accepted now s r c :
  GameLogic.canPlaceStone (GameController.gameLogic s) r c = true ->
  GameController.placeStone now s r c =
  let g := GameController.gameLogic s in
  match GameLogic.checkWin (stoneSet g r c) r c with
  | Some wp =>
      (GameLogic.placeWin wp (moveDataOf g r c),
       GameController.mk (wonLogic g r c) (GameController.moveHistory s)
         (snd (InteractionManager.handleGameWin (GameController.interactionManager s)))
         GameController.finished)
  | None =>
      (GameLogic.placeContinue (moveDataOf g r c),
       GameController.mk (nextLogic g r c)
         (logged now (GameController.moveHistory s) (moveDataOf g r c))
         (GameController.interactionManager s) (GameController.gameState s))
  end.
Proof.
  intros H. unfold GameController.placeStone.
  rewrite (placeStone_accepted _ _ _ H). simpl.
  destruct (GameLogic.checkWin (stoneSet (GameController.gameLogic s) r c) r c).
  - reflexivity.
  - destruct s as [g [h|] i st]; reflexivity.
Qed.

(** ** What every reachable state satisfies *)

Section Invariants.

(** The configuration the game was created with. *)
Context (cfg : GameController.Config).

Lemma otherPlayer_ok p : otherPlayer p = 1 \/ otherPlayer p = 2.
Proof. unfold otherPlayer. destruct (p =? 1); auto. Qed.

Lemma cell_stays_occupied n b r c v r' c' :
  square n b -> 0 <= r < n -> 0 <= c < n -> 0 <= r' -> 0 <= c' -> v <> 0 ->
  cellAt b r' c' <> 0 -> cellAt (setCell b r c v) r' c' <> 0.
Proof.
  intros Hsq Hr Hc Hr' Hc' Hv Hocc.
  destruct (decide ((r, c) = (r', c'))) as [Heq | Hne].
  - inversion Heq; subst. rewrite (cellAt_setCell_same n) by assumption. exact Hv.
  - rewrite cellAt_setCell_other by (try assumption; lia). exact Hocc.
Qed.

(** Pigeonhole: distinct cells of the board number at most [n * n]. *)
Lemma distinct_cells_bound (n : Z) (l : list Pos) :
  0 <= n -> NoDup l ->
  (forall p, p ∈ l -> 0 <= p.1 < n /\ 0 <= p.2 < n) ->
  Z.of_nat (length l) <= n * n.
Proof.
  intros Hn Hnd Hin.
  assert (Hsub : l ⊆+ list_prod (seqZ 0 n) (seqZ 0 n)).
  { apply NoDup_submseteq; [exact Hnd|].
    intros [x y] Hxy. apply list_elem_of_In, in_prod_iff.
    destruct (Hin _ Hxy) as [Hx Hy]. simpl in Hx, Hy.
    split; apply list_elem_of_In, elem_of_seqZ; lia. }
  apply submseteq_length in Hsub.
  rewrite length_prod, !length_seqZ in Hsub. nia.
Qed.

Lemma log_fits n g (l : list Move) :
  GameLogic.boardSize g = n -> 0 <= n ->
  Forall (entry_ok g) l -> NoDup (positions l) ->
  Z.of_nat (length l) <= n * n.
Proof.
  intros Hsize Hn Hall Hnd.
  rewrite <- (length_fmap (fun m => (row m, col m))).
  apply distinct_cells_bound; [exact Hn|exact Hnd|].
  intros p Hp. apply list_elem_of_fmap in Hp as (m & -> & Hm).
  rewrite Forall_forall in Hall. destruct (Hall m Hm) as (Hv & _).
  apply isValidPosition_iff in Hv. rewrite Hsize in Hv. exact Hv.
Qed.

Lemma entry_ok_stoneSet n g r c m :
  logic_ok n g -> GameLogic.isValidPosition g r c = true ->
  entry_ok g m -> entry_ok (stoneSet g r c) m.
Proof.
  intros (Hsize & Hn & Hsq & _ & Hp & _) Hv (Hmv & Hocc & Hpl).
  split; [exact Hmv|]. split; [|exact Hpl].
  apply isValidPosition_iff in Hv, Hmv. rewrite Hsize in Hv, Hmv.
  simpl. apply (cell_stays_occupied n); try assumption; lia.
Qed.

Lemma entry_ok_new n g r c now :
  logic_ok n g -> GameLogic.isValidPosition g r c = true ->
  entry_ok (stoneSet g r c)
    (mkMove r c (GameLogic.currentPlayer g) (GameLogic.stepNumber g) now).
Proof.
  intros (Hsize & Hn & Hsq & _ & Hp & _) Hv.
  split; [exact Hv|]. split; [|exact Hp].
  apply isValidPosition_iff in Hv. rewrite Hsize in Hv. simpl.
  rewrite (cellAt_setCell_same n) by (try assumption; lia). lia.
Qed.

Lemma fresh_position g r c l :
  Forall (entry_ok g) l -> cellAt (GameLogic.boardData g) r c = 0 ->
  (r, c) ∉ positions l.
Proof.
  intros Hall Hz Hin. apply list_elem_of_fmap in Hin as (m & Heq & Hm).
  rewrite Forall_forall in Hall. destruct (Hall m Hm) as (_ & Hocc & _).
  inversion Heq; subst. contradiction.
Qed.

Lemma addMove_history h md now :
  MoveHistory.history (snd (fst (MoveHistory.addMove h md now))) =
  let pushed := MoveHistory.history h ++
                [mkMove (md_row md) (md_col md) (md_player md) (md_step md) now] in
  if Z.of_nat (length pushed) >? MoveHistory.maxHistorySize h
  then tail pushed else pushed.
Proof. reflexivity. Qed.


Lemma Forall_tail {A} (P : A -> Prop) (l : list A) : Forall P l -> Forall P (tail l).
Proof. intros H. destruct H; simpl; auto. Qed.

Lemma NoDup_tail {A} (l : list A) : NoDup l -> NoDup (tail l).
Proof. intros H. destruct H; simpl; [constructor|assumption]. Qed.

Lemma positions_snoc l m : positions (l ++ [m]) = positions l ++ [(row m, col m)].
Proof. unfold positions. rewrite fmap_app. reflexivity. Qed.

Lemma positions_tail l : positions (tail l) = tail (positions l).
Proof. destruct l; reflexivity. Qed.

Lemma NoDup_snoc {A} (l : list A) (x : A) : NoDup l -> x ∉ l -> NoDup (l ++ [x]).
Proof.
  intros Hl Hx. apply NoDup_app. split; [exact Hl|]. split.
  - intros y Hy Hyx. apply list_elem_of_singleton in Hyx. subst. contradiction.
  - apply NoDup_singleton.
Qed.

(** The log stays sound when the listener of [stonePlaced] records a move. *)
Lemma log_ok_logged g h r c now :
  logic_ok (GameController.cfg_boardSize cfg) g ->
  GameLogic.canPlaceStone g r c = true ->
  MoveHistory.maxHistorySize h = cap cfg ->
  log_ok g h -> (roomy cfg -> numbered g h) ->
  let h' := snd (fst (MoveHistory.addMove h (moveDataOf g r c) now)) in
  log_ok (nextLogic g r c) h' /\ (roomy cfg -> numbered (nextLogic g r c) h').
Proof.
  intros Hlogic Hcan Hcap (Hall & Hnd & Hlen) Hnum h'.
  apply canPlaceStone_iff in Hcan as (Hover & Hv & Hz).
  set (mv := mkMove r c (GameLogic.currentPlayer g) (GameLogic.stepNumber g) now).
  assert (Hall' : Forall (entry_ok (nextLogic g r c)) (MoveHistory.history h ++ [mv])).
  { apply Forall_app. split.
    - eapply Forall_impl; [exact Hall|]. intros m Hm.
      exact (entry_ok_stoneSet _ _ _ _ _ Hlogic Hv Hm).
    - constructor; [|constructor]. exact (entry_ok_new _ _ _ _ now Hlogic Hv). }
  assert (Hnd' : NoDup (positions (MoveHistory.history h ++ [mv]))).
  { rewrite positions_snoc. apply NoDup_snoc; [exact Hnd|].
    exact (fresh_position _ _ _ _ Hall Hz). }
  assert (Hhist : MoveHistory.history h' =
                  if Z.of_nat (length (MoveHistory.history h ++ [mv]))
                     >? MoveHistory.maxHistorySize h
                  then tail (MoveHistory.history h ++ [mv])
                  else MoveHistory.history h ++ [mv]) by reflexivity.
  assert (Hpushed : length (MoveHistory.history h ++ [mv])
                    = S (length (MoveHistory.history h))).
  { rewrite length_app. simpl. lia. }
  split.
  - unfold log_ok. rewrite Hhist.
    change (MoveHistory.maxHistorySize h') with (MoveHistory.maxHistorySize h).
    destruct (Z.gtb_spec (Z.of_nat (length (MoveHistory.history h ++ [mv])))
                         (MoveHistory.maxHistorySize h)) as [Hgt | Hle].
    + split; [apply Forall_tail; exact Hall'|]. split.
      * rewrite positions_tail. apply NoDup_tail. exact Hnd'.
      * rewrite length_tl, Hpushed. lia.
    + split; [exact Hall'|]. split; [exact Hnd'|exact Hle].
  - intros Hroomy. destruct (Hnum Hroomy) as (Hstep & Hidx).
    assert (Hfit : Z.of_nat (length (MoveHistory.history h ++ [mv]))
                   <= MoveHistory.maxHistorySize h).
    { rewrite Hcap. unfold roomy in Hroomy.
      etransitivity; [|exact Hroomy].
      destruct Hlogic as (Hsize & Hn & _).
      exact (log_fits _ (nextLogic g r c) _ Hsize Hn Hall' Hnd'). }
    unfold numbered. rewrite Hhist.
    destruct (Z.gtb_spec (Z.of_nat (length (MoveHistory.history h ++ [mv])))
                         (MoveHistory.maxHistorySize h)) as [Hgt | _]; [lia|].
    split.
    + rewrite Hpushed. simpl. lia.
    + intros i m Hi. apply lookup_app_Some in Hi as [Hi | [Hge Hi]].
      * exact (Hidx i m Hi).
      * apply list_lookup_singleton_Some in Hi as [Hi0 <-]. simpl. lia.
Qed.

Lemma logic_ok_won n g r c :
  logic_ok n g -> logic_ok n (wonLogic g r c).
Proof.
  intros (Hsize & Hn & Hsq & Hst & Hp & _ & _).
  split_and!; simpl; try assumption.
  - apply setCell_square. exact Hsq.
  - apply setCell_stones; [exact Hst|]. destruct Hp as [-> | ->]; auto.
  - discriminate.
  - discriminate.
Qed.

Lemma logic_ok_next n g r c :
  logic_ok n g -> logic_ok n (nextLogic g r c).
Proof.
  intros (Hsize & Hn & Hsq & Hst & Hp & Hw1 & Hw2).
  split_and!; simpl; try assumption.
  - apply setCell_square. exact Hsq.
  - apply setCell_stones; [exact Hst|]. destruct Hp as [-> | ->]; auto.
  - apply otherPlayer_ok.
Qed.

Lemma consistent_placeStone now s r c :
  consistent cfg s -> consistent cfg (snd (GameController.placeStone now s r c)).
Proof.
  intros Hc.
  destruct (GameLogic.canPlaceStone (GameController.gameLogic s) r c) eqn:Hcan.
  2: { rewrite ctl_placeStone_rejected by exact Hcan. exact Hc. }
  rewrite ctl_placeStone_accepted by exact Hcan. cbv zeta.
  destruct Hc as (Hlogic & Hfin & Hidle & Hlog).
  pose proof Hcan as Hcan'.
  apply canPlaceStone_iff in Hcan' as (Hover & Hv & Hz).
  destruct (GameLogic.checkWin (stoneSet (GameController.gameLogic s) r c) r c)
    as [wp|]; simpl; unfold consistent; simpl.
  - split; [apply logic_ok_won; exact Hlogic|].
    split; [tauto|]. split; [discriminate|].
    destruct (GameController.moveHistory s) as [h|]; [|exact Hlog].
    destruct Hlog as (Hen & Hcap & (Hall & Hnd & Hlen) & Hnum).
    split; [exact Hen|]. split; [exact Hcap|]. split; [|exact Hnum].
    split; [|split; assumption].
    eapply Forall_impl; [exact Hall|]. intros m Hm.
    exact (entry_ok_stoneSet _ _ _ _ _ Hlogic Hv Hm).
  - split; [apply logic_ok_next; exact Hlogic|].
    split; [exact Hfin|]. split; [exact Hidle|].
    destruct (GameController.moveHistory s) as [h|]; [|exact Hlog]. simpl.
    destruct Hlog as (Hen & Hcap & Hok & Hnum).
    destruct (log_ok_logged _ h r c now Hlogic Hcan Hcap Hok Hnum) as [Hok' Hnum'].
    split_and!; assumption.
Qed.

Lemma setMaxHistorySize_new size :
  fst (MoveHistory.setMaxHistorySize MoveHistory.new size)
  = MoveHistory.mk [] (Z.max 1 size).
Proof.
  unfold MoveHistory.setMaxHistorySize, MoveHistory.new. simpl length.
  destruct (Z.gtb_spec (Z.of_nat 0) (Z.max 1 size)); [lia|reflexivity].
Qed.

Lemma consistent_init :
  0 <= GameController.cfg_boardSize cfg -> consistent cfg (GameController.init cfg).
Proof.
  intros Hn. unfold consistent, GameController.init; simpl.
  split.
  { unfold logic_ok; simpl.
    split_and!; auto using emptyBoard_square, emptyBoard_stones; discriminate. }
  split; [split; discriminate|]. split; [discriminate|].
  destruct (GameController.enableHistory cfg) eqn:Hen; [|reflexivity].
  rewrite setMaxHistorySize_new.
  split_and!; auto.
  - unfold log_ok; split_and!; simpl; [constructor|constructor|lia].
  - intros _. split; [reflexivity|]. intros i m Hi. inversion Hi.
Qed.

Lemma consistent_resetGame s :
  consistent cfg s -> consistent cfg (snd (GameController.resetGame s)).
Proof.
  destruct s as [g oh i st].
  intros ((Hsize & Hn & _) & Hfin & Hidle & Hlog).
  unfold GameController.resetGame, consistent in *. simpl in *.
  assert (Hfresh : logic_ok (GameController.cfg_boardSize cfg)
                     (GameLogic.mk (GameLogic.boardSize g)
                        (GameLogic.emptyBoard (GameLogic.boardSize g)) 1 1 false None)).
  { rewrite Hsize. unfold logic_ok; simpl.
    split_and!; auto using emptyBoard_square, emptyBoard_stones; discriminate. }
  destruct oh as [h|]; simpl.
  - destruct Hlog as (Hen & Hcap & (_ & _ & Hlen) & _).
    split; [exact Hfresh|].
    split; [split; discriminate|]. split; [discriminate|].
    split_and!; auto.
    + unfold log_ok; split_and!; simpl; [constructor|constructor|unfold cap in Hcap; lia].
    + intros _. split; [reflexivity|]. intros k m Hk. inversion Hk.
  - split; [exact Hfresh|].
    split; [split; discriminate|]. split; [discriminate|]. exact Hlog.
Qed.

Lemma phase_eqb_eq a b : GameController.phase_eqb a b = true <-> a = b.
Proof. destruct a, b; simpl; split; congruence. Qed.

Lemma consistent_pauseGame s :
  consistent cfg s -> consistent cfg (snd (GameController.pauseGame s)).
Proof.
  intros Hc. unfold GameController.pauseGame.
  destruct (GameController.phase_eqb (GameController.gameState s) GameController.playing)
    eqn:Hph; [|exact Hc].
  apply phase_eqb_eq in Hph.
  destruct Hc as (Hlogic & Hfin & Hidle & Hlog).
  unfold consistent; simpl. split; [exact Hlogic|]. split.
  - split; [discriminate|]. intros Hov. apply Hfin in Hov. congruence.
  - split; [discriminate|exact Hlog].
Qed.

Lemma consistent_resumeGame s :
  consistent cfg s -> consistent cfg (snd (GameController.resumeGame s)).
Proof.
  intros Hc. unfold GameController.resumeGame.
  destruct (GameController.phase_eqb (GameController.gameState s) GameController.paused)
    eqn:Hph; [|exact Hc].
  apply phase_eqb_eq in Hph.
  destruct Hc as (Hlogic & Hfin & Hidle & Hlog).
  unfold consistent; simpl. split; [exact Hlogic|]. split.
  - split; [discriminate|]. intros Hov. apply Hfin in Hov. congruence.
  - split; [discriminate|exact Hlog].
Qed.

(** ** Undo *)

Lemma canUndo_iff s :
  GameController.canUndo s = true <->
  GameController.gameState s = GameController.playing /\
  exists h, GameController.moveHistory s = Some h /\ MoveHistory.history h <> [].
Proof.
  unfold GameController.canUndo. rewrite andb_true_iff, phase_eqb_eq.
  destruct (GameController.moveHistory s) as [h|].
  - unfold MoveHistory.canUndo. rewrite Z.ltb_lt.
    split; intros [Hp Hh]; (split; [exact Hp|]).
    + exists h. split; [reflexivity|]. destruct (MoveHistory.history h); [simpl in Hh; lia|discriminate].
    + destruct Hh as (h' & [= <-] & Hne).
      destruct (MoveHistory.history h); [contradiction|simpl; lia].
  - split; [intros [_ ?]; discriminate|intros (_ & h & ? & _); discriminate].
Qed.

Lemma performUndo_rejected s :
  GameController.canUndo s = false -> GameController.performUndo s = (false, s).
Proof. intros H. unfold GameController.performUndo. rewrite H. reflexivity. Qed.

Lemma performUndo_accepted s h l m :
  GameController.gameState s = GameController.playing ->
  GameController.moveHistory s = Some h ->
  MoveHistory.history h = l ++ [m] ->
  GameController.performUndo s =
  (true,
   GameController.mk (undoneLogic (GameController.gameLogic s) m)
     (Some (MoveHistory.mk l (MoveHistory.maxHistorySize h)))
     (InteractionManager.clearPreview (GameController.interactionManager s))
     GameController.playing).
Proof.
  intros Hp Hh Hl.
  assert (Hcan : GameController.canUndo s = true).
  { apply canUndo_iff. split; [exact Hp|]. exists h. split; [exact Hh|].
    rewrite Hl. destruct l; discriminate. }
  unfold GameController.performUndo. rewrite Hcan, Hh. simpl.
  unfold MoveHistory.undoLastMove. rewrite Hl, last_snoc, removelast_last.
  reflexivity.
Qed.

Lemma consistent_performUndo s :
  consistent cfg s -> consistent cfg (snd (GameController.performUndo s)).
Proof.
  intros Hc.
  destruct (GameController.canUndo s) eqn:Hcan.
  2: { rewrite performUndo_rejected by exact Hcan. exact Hc. }
  apply canUndo_iff in Hcan as (Hp & h & Hh & Hne).
  destruct (last (MoveHistory.history h)) as [m|] eqn:Hlast;
    [|apply last_None in Hlast; contradiction].
  apply last_Some in Hlast as [l Hl].
  rewrite (performUndo_accepted s h l m Hp Hh Hl).
  destruct Hc as (Hlogic & Hfin & Hidle & Hlog).
  rewrite Hh in Hlog. destruct Hlog as (Hen & Hcap & (Hall & Hnd & Hlen) & Hnum).
  rewrite Hl in Hall, Hnd, Hlen.
  apply Forall_app in Hall as [Hall Hm].
  apply Forall_cons in Hm as [(Hmv & Hmocc & Hmp) _].
  rewrite positions_snoc in Hnd. apply NoDup_app in Hnd as (Hndl & Hdisj & _).
  destruct Hlogic as (Hsize & Hn & Hsq & Hst & Hcp & Hw1 & Hw2).
  unfold consistent; simpl. split.
  { unfold logic_ok, undoneLogic; simpl. split_and!; try assumption.
    - apply setCell_square. exact Hsq.
    - apply setCell_stones; auto.
    - reflexivity.
    - discriminate. }
  split; [split; discriminate|]. split; [discriminate|].
  split; [exact Hen|]. split; [exact Hcap|]. split.
  - unfold log_ok; simpl. split_and!.
    + rewrite Forall_forall in Hall |- *. intros m' Hm'.
      destruct (Hall m' Hm') as (Hv' & Hocc' & Hp').
      split; [exact Hv'|]. split; [|exact Hp'].
      unfold undoneLogic; simpl.
      apply isValidPosition_iff in Hv', Hmv.
      rewrite cellAt_setCell_other; [exact Hocc'|lia|lia|lia|lia|].
      intros Heq. apply (Hdisj (row m', col m')).
      * apply list_elem_of_fmap. exists m'. split; [reflexivity|exact Hm'].
      * rewrite <- Heq. apply list_elem_of_singleton. reflexivity.
    + exact Hndl.
    + rewrite length_app in Hlen. simpl in Hlen. lia.
  - intros Hroomy. destruct (Hnum Hroomy) as (Hstep & Hidx).
    unfold numbered; simpl. split.
    + rewrite (Hidx (length l) m); [lia|].
      rewrite Hl. apply list_lookup_middle. reflexivity.
    + intros k m' Hk. apply (Hidx k m'). rewrite Hl.
      apply lookup_app_l_Some. exact Hk.
Qed.

(** ** Clicks, imports and runs *)

Lemma canPlaceStoneAt_int g r c :
  GameLogic.canPlaceStoneAt g (cInt r) (cInt c) = Some (GameLogic.canPlaceStone g r c).
Proof.
  unfold GameLogic.canPlaceStoneAt, GameLogic.canPlaceStone, GameLogic.inRange.
  destruct (GameLogic.gameOver g); [reflexivity|].
  destruct (0 <=? r); [|reflexivity]. destruct (r <? GameLogic.boardSize g); [|reflexivity].
  destruct (0 <=? c); [|reflexivity]. destruct (c <? GameLogic.boardSize g); reflexivity.
Qed.

(** On coordinates of a text, [placeStone] throws, or rejects them, or
    they are integers and it does what it does on integers. *)
Lemma ctl_placeStoneAt_cases now s r c :
  GameController.placeStoneAt now s r c = None \/
  GameController.placeStoneAt now s r c = Some (GameLogic.placeFalse, s) \/
  exists zr zc, r = cInt zr /\ c = cInt zc /\
                GameController.placeStoneAt now s r c
                = Some (GameController.placeStone now s zr zc).
Proof.
  unfold GameController.placeStoneAt, GameLogic.placeStoneAt.
  destruct (GameLogic.canPlaceStoneAt (GameController.gameLogic s) r c) as [b|];
    [|left; reflexivity].
  right.
  assert (Hrej : Some (GameLogic.placeFalse,
                       GameController.dispatch now
                         (GameController.withLogic s (GameController.gameLogic s)) [])
                 = Some (GameLogic.placeFalse, s)).
  { cbn. unfold GameController.withLogic. rewrite ctl_eta. reflexivity. }
  destruct r as [zr| | | |]; try (left; exact Hrej).
  destruct c as [zc| | | |]; try (left; exact Hrej).
  right. exists zr, zc. split; [reflexivity|]. split; [reflexivity|].
  unfold GameController.placeStone.
  destruct (GameLogic.placeStone (GameController.gameLogic s) zr zc) as [[res g] es].
  reflexivity.
Qed.

Lemma handleSuccessfulMove_state s res :
  snd (GameController.handleSuccessfulMove s res) = s \/
  snd (GameController.handleSuccessfulMove s res)
  = GameController.withInteraction s
      (InteractionManager.clearPreview (GameController.interactionManager s)).
Proof.
  unfold GameController.handleSuccessfulMove, InteractionManager.handleGameWin,
    InteractionManager.playSound.
  destruct res;
    destruct (InteractionManager.audioManager (GameController.interactionManager s));
    cbn; auto.
Qed.

Lemma consistent_handleSuccessfulMove s res :
  consistent cfg s -> consistent cfg (snd (GameController.handleSuccessfulMove s res)).
Proof.
  intros Hc. destruct (handleSuccessfulMove_state s res) as [-> | ->]; exact Hc.
Qed.

Lemma consistent_confirmPlacement now s r c :
  consistent cfg s -> consistent cfg (snd (GameController.confirmPlacement now s r c)).
Proof.
  intros Hc. unfold GameController.confirmPlacement.
  set (s1 := GameController.withInteraction s _).
  assert (Hc1 : consistent cfg s1) by exact Hc.
  pose proof (consistent_placeStone now s1 r c Hc1) as Hc2.
  destruct (GameController.placeStone now s1 r c) as [res s2]. simpl in Hc2.
  destruct (GameLogic.success res); [|exact Hc2].
  apply consistent_handleSuccessfulMove. exact Hc2.
Qed.

Lemma consistent_handleCellClick now s r c :
  consistent cfg s -> consistent cfg (snd (GameController.handleCellClick now s r c)).
Proof.
  intros Hc. unfold GameController.handleCellClick, GameController.handleNormalClick.
  repeat match goal with
         | |- context [if ?b then _ else _] => destruct b
         | |- context [match ?o with Some _ => _ | None => _ end] => destruct o
         | |- context [match ?o with returns => _ | throws => _ end] => destruct o
         | |- context [let '(_, _) := ?p in _] => destruct p
         end;
    try exact Hc; apply consistent_confirmPlacement; exact Hc.
Qed.

Lemma consistent_replay clock ms :
  forall k s, consistent cfg s ->
              consistent cfg (snd (GameController.replay clock k ms s)).
Proof.
  induction ms as [|[|r c] rest IH]; intros k s Hc; cbn [GameController.replay];
    [exact Hc|exact Hc|].
  destruct (ctl_placeStoneAt_cases (clock k) s r c)
    as [-> | [-> | (zr & zc & _ & _ & ->)]]; [exact Hc|apply IH; exact Hc|].
  pose proof (consistent_placeStone (clock k) s zr zc Hc) as Hc1.
  destruct (GameController.placeStone (clock k) s zr zc) as [res s1]. simpl in Hc1.
  destruct (GameLogic.success res); [|apply IH; exact Hc1].
  pose proof (consistent_handleSuccessfulMove s1 res Hc1) as Hc2.
  destruct (GameController.handleSuccessfulMove s1 res) as [[|] s2]; simpl in Hc2;
    [apply IH; exact Hc2|exact Hc2].
Qed.

(** The state an import leaves: the one before it, the reset one, or the
    one its replay leaves. *)
Lemma importGame_state clock s data :
  snd (GameController.importGame clock s data) = s \/
  snd (GameController.importGame clock s data) = snd (GameController.resetGame s) \/
  exists ms, snd (GameController.importGame clock s data)
             = snd (GameController.replay clock 0 ms (snd (GameController.resetGame s))).
Proof.
  unfold GameController.importGame.
  destruct data as [| |mh]; [left; reflexivity|left; reflexivity|].
  right. set (s1 := snd (GameController.resetGame s)).
  destruct mh as [| |ms]; destruct (GameController.moveHistory s1);
    try (left; reflexivity).
  right. exists ms.
  destruct (GameController.replay clock 0 ms s1) as [[|] s2]; reflexivity.
Qed.

Lemma consistent_importGame clock s data :
  consistent cfg s -> consistent cfg (snd (GameController.importGame clock s data)).
Proof.
  intros Hc. pose proof (consistent_resetGame s Hc) as Hc1.
  destruct (importGame_state clock s data) as [-> | [-> | [ms ->]]];
    [exact Hc|exact Hc1|apply consistent_replay; exact Hc1].
Qed.

Lemma consistent_run s o :
  consistent cfg s -> consistent cfg (GameController.run s o).
Proof.
  intros Hc. destruct o; simpl.
  - apply consistent_placeStone; exact Hc.
  - apply consistent_handleCellClick; exact Hc.
  - apply consistent_performUndo; exact Hc.
  - apply consistent_performUndo; exact Hc.
  - apply consistent_resetGame; exact Hc.
  - apply consistent_pauseGame; exact Hc.
  - apply consistent_resumeGame; exact Hc.
  - exact Hc.
  - apply consistent_importGame; exact Hc.
Qed.

Lemma reachable_consistent s :
  GameController.reachable cfg s -> consistent cfg s.
Proof.
  induction 1 as [Hn | s o _ IH].
  - apply consistent_init. exact Hn.
  - apply consistent_run. exact IH.
Qed.

Lemma keeps_gate_refl s : keeps_gate s s.
Proof. split; auto. Qed.

Lemma keeps_gate_trans s1 s2 s3 :
  keeps_gate s1 s2 -> keeps_gate s2 s3 -> keeps_gate s1 s3.
Proof. intros [H1 H2] [H3 H4]. split; [congruence|auto]. Qed.

Lemma keeps_gate_gated s s' : keeps_gate s s' -> gated s -> gated s'.
Proof. intros [H1 H2] Hg Hp. rewrite H1. apply Hg, H2, Hp. Qed.

Lemma handleGameWin_state i :
  snd (InteractionManager.handleGameWin i) = i \/
  snd (InteractionManager.handleGameWin i) = InteractionManager.clearPreview i.
Proof.
  unfold InteractionManager.handleGameWin, InteractionManager.playSound.
  destruct (InteractionManager.audioManager i); cbn; auto.
Qed.

Lemma keeps_gate_placeStone now s r c :
  keeps_gate s (snd (GameController.placeStone now s r c)).
Proof.
  destruct (GameLogic.canPlaceStone (GameController.gameLogic s) r c) eqn:Hcan.
  2: { rewrite ctl_placeStone_rejected by exact Hcan. apply keeps_gate_refl. }
  rewrite ctl_placeStone_accepted by exact Hcan. cbv zeta.
  destruct (GameLogic.checkWin _ r c); split; simpl; auto; try discriminate.
  destruct (handleGameWin_state (GameController.interactionManager s)) as [-> | ->];
    reflexivity.
Qed.

Lemma keeps_gate_interaction s i :
  InteractionManager.isEnabled i
  = InteractionManager.isEnabled (GameController.interactionManager s) ->
  keeps_gate s (GameController.withInteraction s i).
Proof. intros H. split; simpl; auto. Qed.

Lemma keeps_gate_handleSuccessfulMove s res :
  keeps_gate s (snd (GameController.handleSuccessfulMove s res)).
Proof.
  destruct (handleSuccessfulMove_state s res) as [-> | ->];
    [apply keeps_gate_refl|apply keeps_gate_interaction; reflexivity].
Qed.

Lemma keeps_gate_confirmPlacement now s r c :
  keeps_gate s (snd (GameController.confirmPlacement now s r c)).
Proof.
  unfold GameController.confirmPlacement.
  set (s1 := GameController.withInteraction s _).
  assert (H1 : keeps_gate s s1) by (split; simpl; auto).
  pose proof (keeps_gate_placeStone now s1 r c) as H2.
  destruct (GameController.placeStone now s1 r c) as [res s2]. simpl in H2.
  destruct (GameLogic.success res).
  - eapply keeps_gate_trans; [exact H1|].
    eapply keeps_gate_trans; [exact H2|apply keeps_gate_handleSuccessfulMove].
  - exact (keeps_gate_trans _ _ _ H1 H2).
Qed.

Lemma keeps_gate_handleCellClick now s r c :
  keeps_gate s (snd (GameController.handleCellClick now s r c)).
Proof.
  unfold GameController.handleCellClick, GameController.handleNormalClick.
  repeat match goal with
         | |- context [if ?b then _ else _] => destruct b
         | |- context [match ?o with Some _ => _ | None => _ end] => destruct o
         | |- context [match ?o with returns => _ | throws => _ end] => destruct o
         | |- context [let '(_, _) := ?p in _] => destruct p
         end;
    try apply keeps_gate_refl; try apply keeps_gate_confirmPlacement;
    split; simpl; auto.
Qed.

Lemma keeps_gate_replay clock ms :
  forall k s, keeps_gate s (snd (GameController.replay clock k ms s)).
Proof.
  induction ms as [|[|r c] rest IH]; intros k s; cbn [GameController.replay];
    [apply keeps_gate_refl|apply keeps_gate_refl|].
  destruct (ctl_placeStoneAt_cases (clock k) s r c)
    as [-> | [-> | (zr & zc & _ & _ & ->)]]; [apply keeps_gate_refl|apply IH|].
  pose proof (keeps_gate_placeStone (clock k) s zr zc) as H1.
  destruct (GameController.placeStone (clock k) s zr zc) as [res s1]. simpl in H1.
  destruct (GameLogic.success res);
    [|eapply keeps_gate_trans; [exact H1|apply IH]].
  pose proof (keeps_gate_handleSuccessfulMove s1 res) as H2.
  destruct (GameController.handleSuccessfulMove s1 res) as [[|] s2]; simpl in H2.
  - eapply keeps_gate_trans; [exact H1|].
    eapply keeps_gate_trans; [exact H2|apply IH].
  - exact (keeps_gate_trans _ _ _ H1 H2).
Qed.

Lemma keeps_gate_resetGame s : keeps_gate s (snd (GameController.resetGame s)).
Proof.
  destruct s as [g [h|] i st]; split; simpl; auto; discriminate.
Qed.

Lemma keeps_gate_performUndo s : keeps_gate s (snd (GameController.performUndo s)).
Proof.
  unfold GameController.performUndo.
  destruct (GameController.canUndo s); simpl; [|apply keeps_gate_refl].
  destruct (GameController.moveHistory s) as [h|]; [|apply keeps_gate_refl].
  unfold MoveHistory.undoLastMove.
  destruct (last (MoveHistory.history h)); split; simpl; auto; discriminate.
Qed.

Lemma keeps_gate_importGame clock s data :
  keeps_gate s (snd (GameController.importGame clock s data)).
Proof.
  pose proof (keeps_gate_resetGame s) as H1.
  destruct (importGame_state clock s data) as [-> | [-> | [ms ->]]];
    [apply keeps_gate_refl|exact H1|].
  eapply keeps_gate_trans; [exact H1|apply keeps_gate_replay].
Qed.

Lemma gated_run s o : gated s -> gated (GameController.run s o).
Proof.
  intros Hg. destruct o; simpl.
  - exact (keeps_gate_gated _ _ (keeps_gate_placeStone _ _ _ _) Hg).
  - exact (keeps_gate_gated _ _ (keeps_gate_handleCellClick _ _ _ _) Hg).
  - exact (keeps_gate_gated _ _ (keeps_gate_performUndo _) Hg).
  - apply (keeps_gate_gated s); [|exact Hg].
    eapply keeps_gate_trans; [|apply keeps_gate_performUndo].
    split; simpl; auto.
    destruct (GameController.interactionManager s) as [au mark pre en].
    destruct en; reflexivity.
  - exact (keeps_gate_gated _ _ (keeps_gate_resetGame _) Hg).
  - unfold GameController.pauseGame.
    destruct (GameController.phase_eqb _ _); [|exact Hg]. intros _. reflexivity.
  - unfold GameController.resumeGame.
    destruct (GameController.phase_eqb _ _); [|exact Hg]. intros Hp. discriminate.
  - apply (keeps_gate_gated s); [|exact Hg]. split; simpl; auto.
    destruct (GameController.interactionManager s) as [au mark pre en].
    destruct en, mark; reflexivity.
  - exact (keeps_gate_gated _ _ (keeps_gate_importGame _ _ _) Hg).
Qed.

Lemma reachable_gated s : GameController.reachable cfg s -> gated s.
Proof.
  induction 1 as [Hn | s o _ IH].
  - intros Hp. discriminate.
  - apply gated_run. exact IH.
Qed.

End Invariants.

(** ** Concrete games *)

Lemma reachable_runAll cfg os :
  forall s, GameController.reachable cfg s ->
            GameController.reachable cfg (GameController.runAll s os).
Proof.
  induction os as [|o os IH]; intros s Hs; simpl; [exact Hs|].
  apply IH. apply GameController.reach_step. exact Hs.
Qed.

Lemma reachable_playFrom cfg now cells :
  0 <= GameController.cfg_boardSize cfg ->
  GameController.reachable cfg (playFrom cfg now cells).
Proof.
  intros Hn. apply reachable_runAll. apply GameController.reach_init. exact Hn.
Qed.

(** A game given by its placements is reachable once the size is checked. *)
Ltac played := apply reachable_playFrom; vm_compute; discriminate.

(** ** C1: when a placement wins *)

(** C1, refuted as stated: a legal placement in a reachable Playing state
    that completes a run of six through the placed cell is not reported as
    a win, so "five or more" does not hold. *)
Lemma overline_is_not_a_win :
  ~ (forall cfg s r c now d len,
        GameController.reachable cfg s ->
        GameController.gameState s = GameController.playing ->
        GameLogic.canPlaceStone (GameController.gameLogic s) r c = true ->
        d ∈ GameLogic.directions -> 5 <= len ->
        runThrough (GameController.gameLogic (snd (GameController.placeStone now s r c)))
                   (GameLogic.currentPlayer (GameController.gameLogic s)) r c d.1 d.2 len ->
        GameLogic.win (fst (GameController.placeStone now s r c)) = true).
Proof.
  intros Hclaim.
  specialize (Hclaim GameController.defaultConfig beforeOverline 0 3 0 (0, 1) 6).
  assert (Hwin : GameLogic.win (fst (GameController.placeStone 0 beforeOverline 0 3)) = true).
  { apply Hclaim.
    - played.
    - vm_compute. reflexivity.
    - vm_compute. reflexivity.
    - left.
    - lia.
    - exists 2, 3. split; [|split; [|reflexivity]].
      + split; [lia|]. split.
        * intros i Hi. assert (i = 1 \/ i = 2) as [-> | ->] by lia;
            split; vm_compute; reflexivity.
        * intros [_ Hc]. vm_compute in Hc. discriminate Hc.
      + split; [lia|]. split.
        * intros i Hi. assert (i = 1 \/ i = 2 \/ i = 3) as [-> | [-> | ->]] by lia;
            split; vm_compute; reflexivity.
        * intros [Hv _]. vm_compute in Hv. discriminate Hv. }
  vm_compute in Hwin. discriminate Hwin.
Qed.

(** C1, as the code has it: for every reachable state and every legal
    placement, [placeStone] reports a win exactly when, along one of the
    four axes, the contiguous run of the mover's stones through the placed
    cell has exactly five stones; the line reported then has five cells.
    Runs of four, and runs of six or more, do not make a win. *)
Theorem placeStone_wins_iff_exactly_five cfg s r c now :
  GameController.reachable cfg s ->
  GameLogic.canPlaceStone (GameController.gameLogic s) r c = true ->
  let res := fst (GameController.placeStone now s r c) in
  let g' := GameController.gameLogic (snd (GameController.placeStone now s r c)) in
  let p := GameLogic.currentPlayer (GameController.gameLogic s) in
  (GameLogic.win res = true <->
   exists d, d ∈ GameLogic.directions /\ runThrough g' p r c d.1 d.2 5) /\
  (forall wp md, res = GameLogic.placeWin wp md -> length wp = 5%nat) /\
  ((forall d, d ∈ GameLogic.directions ->
               exists len, runThrough g' p r c d.1 d.2 len /\ len <> 5) ->
   GameLogic.win res = false).
Proof.
  intros Hreach Hcan.
  apply reachable_consistent in Hreach as (Hlogic & _).
  destruct Hlogic as (Hsize & Hn & Hsq & Hst & Hp & _).
  pose proof Hcan as Hcan'.
  apply canPlaceStone_iff in Hcan' as (Hover & Hv & Hz).
  pose proof Hv as Hrange. apply isValidPosition_iff in Hrange. rewrite Hsize in Hrange.
  assert (Hcell : cellAt (GameLogic.boardData (stoneSet (GameController.gameLogic s) r c)) r c
                  = GameLogic.currentPlayer (GameController.gameLogic s)).
  { simpl. apply (cellAt_setCell_same (GameController.cfg_boardSize cfg)); tauto. }
  assert (Hocc : cellAt (GameLogic.boardData (stoneSet (GameController.gameLogic s) r c)) r c <> 0).
  { rewrite Hcell. lia. }
  pose proof (checkWin_spec (stoneSet (GameController.gameLogic s) r c) r c Hv Hocc) as Hspec.
  rewrite Hcell in Hspec.
  rewrite ctl_placeStone_accepted by exact Hcan. cbv zeta.
  destruct (GameLogic.checkWin (stoneSet (GameController.gameLogic s) r c) r c) as [wp|];
    simpl.
  - destruct Hspec as (Hlen & d & Hd & Hrun). split_and!.
    + split; [intros _; exists d; split; [exact Hd|exact Hrun]|reflexivity].
    + intros wp' md [= <- _]. exact Hlen.
    + intros Hall. exfalso.
      destruct (Hall d Hd) as (len & (a & b & Ha & Hb & ->) & Hne).
      destruct Hrun as (a' & b' & Ha' & Hb' & Hsum).
      rewrite (extent_unique _ _ _ _ _ _ _ _ Ha Ha') in Hne.
      rewrite (extent_unique _ _ _ _ _ _ _ _ Hb Hb') in Hne. lia.
  - split_and!.
    + split; [discriminate|]. intros (d & Hd & Hrun). exfalso. exact (Hspec d Hd Hrun).
    + intros wp md [=].
    + reflexivity.
Qed.

Lemma placeStone_wins_iff_exactly_five_witness :
  GameController.reachable smallConfig beforeFive /\
  GameLogic.canPlaceStone (GameController.gameLogic beforeFive) 0 4 = true /\
  let res := fst (GameController.placeStone 0 beforeFive 0 4) in
  let g' := GameController.gameLogic (snd (GameController.placeStone 0 beforeFive 0 4)) in
  let p := GameLogic.currentPlayer (GameController.gameLogic beforeFive) in
  (GameLogic.win res = true <->
   exists d, d ∈ GameLogic.directions /\ runThrough g' p 0 4 d.1 d.2 5) /\
  (forall wp md, res = GameLogic.placeWin wp md -> length wp = 5%nat) /\
  ((forall d, d ∈ GameLogic.directions ->
               exists len, runThrough g' p 0 4 d.1 d.2 len /\ len <> 5) ->
   GameLogic.win res = false).
Proof.
  assert (Hreach : GameController.reachable smallConfig beforeFive).
  { played. }
  assert (Hcan : GameLogic.canPlaceStone (GameController.gameLogic beforeFive) 0 4 = true).
  { vm_compute. reflexivity. }
  split; [exact Hreach|]. split; [exact Hcan|].
  exact (placeStone_wins_iff_exactly_five smallConfig beforeFive 0 4 0 Hreach Hcan).
Defined.

(** ** C7: the 5x5 example *)

(** C7, refuted as stated.  Played in alternation as the rules engine
    requires, black's four stones and white's three leave white to move,
    so the stone placed at (0,4) is white's and does not win; the same
    holds when the cells are placed in the order listed.  With a fourth
    white stone, black's stone at (0,4) wins, but the line is reported from
    the placed cell outwards, not from (0,0) to (0,4). *)
Lemma example_win_is_not_as_listed :
  fst (GameController.placeStone 0
         (playFrom smallConfig 0 [(0, 0); (1, 0); (0, 1); (1, 1); (0, 2); (1, 2); (0, 3)])
         0 4)
  = GameLogic.placeContinue (mkMoveData 0 4 2 8) /\
  fst (GameController.placeStone 0
         (playFrom smallConfig 0 [(0, 0); (0, 1); (0, 2); (0, 3); (1, 0); (1, 1); (1, 2)])
         0 4)
  = GameLogic.placeContinue (mkMoveData 0 4 2 8) /\
  (forall md, fst (GameController.placeStone 0 beforeFive 0 4)
              <> GameLogic.placeWin [(0, 0); (0, 1); (0, 2); (0, 3); (0, 4)] md).
Proof.
  split; [vm_compute; reflexivity|]. split; [vm_compute; reflexivity|].
  intros md. vm_compute. intros H. discriminate H.
Qed.

(** C7, as the code has it: on a 5x5 board from a fresh game, with black on
    (0,0), (0,1), (0,2), (0,3) and white on (1,0), (1,1), (1,2), (2,0),
    played in alternation, black's placement at (0,4) is move 9 and returns
    a win for black whose winning line is
    [[0,4],[0,3],[0,2],[0,1],[0,0]]: the placed cell first, then the
    cells found walking away from it. *)
Theorem example_win_on_small_board now :
  fst (GameController.placeStone now beforeFive 0 4) =
  GameLogic.placeWin [(0, 4); (0, 3); (0, 2); (0, 1); (0, 0)] (mkMoveData 0 4 1 9) /\
  GameController.getWinner (snd (GameController.placeStone now beforeFive 0 4)) = Some 1 /\
  GameController.isGameOver (snd (GameController.placeStone now beforeFive 0 4)) = true /\
  GameController.gameState (snd (GameController.placeStone now beforeFive 0 4))
  = GameController.finished.
Proof.
  split_and!; vm_compute; reflexivity.
Qed.

(** ** C2: undo right after a placement *)

(** C2, refuted as stated: after a successful placement that wins, the
    phase is Finished and the following undo is refused; the stone stays
    on the board and the game stays over.  After a placement made while
    Paused the undo is refused as well.  And when History is at its cap,
    the placement evicts the oldest move, which the undo does not bring
    back. *)
Lemma undo_after_winning_move_restores_nothing :
  (GameController.reachable smallConfig beforeFive /\
   let placed := GameController.placeStone 0 beforeFive 0 4 in
   let undone := GameController.performUndo (snd placed) in
   GameLogic.success (fst placed) = true /\
   fst undone = false /\
   cellAt (GameLogic.boardData (GameController.gameLogic beforeFive)) 0 4 = 0 /\
   cellAt (GameLogic.boardData (GameController.gameLogic (snd undone))) 0 4 = 1 /\
   GameLogic.gameOver (GameController.gameLogic beforeFive) = false /\
   GameLogic.gameOver (GameController.gameLogic (snd undone)) = true) /\
  (let placed := GameController.placeStone 0 pausedGame 7 7 in
   let undone := GameController.performUndo (snd placed) in
   GameLogic.success (fst placed) = true /\
   fst undone = false /\
   cellAt (GameLogic.boardData (GameController.gameLogic (snd undone))) 7 7 = 1) /\
  (let before := playFrom tinyLogConfig 0 [(0, 0)] in
   let placed := GameController.placeStone 5 before 1 1 in
   let undone := GameController.performUndo (snd placed) in
   GameController.reachable tinyLogConfig before /\
   GameController.gameState before = GameController.playing /\
   fst placed = GameLogic.placeContinue (mkMoveData 1 1 2 2) /\
   fst undone = true /\
   MoveHistory.history (logOf before) = [mkMove 0 0 1 1 0] /\
   MoveHistory.history (logOf (snd undone)) = []).
Proof.
  cbv zeta. split_and!; first [played | vm_compute; reflexivity].
Qed.

(** C2, as the code has it: in every reachable Playing state whose History
    is below its cap, after any successful placement that does not win, an
    immediately following undo succeeds and restores the board, the
    current player, the step number, the game-over flag and winner, the
    History and the phase to exactly what they were before the placement. *)
Theorem undo_inverts_placement cfg s h r c now md s1 :
  GameController.reachable cfg s ->
  GameController.gameState s = GameController.playing ->
  GameController.moveHistory s = Some h ->
  Z.of_nat (length (MoveHistory.history h)) < MoveHistory.maxHistorySize h ->
  GameController.placeStone now s r c = (GameLogic.placeContinue md, s1) ->
  exists s2,
    GameController.performUndo s1 = (true, s2) /\
    GameController.gameLogic s2 = GameController.gameLogic s /\
    GameController.moveHistory s2 = GameController.moveHistory s /\
    GameController.gameState s2 = GameController.gameState s.
Proof.
  intros Hreach Hplay Hh Hroom Hplace.
  apply reachable_consistent in Hreach as (Hlogic & _).
  destruct Hlogic as (Hsize & Hn & Hsq & Hst & Hp & Hw1 & _).
  destruct (GameLogic.canPlaceStone (GameController.gameLogic s) r c) eqn:Hcan.
  2: { rewrite ctl_placeStone_rejected in Hplace by exact Hcan. discriminate Hplace. }
  rewrite ctl_placeStone_accepted in Hplace by exact Hcan. cbv zeta in Hplace.
  destruct (GameLogic.checkWin (stoneSet (GameController.gameLogic s) r c) r c);
    [discriminate Hplace|].
  injection Hplace as <- <-.
  apply canPlaceStone_iff in Hcan as (Hover & Hv & Hz).
  apply isValidPosition_iff in Hv. rewrite Hsize in Hv.
  set (mv := mkMove r c (GameLogic.currentPlayer (GameController.gameLogic s))
                    (GameLogic.stepNumber (GameController.gameLogic s)) now).
  eexists. split.
  - apply (performUndo_accepted _
             (snd (fst (MoveHistory.addMove h (moveDataOf (GameController.gameLogic s) r c) now)))
             (MoveHistory.history h) mv).
    + exact Hplay.
    + simpl. rewrite Hh. reflexivity.
    + rewrite addMove_history. cbv zeta. simpl md_row.
      rewrite length_app. simpl length.
      destruct (Z.gtb_spec (Z.of_nat (length (MoveHistory.history h) + 1))
                           (MoveHistory.maxHistorySize h)); [lia|reflexivity].
  - simpl. split_and!.
    + unfold undoneLogic, nextLogic; simpl.
      rewrite (setCell_restore (GameController.cfg_boardSize cfg)) by tauto.
      rewrite Hsize in *. destruct (GameController.gameLogic s) as [n b cp sn ov w].
      simpl in *. subst. rewrite (Hw1 eq_refl). reflexivity.
    + rewrite Hh. destruct h; reflexivity.
    + symmetry. exact Hplay.
Qed.

Lemma undo_inverts_placement_witness :
  exists s2,
    GameController.performUndo (snd (GameController.placeStone 0 beforeFive 3 3))
    = (true, s2) /\
    GameController.gameLogic s2 = GameController.gameLogic beforeFive /\
    GameController.moveHistory s2 = GameController.moveHistory beforeFive /\
    GameController.gameState s2 = GameController.gameState beforeFive.
Proof.
  apply (undo_inverts_placement smallConfig beforeFive (logOf beforeFive) 3 3 0
           (mkMoveData 3 3 1 9) (snd (GameController.placeStone 0 beforeFive 3 3))).
  - played.
  - vm_compute. reflexivity.
  - vm_compute. reflexivity.
  - vm_compute. reflexivity.
  - vm_compute. reflexivity.
Defined.

(** ** C3: the log and the step counter *)

(** C3, refuted as stated: a winning placement succeeds and the log is
    left as it was; and with a cap smaller than the game, the step counter
    runs ahead of the log. *)
Lemma winning_move_is_not_logged :
  (let placed := GameController.placeStone 0 beforeFive 0 4 in
   GameLogic.success (fst placed) = true /\
   GameLogic.win (fst placed) = true /\
   GameController.moveHistory (snd placed) = GameController.moveHistory beforeFive) /\
  (let s := playFrom tinyLogConfig 0 [(0, 0); (1, 1)] in
   GameController.reachable tinyLogConfig s /\
   GameLogic.stepNumber (GameController.gameLogic s) = 3 /\
   length (MoveHistory.history (logOf s)) = 1%nat).
Proof.
  split.
  - split_and!; vm_compute; reflexivity.
  - split; [played|].
    split; vm_compute; reflexivity.
Qed.

(** C3, as the code has it: when the cap of the log is at least the number
    of cells of the board (so that nothing is ever evicted; the default
    15x15 board with cap 1000 is such), in every reachable state the next
    step number equals the number of moves in History plus 1, and every
    successful placement that does not win appends exactly one Move, that
    of the placed stone, to History. *)
Theorem history_tracks_moves cfg s h :
  GameController.reachable cfg s -> roomy cfg ->
  GameController.moveHistory s = Some h ->
  GameLogic.stepNumber (GameController.gameLogic s)
  = Z.of_nat (length (MoveHistory.history h)) + 1 /\
  forall now r c md s1,
    GameController.placeStone now s r c = (GameLogic.placeContinue md, s1) ->
    exists h1,
      GameController.moveHistory s1 = Some h1 /\
      MoveHistory.history h1 =
      MoveHistory.history h ++
      [mkMove r c (GameLogic.currentPlayer (GameController.gameLogic s))
              (GameLogic.stepNumber (GameController.gameLogic s)) now].
Proof.
  intros Hreach Hroomy Hh.
  apply reachable_consistent in Hreach as (Hlogic & _ & _ & Hlog).
  rewrite Hh in Hlog. destruct Hlog as (_ & Hcap & Hok & Hnum).
  pose proof (Hnum Hroomy) as (Hstep & _).
  split; [exact Hstep|].
  intros now r c md s1 Hplace.
  destruct (GameLogic.canPlaceStone (GameController.gameLogic s) r c) eqn:Hcan.
  2: { rewrite ctl_placeStone_rejected in Hplace by exact Hcan. discriminate Hplace. }
  rewrite ctl_placeStone_accepted in Hplace by exact Hcan. cbv zeta in Hplace.
  destruct (GameLogic.checkWin (stoneSet (GameController.gameLogic s) r c) r c);
    [discriminate Hplace|].
  injection Hplace as <- <-.
  exists (snd (fst (MoveHistory.addMove h (moveDataOf (GameController.gameLogic s) r c) now))).
  split; [simpl; rewrite Hh; reflexivity|].
  destruct (log_ok_logged cfg _ h r c now Hlogic Hcan Hcap Hok Hnum) as [_ Hnum'].
  destruct (Hnum' Hroomy) as (Hstep' & _).
  rewrite addMove_history in Hstep' |- *. cbv zeta in Hstep' |- *.
  unfold moveDataOf in Hstep' |- *. cbn [md_row md_col md_player md_step] in Hstep' |- *.
  destruct (Z.gtb_spec (Z.of_nat (length (MoveHistory.history h ++
              [mkMove r c (GameLogic.currentPlayer (GameController.gameLogic s))
                      (GameLogic.stepNumber (GameController.gameLogic s)) now])))
              (MoveHistory.maxHistorySize h)) as [Hgt | Hle];
    [|reflexivity].
  rewrite length_tl, length_app in Hstep'. simpl in Hstep'. lia.
Qed.

Lemma history_tracks_moves_witness :
  GameLogic.stepNumber (GameController.gameLogic beforeOverline)
  = Z.of_nat (length (MoveHistory.history (logOf beforeOverline))) + 1 /\
  forall now r c md s1,
    GameController.placeStone now beforeOverline r c = (GameLogic.placeContinue md, s1) ->
    exists h1,
      GameController.moveHistory s1 = Some h1 /\
      MoveHistory.history h1 =
      MoveHistory.history (logOf beforeOverline) ++
      [mkMove r c (GameLogic.currentPlayer (GameController.gameLogic beforeOverline))
              (GameLogic.stepNumber (GameController.gameLogic beforeOverline)) now].
Proof.
  apply (history_tracks_moves GameController.defaultConfig beforeOverline
           (logOf beforeOverline)).
  - played.
  - vm_compute. discriminate.
  - vm_compute. reflexivity.
Defined.

(** ** C4: when undo is refused, and what it does otherwise *)

(** C4, refuted as stated: in the Finished phase History holds eight moves
    and undo is refused; the phase stays Finished. *)
Lemma undo_refused_when_finished :
  GameController.reachable smallConfig afterFive /\
  GameController.gameState afterFive = GameController.finished /\
  length (MoveHistory.history (logOf afterFive)) = 8%nat /\
  GameController.performUndo afterFive = (false, afterFive) /\
  GameController.gameState (snd (GameController.performUndo afterFive))
  = GameController.finished.
Proof.
  split; [played|].
  split_and!; vm_compute; reflexivity.
Qed.

(** C4, as the code has it: undo is refused exactly when the phase is not
    Playing or History is absent or empty, and a refused undo changes
    nothing (so the Finished phase is never left by undo).  In the Playing
    phase with a non-empty History it pops the last Move, empties its cell,
    makes its player the current player and its step the step number,
    clears game-over and winner, and stays in Playing. *)
Theorem performUndo_spec s :
  (fst (GameController.performUndo s) = false <->
   GameController.gameState s <> GameController.playing \/
   GameController.moveHistory s = None \/
   exists h, GameController.moveHistory s = Some h /\ MoveHistory.history h = []) /\
  (fst (GameController.performUndo s) = false -> snd (GameController.performUndo s) = s) /\
  (forall h l m,
      GameController.gameState s = GameController.playing ->
      GameController.moveHistory s = Some h ->
      MoveHistory.history h = l ++ [m] ->
      GameController.performUndo s =
      (true,
       GameController.mk
         (GameLogic.mk (GameLogic.boardSize (GameController.gameLogic s))
            (setCell (GameLogic.boardData (GameController.gameLogic s)) (row m) (col m) 0)
            (player m) (step m) false None)
         (Some (MoveHistory.mk l (MoveHistory.maxHistorySize h)))
         (InteractionManager.clearPreview (GameController.interactionManager s))
         GameController.playing)).
Proof.
  assert (Hcases :
            GameController.canUndo s = false \/
            exists h l m, GameController.gameState s = GameController.playing /\
                          GameController.moveHistory s = Some h /\
                          MoveHistory.history h = l ++ [m]).
  { destruct (GameController.canUndo s) eqn:Hcan; [right|left; reflexivity].
    apply canUndo_iff in Hcan as (Hp & h & Hh & Hne).
    destruct (last (MoveHistory.history h)) as [m|] eqn:Hlast;
      [|apply last_None in Hlast; contradiction].
    apply last_Some in Hlast as [l Hl]. eauto 10. }
  split_and!.
  - destruct Hcases as [Hno | (h & l & m & Hp & Hh & Hl)].
    + rewrite performUndo_rejected by exact Hno. simpl. split; [intros _|reflexivity].
      destruct (GameController.moveHistory s) as [h|] eqn:Hh; [|auto].
      destruct (GameController.phase_eqb (GameController.gameState s)
                                         GameController.playing) eqn:Hp.
      2: { left. intros Heq. apply phase_eqb_eq in Heq. congruence. }
      apply phase_eqb_eq in Hp.
      right; right. exists h. split; [reflexivity|].
      destruct (MoveHistory.history h) as [|m l] eqn:Hl; [reflexivity|].
      assert (Hyes : GameController.canUndo s = true).
      { apply canUndo_iff. split; [exact Hp|]. exists h. rewrite Hl. auto. }
      congruence.
    + rewrite (performUndo_accepted s h l m Hp Hh Hl). simpl.
      split; [discriminate|].
      intros [Hnp | [Hnone | (h' & Hh' & Hl')]]; [contradiction|congruence|].
      rewrite Hh in Hh'. injection Hh' as <-. rewrite Hl in Hl'.
      destruct l; discriminate.
  - destruct Hcases as [Hno | (h & l & m & Hp & Hh & Hl)].
    + rewrite performUndo_rejected by exact Hno. reflexivity.
    + rewrite (performUndo_accepted s h l m Hp Hh Hl). simpl. discriminate.
  - intros h l m Hp Hh Hl. exact (performUndo_accepted s h l m Hp Hh Hl).
Qed.

Lemma performUndo_spec_witness :
  fst (GameController.performUndo afterFive) = false /\
  snd (GameController.performUndo afterFive) = afterFive.
Proof.
  assert (Hno : fst (GameController.performUndo afterFive) = false).
  { apply (proj2 (proj1 (performUndo_spec afterFive))). left. vm_compute. discriminate. }
  split; [exact Hno|].
  exact (proj1 (proj2 (performUndo_spec afterFive)) Hno).
Defined.

(** ** C5: import *)

Lemma ctl_placeStoneAt_int now s r c :
  GameController.placeStoneAt now s (cInt r) (cInt c)
  = Some (GameController.placeStone now s r c).
Proof.
  unfold GameController.placeStoneAt, GameLogic.placeStoneAt, GameController.placeStone.
  rewrite canPlaceStoneAt_int.
  destruct (GameLogic.placeStone (GameController.gameLogic s) r c) as [[res g] es].
  reflexivity.
Qed.


Lemma ctl_placeStone_audio now s r c :
  InteractionManager.audioManager
    (GameController.interactionManager (snd (GameController.placeStone now s r c)))
  = InteractionManager.audioManager (GameController.interactionManager s).
Proof.
  destruct (GameLogic.canPlaceStone (GameController.gameLogic s) r c) eqn:Hcan.
  - rewrite (ctl_placeStone_accepted now s r c Hcan). cbv zeta.
    destruct (GameLogic.checkWin _ r c); [|reflexivity]. cbn [snd GameController.interactionManager].
    destruct (handleGameWin_state (GameController.interactionManager s)) as [-> | ->];
      reflexivity.
  - rewrite (ctl_placeStone_rejected now s r c Hcan). reflexivity.
Qed.

Lemma ctl_placeStone_success now s r c :
  GameLogic.success (fst (GameController.placeStone now s r c))
  = GameLogic.canPlaceStone (GameController.gameLogic s) r c.
Proof.
  destruct (GameLogic.canPlaceStone (GameController.gameLogic s) r c) eqn:Hcan.
  - rewrite (ctl_placeStone_accepted now s r c Hcan). cbv zeta.
    destruct (GameLogic.checkWin _ r c); reflexivity.
  - rewrite (ctl_placeStone_rejected now s r c Hcan). reflexivity.
Qed.

(** With an audio manager, [handleSuccessfulMove] returns after an accepted
    placement and leaves the state [placeStone] left: on a win the
    listener of [gameWin] has cleared the preview already. *)
Lemma handleSuccessfulMove_after_placeStone now s r c :
  hasAudio s ->
  GameLogic.canPlaceStone (GameController.gameLogic s) r c = true ->
  GameController.handleSuccessfulMove (snd (GameController.placeStone now s r c))
                                      (fst (GameController.placeStone now s r c))
  = (returns, snd (GameController.placeStone now s r c)).
Proof.
  unfold hasAudio. intros Haudio Hcan.
  rewrite (ctl_placeStone_accepted now s r c Hcan). cbv zeta.
  unfold GameController.handleSuccessfulMove, InteractionManager.handleGameWin,
    InteractionManager.playSound.
  destruct (GameLogic.checkWin _ r c); cbn; rewrite Haudio; cbn; [|reflexivity].
  rewrite Haudio. reflexivity.
Qed.



Lemma ctl_placeStone_engine now s r c :
  GameController.gameLogic (snd (GameController.placeStone now s r c))
  = enginePlace (GameController.gameLogic s) (r, c).
Proof.
  unfold enginePlace. cbn [fst snd].
  destruct (GameLogic.canPlaceStone (GameController.gameLogic s) r c) eqn:Hcan.
  - rewrite (ctl_placeStone_accepted now s r c Hcan), (placeStone_accepted _ _ _ Hcan).
    cbv zeta.
    destruct (GameLogic.checkWin (stoneSet (GameController.gameLogic s) r c) r c);
      reflexivity.
  - rewrite (ctl_placeStone_rejected now s r c Hcan), (placeStone_rejected _ _ _ Hcan).
    reflexivity.
Qed.




Lemma resetGame_parts s :
  GameController.gameLogic (snd (GameController.resetGame s))
  = freshEngine (GameLogic.boardSize (GameController.gameLogic s)) /\
  GameController.moveHistory (snd (GameController.resetGame s))
  = match GameController.moveHistory s with
    | Some h => Some (MoveHistory.mk [] (MoveHistory.maxHistorySize h))
    | None => None
    end /\
  GameController.gameState (snd (GameController.resetGame s)) = GameController.playing /\
  GameController.interactionManager (snd (GameController.resetGame s))
  = InteractionManager.mk
      (InteractionManager.audioManager (GameController.interactionManager s))
      false None
      (InteractionManager.isEnabled (GameController.interactionManager s)).
Proof.
  destruct s as [g [h|] i st]; cbn; split_and!; reflexivity.
Qed.





(** ** C6: draw *)

Lemma hasEmptyCell_iff g :
  GameLogic.hasEmptyCell g = true <->
  exists r c, GameLogic.isValidPosition g r c = true /\
              cellAt (GameLogic.boardData g) r c = 0.
Proof.
  unfold GameLogic.hasEmptyCell. rewrite existsb_exists. split.
  - intros (i & Hi & Hrow). apply existsb_exists in Hrow as (j & Hj & Hz).
    apply in_seq in Hi, Hj. apply Z.eqb_eq in Hz.
    exists (Z.of_nat i), (Z.of_nat j). split; [|exact Hz].
    apply isValidPosition_iff. lia.
  - intros (r & c & Hv & Hz). apply isValidPosition_iff in Hv.
    exists (Z.to_nat r). split; [apply in_seq; lia|].
    apply existsb_exists. exists (Z.to_nat c). split; [apply in_seq; lia|].
    rewrite !Z2Nat.id by lia. apply Z.eqb_eq. exact Hz.
Qed.

(** C6, where the code misses the draw: the placement that fills the last
    empty cell of a 5x5 board without a winning line is accepted and
    [isDraw()] reports true, but [placeStone] has no branch that ends the
    game there: the game is not over and the phase is still Playing. *)
Lemma full_board_is_not_game_over :
  GameController.reachable smallConfig beforeFull /\
  let placed := GameController.placeStone 0 beforeFull 4 3 in
  fst placed = GameLogic.placeContinue (mkMoveData 4 3 1 25) /\
  GameLogic.hasEmptyCell (GameController.gameLogic (snd placed)) = false /\
  GameController.isDraw (snd placed) = true /\
  GameController.isGameOver (snd placed) = false /\
  GameController.gameState (snd placed) = GameController.playing.
Proof.
  split; [played|].
  split_and!; vm_compute; reflexivity.
Qed.

(** On a full board whose last stone won, [isDraw()] also answers true:
    the scan for an empty cell does not look at the winner. *)
Lemma isDraw_on_full_board_after_win :
  let placed := GameController.placeStone 0 beforeFullWin 0 4 in
  GameLogic.win (fst placed) = true /\
  GameController.getWinner (snd placed) = Some 1 /\
  GameController.isDraw (snd placed) = true.
Proof.
  split_and!; vm_compute; reflexivity.
Qed.

(** The first test of [isDraw], a finished game without a winner, holds in
    no reachable state: nothing ends a game without setting its winner. *)
Lemma isDraw_first_test_never_holds cfg s :
  GameController.reachable cfg s ->
  GameLogic.gameOver (GameController.gameLogic s)
  && match GameLogic.winner (GameController.gameLogic s) with
     | None => true
     | Some _ => false
     end = false.
Proof.
  intros Hreach.
  apply reachable_consistent in Hreach as ((_ & _ & _ & _ & _ & _ & Hw2) & _).
  destruct (GameLogic.gameOver (GameController.gameLogic s)); [|reflexivity].
  destruct (GameLogic.winner (GameController.gameLogic s)); [reflexivity|].
  exfalso. exact (Hw2 eq_refl eq_refl).
Qed.

(** What [isDraw()] reports: false in every reachable state whose board
    has an empty cell; true after a placement that does not win and
    leaves no empty cell, while game-over stays false, the winner stays
    null and the phase is unchanged. *)
Theorem isDraw_spec cfg s :
  GameController.reachable cfg s ->
  ((exists r c, GameLogic.isValidPosition (GameController.gameLogic s) r c = true /\
                cellAt (GameLogic.boardData (GameController.gameLogic s)) r c = 0) ->
   GameController.isDraw s = false) /\
  (forall now r c md s1,
      GameController.placeStone now s r c = (GameLogic.placeContinue md, s1) ->
      (forall r' c', GameLogic.isValidPosition (GameController.gameLogic s1) r' c' = true ->
                     cellAt (GameLogic.boardData (GameController.gameLogic s1)) r' c' <> 0) ->
      GameController.isDraw s1 = true /\
      GameController.isGameOver s1 = false /\
      GameController.getWinner s1 = None /\
      GameController.gameState s1 = GameController.gameState s).
Proof.
  intros Hreach. split.
  - intros Hempty. apply hasEmptyCell_iff in Hempty.
    apply reachable_consistent in Hreach as ((_ & _ & _ & _ & _ & Hw1 & Hw2) & _).
    unfold GameController.isDraw, GameLogic.isDraw. rewrite Hempty.
    destruct (GameLogic.gameOver (GameController.gameLogic s)) eqn:Hover; [|reflexivity].
    destruct (GameLogic.winner (GameController.gameLogic s)); [reflexivity|].
    exfalso. exact (Hw2 eq_refl eq_refl).
  - intros now r c md s1 Hplace Hfull.
    assert (Hreach1 : GameController.reachable cfg s1).
    { replace s1 with (GameController.run s (GameController.opPlace r c now))
        by (simpl; rewrite Hplace; reflexivity).
      apply GameController.reach_step. exact Hreach. }
    apply reachable_consistent in Hreach as ((_ & _ & _ & _ & _ & Hw1 & _) & _).
    destruct (GameLogic.canPlaceStone (GameController.gameLogic s) r c) eqn:Hcan.
    2: { rewrite ctl_placeStone_rejected in Hplace by exact Hcan. discriminate Hplace. }
    pose proof Hcan as Hcan'. apply canPlaceStone_iff in Hcan' as (Hover & _).
    rewrite ctl_placeStone_accepted in Hplace by exact Hcan. cbv zeta in Hplace.
    destruct (GameLogic.checkWin (stoneSet (GameController.gameLogic s) r c) r c);
      [discriminate Hplace|].
    injection Hplace as _ Hs1.
    assert (Hnone : GameLogic.hasEmptyCell (GameController.gameLogic s1) = false).
    { destruct (GameLogic.hasEmptyCell (GameController.gameLogic s1)) eqn:He; [|reflexivity].
      apply hasEmptyCell_iff in He as (r' & c' & Hv & Hz).
      exfalso. exact (Hfull r' c' Hv Hz). }
    unfold GameController.isDraw, GameLogic.isDraw. rewrite Hnone.
    subst s1. simpl. rewrite Hover, (Hw1 Hover). auto.
Qed.

Lemma isDraw_spec_witness :
  GameController.isDraw beforeFull = false /\
  GameController.isDraw (snd (GameController.placeStone 0 beforeFull 4 3)) = true /\
  GameController.isGameOver (snd (GameController.placeStone 0 beforeFull 4 3)) = false.
Proof.
  assert (Hreach : GameController.reachable smallConfig beforeFull).
  { played. }
  destruct (isDraw_spec smallConfig beforeFull Hreach) as [Hnot Hfill].
  split.
  - apply Hnot. exists 4, 3. split; vm_compute; reflexivity.
  - destruct (Hfill 0 4 3 (mkMoveData 4 3 1 25)
                (snd (GameController.placeStone 0 beforeFull 4 3)))
      as (Hd & Hg & _).
    + vm_compute. reflexivity.
    + intros r' c' Hv Hz.
      assert (He : GameLogic.hasEmptyCell
                     (GameController.gameLogic (snd (GameController.placeStone 0 beforeFull 4 3)))
                   = true).
      { apply hasEmptyCell_iff. exists r', c'. split; assumption. }
      clear Hv Hz Hnot Hfill. vm_compute in He. discriminate He.
    + split; assumption.
Defined.

(** ** C8: the Paused phase *)

(** C8, refuted as stated: while Paused, the rules engine still accepts a
    placement; [canPlaceStone] answers true, [placeStone] succeeds, the
    stone is on the board and the move is in History. *)
Lemma paused_engine_accepts_placement :
  GameController.reachable GameController.defaultConfig pausedGame /\
  GameController.gameState pausedGame = GameController.paused /\
  GameController.canPlaceStone pausedGame 7 7 = true /\
  let placed := GameController.placeStone 0 pausedGame 7 7 in
  fst placed = GameLogic.placeContinue (mkMoveData 7 7 1 1) /\
  cellAt (GameLogic.boardData (GameController.gameLogic (snd placed))) 7 7 = 1 /\
  GameLogic.stepNumber (GameController.gameLogic (snd placed)) = 2 /\
  length (MoveHistory.history (logOf (snd placed))) = 1%nat /\
  GameController.gameState (snd placed) = GameController.paused.
Proof.
  split.
  { apply reachable_runAll. apply GameController.reach_init. vm_compute. discriminate. }
  cbv zeta. split_and!; vm_compute; reflexivity.
Qed.

(** C8, as the code has it: in every reachable Paused state an undo call is
    refused (it returns false), the undo button does nothing, and a click
    on any cell of the board is ignored; each leaves the whole state,
    Board, Session and History included, unchanged.  The rules engine
    itself has no notion of the phase. *)
Theorem paused_refuses_undo_and_clicks cfg s :
  GameController.reachable cfg s ->
  GameController.gameState s = GameController.paused ->
  GameController.performUndo s = (false, s) /\
  GameController.undoRequested s = s /\
  (forall now r c, GameController.handleCellClick now s r c = (returns, s)).
Proof.
  intros Hreach Hpaused.
  pose proof (reachable_gated cfg s Hreach Hpaused) as Hoff.
  assert (Hundo : GameController.performUndo s = (false, s)).
  { apply performUndo_rejected. unfold GameController.canUndo.
    rewrite Hpaused. reflexivity. }
  split_and!.
  - exact Hundo.
  - unfold GameController.undoRequested, InteractionManager.handleUndoRequest.
    rewrite Hoff. simpl. unfold GameController.withInteraction.
    rewrite ctl_eta, Hundo. reflexivity.
  - intros now r c. unfold GameController.handleCellClick.
    rewrite Hoff. reflexivity.
Qed.

Lemma paused_refuses_undo_and_clicks_witness :
  GameController.performUndo pausedGame = (false, pausedGame) /\
  GameController.undoRequested pausedGame = pausedGame /\
  (forall now r c, GameController.handleCellClick now pausedGame r c
                   = (returns, pausedGame)).
Proof.
  apply (paused_refuses_undo_and_clicks GameController.defaultConfig pausedGame).
  - apply reachable_runAll. apply GameController.reach_init. vm_compute. discriminate.
  - vm_compute. reflexivity.
Defined.

(** ** C9: the cap of the log *)

Lemma setMaxHistorySize_bounds h size :
  let t := fst (MoveHistory.setMaxHistorySize h size) in
  MoveHistory.maxHistorySize t = Z.max 1 size /\
  Z.of_nat (length (MoveHistory.history t)) <= MoveHistory.maxHistorySize t /\
  (Z.of_nat (length (MoveHistory.history h)) > Z.max 1 size ->
   exists removed,
     snd (MoveHistory.setMaxHistorySize h size) = [MoveHistory.historyTruncated removed] /\
     MoveHistory.history h = removed ++ MoveHistory.history t).
Proof.
  cbv zeta. unfold MoveHistory.setMaxHistorySize.
  destruct (Z.gtb_spec (Z.of_nat (length (MoveHistory.history h))) (Z.max 1 size))
    as [Hgt | Hle]; simpl.
  - split; [reflexivity|]. split; [rewrite length_drop; lia|].
    intros _. eexists. split; [reflexivity|].
    symmetry. apply take_drop.
  - split; [reflexivity|]. split; [exact Hle|]. lia.
Qed.

(** C9, refuted as stated: an append to a full log evicts the oldest entry
    and emits [moveAdded] only, exactly the events of an append that
    evicts nothing; no event tells observers of the eviction.  (And a log
    that [importFromJSON] made longer than the cap stays longer than the
    cap after an append.) *)
Lemma eviction_is_silent :
  let old := mkMove 0 0 1 1 10 in
  let md := mkMoveData 1 1 2 2 in
  let full := MoveHistory.mk [old] 1 in
  let roomy_log := MoveHistory.mk [old] 2 in
  let loaded := snd (fst (MoveHistory.importFromJSON full
                            (Some [old; mkMove 0 1 2 2 11; mkMove 0 2 1 3 12]))) in
  MoveHistory.history (snd (fst (MoveHistory.addMove full md 20))) = [mkMove 1 1 2 2 20] /\
  MoveHistory.history (snd (fst (MoveHistory.addMove roomy_log md 20)))
  = [old; mkMove 1 1 2 2 20] /\
  snd (MoveHistory.addMove full md 20) = [MoveHistory.moveAdded (mkMove 1 1 2 2 20)] /\
  snd (MoveHistory.addMove full md 20) = snd (MoveHistory.addMove roomy_log md 20) /\
  MoveHistory.getLength (snd (fst (MoveHistory.addMove loaded md 20))) = 3 /\
  MoveHistory.maxHistorySize (snd (fst (MoveHistory.addMove loaded md 20))) = 1.
Proof.
  cbv zeta. split_and!; reflexivity.
Qed.

(** C9, as the code has it: for every append to a log whose length does not
    exceed its cap, the length does not exceed the cap afterwards and the
    cap is unchanged; below the cap the move is added at the end, at the
    cap it is added at the end and the oldest entry is dropped from the
    front; and in both cases the only event emitted is [moveAdded] for the
    new move.  [setMaxHistorySize] brings a longer log down to the new cap
    (at least 1) by dropping its oldest entries, and that truncation, when
    it drops something, is the one that emits an event carrying the
    dropped entries. *)
Theorem addMove_respects_cap h md now :
  Z.of_nat (length (MoveHistory.history h)) <= MoveHistory.maxHistorySize h ->
  let mv := fst (fst (MoveHistory.addMove h md now)) in
  let h' := snd (fst (MoveHistory.addMove h md now)) in
  mv = mkMove (md_row md) (md_col md) (md_player md) (md_step md) now /\
  Z.of_nat (length (MoveHistory.history h')) <= MoveHistory.maxHistorySize h' /\
  MoveHistory.maxHistorySize h' = MoveHistory.maxHistorySize h /\
  (Z.of_nat (length (MoveHistory.history h)) < MoveHistory.maxHistorySize h ->
   MoveHistory.history h' = MoveHistory.history h ++ [mv]) /\
  (Z.of_nat (length (MoveHistory.history h)) = MoveHistory.maxHistorySize h ->
   MoveHistory.history h' = tail (MoveHistory.history h ++ [mv])) /\
  snd (MoveHistory.addMove h md now) = [MoveHistory.moveAdded mv] /\
  (forall size,
      let t := fst (MoveHistory.setMaxHistorySize h size) in
      MoveHistory.maxHistorySize t = Z.max 1 size /\
      Z.of_nat (length (MoveHistory.history t)) <= MoveHistory.maxHistorySize t /\
      (Z.of_nat (length (MoveHistory.history h)) > Z.max 1 size ->
       exists removed,
         snd (MoveHistory.setMaxHistorySize h size) = [MoveHistory.historyTruncated removed] /\
         MoveHistory.history h = removed ++ MoveHistory.history t)).
Proof.
  intros Hlen. cbv zeta.
  pose proof (addMove_history h md now) as Hhist. cbv zeta in Hhist.
  set (mv := mkMove (md_row md) (md_col md) (md_player md) (md_step md) now) in *.
  assert (Hpushed : length (MoveHistory.history h ++ [mv])
                    = S (length (MoveHistory.history h))).
  { rewrite length_app. simpl. lia. }
  change (fst (fst (MoveHistory.addMove h md now))) with mv.
  change (MoveHistory.maxHistorySize (snd (fst (MoveHistory.addMove h md now))))
    with (MoveHistory.maxHistorySize h).
  split; [reflexivity|].
  destruct (Z.gtb_spec (Z.of_nat (length (MoveHistory.history h ++ [mv])))
                       (MoveHistory.maxHistorySize h)) as [Hgt | Hle];
    rewrite Hhist; split_and!; try reflexivity; try lia.
  - rewrite length_tl, Hpushed. lia.
  - intros size. apply setMaxHistorySize_bounds.
  - intros size. apply setMaxHistorySize_bounds.
Qed.

Lemma addMove_respects_cap_witness :
  let h := MoveHistory.mk [mkMove 0 0 1 1 10] 1 in
  let md := mkMoveData 1 1 2 2 in
  Z.of_nat (length (MoveHistory.history (snd (fst (MoveHistory.addMove h md 20)))))
  <= MoveHistory.maxHistorySize (snd (fst (MoveHistory.addMove h md 20))) /\
  snd (MoveHistory.addMove h md 20)
  = [MoveHistory.moveAdded (fst (fst (MoveHistory.addMove h md 20)))].
Proof.
  cbv zeta.
  assert (Hlen : Z.of_nat (length (MoveHistory.history
                                      (MoveHistory.mk [mkMove 0 0 1 1 10] 1)))
                 <= MoveHistory.maxHistorySize (MoveHistory.mk [mkMove 0 0 1 1 10] 1)).
  { simpl. lia. }
  pose proof (addMove_respects_cap (MoveHistory.mk [mkMove 0 0 1 1 10] 1)
                (mkMoveData 1 1 2 2) 20 Hlen) as H.
  cbv zeta in H. destruct H as (_ & Hcap & _ & _ & _ & Hev & _).
  split; [exact Hcap|exact Hev].
Defined.

(** ** C10: reading a cell *)

(** C10: in every reachable state and for every pair of integers
    [(row, col)], [getStone] returns a result and leaves the state, Board,
    Session and History included, exactly as it was; off the board the
    result is null; on the board the row and the cell exist and the result
    is the content of the cell, which is 0 (empty), 1 or 2. *)
Theorem getStone_total_and_read_only cfg s r c :
  GameController.reachable cfg s ->
  let n := GameController.cfg_boardSize cfg in
  snd (GameController.getStone s r c) = s /\
  (~ (0 <= r < n /\ 0 <= c < n) -> fst (GameController.getStone s r c) = None) /\
  (0 <= r < n /\ 0 <= c < n ->
   exists line v,
     GameLogic.boardData (GameController.gameLogic s) !! Z.to_nat r = Some line /\
     line !! Z.to_nat c = Some v /\
     fst (GameController.getStone s r c) = Some v /\
     (v = 0 \/ v = 1 \/ v = 2)).
Proof.
  intros Hreach n.
  apply reachable_consistent in Hreach as ((Hsize & Hn & Hsq & Hst & _) & _).
  fold n in Hsize, Hsq.
  split; [reflexivity|]. split.
  - intros Hout. unfold GameController.getStone, GameLogic.getStone. simpl.
    destruct (GameLogic.isValidPosition (GameController.gameLogic s) r c) eqn:Hv;
      [|reflexivity].
    apply isValidPosition_iff in Hv. rewrite Hsize in Hv. contradiction.
  - intros [Hr Hc].
    destruct (square_lookup n _ r c Hsq Hr Hc) as (line & v & Hline & Hcell).
    exists line, v. split; [exact Hline|]. split; [exact Hcell|].
    assert (Hv : GameLogic.isValidPosition (GameController.gameLogic s) r c = true).
    { apply isValidPosition_iff. rewrite Hsize. tauto. }
    assert (Hread : cellAt (GameLogic.boardData (GameController.gameLogic s)) r c = v).
    { unfold cellAt. rewrite Hline, Hcell. reflexivity. }
    split.
    + unfold GameController.getStone, GameLogic.getStone. simpl.
      rewrite Hv, Hread. reflexivity.
    + rewrite <- Hread. apply cellAt_stones. exact Hst.
Qed.

Lemma getStone_total_and_read_only_witness :
  snd (GameController.getStone beforeFive 0 3) = beforeFive /\
  fst (GameController.getStone beforeFive 0 3) = Some 1 /\
  fst (GameController.getStone beforeFive 0 5) = None /\
  fst (GameController.getStone beforeFive (-1) 0) = None.
Proof.
  assert (Hreach : GameController.reachable smallConfig beforeFive).
  { played. }
  split; [exact (proj1 (getStone_total_and_read_only smallConfig beforeFive 0 3 Hreach))|].
  split; [vm_compute; reflexivity|].
  split.
  - apply (proj1 (proj2 (getStone_total_and_read_only smallConfig beforeFive 0 5 Hreach))).
    intros [_ [_ H]]. vm_compute in H. discriminate H.
  - apply (proj1 (proj2 (getStone_total_and_read_only smallConfig beforeFive (-1) 0 Hreach))).
    intros [[H _] _]. vm_compute in H. apply H. reflexivity.
Defined.

(** * Further properties *)

(** ** An induction principle for engine and log *)

Lemma core_handleSuccessfulMove s res :
  GameController.gameLogic (snd (GameController.handleSuccessfulMove s res))
  = GameController.gameLogic s /\
  GameController.moveHistory (snd (GameController.handleSuccessfulMove s res))
  = GameController.moveHistory s.
Proof.
  destruct (handleSuccessfulMove_state s res) as [-> | ->]; split; reflexivity.
Qed.

Section CoreInduction.

Context (cfg : GameController.Config).
Context (P : GameLogic.t -> option MoveHistory.t -> Prop).

Hypothesis P_init :
  0 <= GameController.cfg_boardSize cfg -> holdsAt P (GameController.init cfg).
Hypothesis P_place :
  forall s now r c, consistent cfg s -> holdsAt P s ->
                    holdsAt P (snd (GameController.placeStone now s r c)).
Hypothesis P_undo :
  forall s, consistent cfg s -> holdsAt P s ->
            holdsAt P (snd (GameController.performUndo s)).
Hypothesis P_reset :
  forall s, consistent cfg s -> holdsAt P s ->
            holdsAt P (snd (GameController.resetGame s)).

Lemma holdsAt_handleSuccessfulMove s res :
  holdsAt P s -> holdsAt P (snd (GameController.handleSuccessfulMove s res)).
Proof.
  intros Hp. unfold holdsAt.
  destruct (core_handleSuccessfulMove s res) as [-> ->]. exact Hp.
Qed.

Lemma holdsAt_confirmPlacement now s r c :
  consistent cfg s -> holdsAt P s ->
  holdsAt P (snd (GameController.confirmPlacement now s r c)).
Proof.
  intros Hc Hp. unfold GameController.confirmPlacement.
  set (s1 := GameController.withInteraction s _).
  assert (Hc1 : consistent cfg s1) by exact Hc.
  assert (Hp1 : holdsAt P s1) by exact Hp.
  pose proof (P_place s1 now r c Hc1 Hp1) as Hp2.
  destruct (GameController.placeStone now s1 r c) as [res s2]. simpl in Hp2.
  destruct (GameLogic.success res); [|exact Hp2].
  apply holdsAt_handleSuccessfulMove. exact Hp2.
Qed.

Lemma holdsAt_handleCellClick now s r c :
  consistent cfg s -> holdsAt P s ->
  holdsAt P (snd (GameController.handleCellClick now s r c)).
Proof.
  intros Hc Hp.
  unfold GameController.handleCellClick, GameController.handleNormalClick.
  repeat match goal with
         | |- context [if ?b then _ else _] => destruct b
         | |- context [match ?o with Some _ => _ | None => _ end] => destruct o
         | |- context [match ?o with returns => _ | throws => _ end] => destruct o
         | |- context [let '(_, _) := ?p in _] => destruct p
         end;
    try exact Hp; apply holdsAt_confirmPlacement; assumption.
Qed.

Lemma holdsAt_replay clock ms :
  forall k s, consistent cfg s -> holdsAt P s ->
              holdsAt P (snd (GameController.replay clock k ms s)).
Proof.
  induction ms as [|[|r c] rest IH]; intros k s Hc Hp; cbn [GameController.replay];
    [exact Hp|exact Hp|].
  destruct (ctl_placeStoneAt_cases (clock k) s r c)
    as [-> | [-> | (zr & zc & _ & _ & ->)]]; [exact Hp|apply IH; assumption|].
  pose proof (P_place s (clock k) zr zc Hc Hp) as Hp1.
  pose proof (consistent_placeStone cfg (clock k) s zr zc Hc) as Hc1.
  destruct (GameController.placeStone (clock k) s zr zc) as [res s1].
  simpl in Hp1, Hc1.
  destruct (GameLogic.success res); [|apply IH; assumption].
  pose proof (holdsAt_handleSuccessfulMove s1 res Hp1) as Hp2.
  pose proof (consistent_handleSuccessfulMove cfg s1 res Hc1) as Hc2.
  destruct (GameController.handleSuccessfulMove s1 res) as [[|] s2];
    simpl in Hp2, Hc2; [apply IH; assumption|exact Hp2].
Qed.

Lemma holdsAt_importGame clock s data :
  consistent cfg s -> holdsAt P s ->
  holdsAt P (snd (GameController.importGame clock s data)).
Proof.
  intros Hc Hp.
  pose proof (consistent_resetGame cfg s Hc) as Hc1.
  pose proof (P_reset s Hc Hp) as Hp1.
  destruct (importGame_state clock s data) as [-> | [-> | [ms ->]]];
    [exact Hp|exact Hp1|apply holdsAt_replay; assumption].
Qed.

Lemma holdsAt_run s o :
  consistent cfg s -> holdsAt P s -> holdsAt P (GameController.run s o).
Proof.
  intros Hc Hp. destruct o; simpl.
  - apply P_place; assumption.
  - apply holdsAt_handleCellClick; assumption.
  - apply P_undo; assumption.
  - apply (P_undo (GameController.withInteraction s _)); assumption.
  - apply P_reset; assumption.
  - unfold GameController.pauseGame.
    destruct (GameController.phase_eqb _ _); exact Hp.
  - unfold GameController.resumeGame.
    destruct (GameController.phase_eqb _ _); exact Hp.
  - exact Hp.
  - apply holdsAt_importGame; assumption.
Qed.

(** What holds at the start and is kept by a placement, an undo and a
    reset holds of the engine and the log of every reachable state. *)
Lemma reachable_holdsAt s : GameController.reachable cfg s -> holdsAt P s.
Proof.
  intros Hreach.
  assert (H : consistent cfg s /\ holdsAt P s).
  { induction Hreach as [Hn | s o Hreach [Hc Hp]].
    - split; [apply consistent_init; exact Hn|apply P_init; exact Hn].
    - split; [apply consistent_run; exact Hc|apply holdsAt_run; assumption]. }
  exact (proj2 H).
Qed.

End CoreInduction.

(** ** Turns, stones and steps *)

Lemma playerAt_ok k : playerAt k = 1 \/ playerAt k = 2.
Proof. unfold playerAt. destruct (Z.odd k); auto. Qed.

Lemma playerAt_next k : otherPlayer (playerAt k) = playerAt (k + 1).
Proof.
  unfold playerAt, otherPlayer.
  rewrite Z.add_1_r, Z.odd_succ, <- Z.negb_odd.
  destruct (Z.odd k); reflexivity.
Qed.

Lemma stonesIn_insert line c old v :
  line !! c = Some old ->
  stonesIn (<[c := v]> line) = stonesIn line - occupied old + occupied v.
Proof.
  revert c. induction line as [|w rest IH]; intros c Hc; [inversion Hc|].
  destruct c as [|c]; simpl in *.
  - injection Hc as ->. lia.
  - rewrite (IH c Hc). lia.
Qed.

Lemma countStones_insert (b : Board) r old new :
  b !! r = Some old ->
  countStones (<[r := new]> b) = countStones b - stonesIn old + stonesIn new.
Proof.
  revert r. induction b as [|line rest IH]; intros r Hr; [inversion Hr|].
  destruct r as [|r]; simpl in *.
  - injection Hr as ->. lia.
  - rewrite (IH r Hr). lia.
Qed.

Lemma countStones_setCell n b r c v :
  square n b -> 0 <= r < n -> 0 <= c < n ->
  countStones (setCell b r c v)
  = countStones b - occupied (cellAt b r c) + occupied v.
Proof.
  intros Hsq Hr Hc.
  destruct (square_lookup _ _ _ _ Hsq Hr Hc) as (line & w & Hl & Hw).
  unfold setCell, cellAt. rewrite Hl, Hw.
  rewrite (countStones_insert _ _ _ _ Hl), (stonesIn_insert _ _ _ _ Hw). lia.
Qed.

Lemma stonesIn_replicate k : stonesIn (replicate k 0) = 0.
Proof. induction k as [|k IH]; simpl; [reflexivity|rewrite IH; reflexivity]. Qed.

Lemma countStones_emptyBoard n : countStones (GameLogic.emptyBoard n) = 0.
Proof.
  unfold GameLogic.emptyBoard.
  induction (Z.to_nat n) as [|k IH] at 1; simpl; [reflexivity|].
  rewrite stonesIn_replicate, IH. reflexivity.
Qed.

Lemma occupied_player p : p = 1 \/ p = 2 -> occupied p = 1.
Proof. intros [-> | ->]; reflexivity. Qed.

(** ** The rules engine on its own *)

Lemma enginePlace_cases g r c :
  (GameLogic.canPlaceStone g r c = false /\ enginePlace g (r, c) = g) \/
  (GameLogic.canPlaceStone g r c = true /\
   GameLogic.checkWin (stoneSet g r c) r c <> None /\
   enginePlace g (r, c) = wonLogic g r c) \/
  (GameLogic.canPlaceStone g r c = true /\
   GameLogic.checkWin (stoneSet g r c) r c = None /\
   enginePlace g (r, c) = nextLogic g r c).
Proof.
  unfold enginePlace. simpl.
  destruct (GameLogic.canPlaceStone g r c) eqn:Hcan.
  - rewrite (placeStone_accepted _ _ _ Hcan).
    destruct (GameLogic.checkWin (stoneSet g r c) r c) eqn:Hw.
    + right; left. split; [reflexivity|]. split; [discriminate|reflexivity].
    + right; right. auto.
  - left. rewrite (placeStone_rejected _ _ _ Hcan). auto.
Qed.

Lemma engine_ok_fresh n : 0 <= n -> engine_ok n (freshEngine n).
Proof.
  intros Hn. unfold engine_ok, freshEngine, logic_ok, turn_ok; simpl.
  split_and!; auto using emptyBoard_square, emptyBoard_stones; try discriminate; lia.
Qed.

Lemma engine_ok_place n g cell : engine_ok n g -> engine_ok n (enginePlace g cell).
Proof.
  destruct cell as [r c]. intros (Hlogic & Hturn & Hstep).
  destruct (enginePlace_cases g r c) as [[_ ->] | [(_ & _ & ->) | (_ & _ & ->)]].
  - split_and!; assumption.
  - split; [apply logic_ok_won; exact Hlogic|]. split; assumption.
  - split; [apply logic_ok_next; exact Hlogic|].
    unfold turn_ok in *; simpl. rewrite Hturn, playerAt_next. split; [reflexivity|lia].
Qed.

Lemma engine_ok_play n cells : forall g, engine_ok n g -> engine_ok n (enginePlay g cells).
Proof.
  unfold enginePlay. induction cells as [|cell rest IH]; intros g Hg; simpl; [exact Hg|].
  apply IH, engine_ok_place, Hg.
Qed.

Lemma enginePlace_step g cell :
  GameLogic.stepNumber g <= GameLogic.stepNumber (enginePlace g cell)
  <= GameLogic.stepNumber g + 1.
Proof.
  destruct cell as [r c].
  destruct (enginePlace_cases g r c) as [[_ ->] | [(_ & _ & ->) | (_ & _ & ->)]];
    simpl; lia.
Qed.

Lemma enginePlay_step cells :
  forall g, GameLogic.stepNumber (enginePlay g cells)
            <= GameLogic.stepNumber g + Z.of_nat (length cells).
Proof.
  unfold enginePlay. induction cells as [|cell rest IH]; intros g; simpl; [lia|].
  specialize (IH (enginePlace g cell)).
  pose proof (enginePlace_step g cell). lia.
Qed.

Lemma enginePlay_snoc g cells cell :
  enginePlay g (cells ++ [cell]) = enginePlace (enginePlay g cells) cell.
Proof. unfold enginePlay. rewrite fold_left_app. reflexivity. Qed.

(** ** What engine and log keep *)

Section Tracking.

Context (cfg : GameController.Config).

(** With room for every cell, the listener of [stonePlaced] evicts nothing. *)
Lemma logged_without_eviction g h r c now :
  logic_ok (GameController.cfg_boardSize cfg) g ->
  GameLogic.canPlaceStone g r c = true ->
  MoveHistory.maxHistorySize h = cap cfg ->
  log_ok g h -> roomy cfg -> numbered g h ->
  MoveHistory.history (snd (fst (MoveHistory.addMove h (moveDataOf g r c) now)))
  = MoveHistory.history h
    ++ [mkMove r c (GameLogic.currentPlayer g) (GameLogic.stepNumber g) now].
Proof.
  intros Hlogic Hcan Hcap Hok Hroomy Hnum.
  destruct (log_ok_logged cfg g h r c now Hlogic Hcan Hcap Hok (fun _ => Hnum))
    as [_ Hnum'].
  destruct (Hnum' Hroomy) as (Hstep' & _). destruct Hnum as (Hstep & _).
  rewrite addMove_history in Hstep' |- *. cbv zeta in Hstep' |- *.
  unfold moveDataOf in Hstep' |- *. cbn [md_row md_col md_player md_step] in Hstep' |- *.
  destruct (Z.gtb_spec (Z.of_nat (length (MoveHistory.history h ++
              [mkMove r c (GameLogic.currentPlayer g) (GameLogic.stepNumber g) now])))
              (MoveHistory.maxHistorySize h)) as [Hgt | Hle];
    [|reflexivity].
  rewrite length_tl, length_app in Hstep'. simpl in Hstep'. lia.
Qed.

Lemma steps_ok_logged g h r c now :
  steps_ok g h ->
  steps_ok (nextLogic g r c)
           (snd (fst (MoveHistory.addMove h (moveDataOf g r c) now))).
Proof.
  intros (Hlen & Hidx).
  set (mv := mkMove r c (GameLogic.currentPlayer g) (GameLogic.stepNumber g) now).
  assert (Hpushed : forall (i : nat) m,
             (MoveHistory.history h ++ [mv]) !! i = Some m ->
             step m = GameLogic.stepNumber g
                      - Z.of_nat (length (MoveHistory.history h)) + Z.of_nat i).
  { intros i m Hi. apply lookup_app_Some in Hi as [Hi | [Hge Hi]].
    - exact (Hidx i m Hi).
    - apply list_lookup_singleton_Some in Hi as [Hi0 <-]. simpl. lia. }
  unfold steps_ok. rewrite addMove_history. cbv zeta.
  unfold moveDataOf. cbn [md_row md_col md_player md_step]. fold mv.
  assert (Hl : length (MoveHistory.history h ++ [mv])
               = S (length (MoveHistory.history h))).
  { rewrite length_app. simpl. lia. }
  destruct (Z.gtb_spec (Z.of_nat (length (MoveHistory.history h ++ [mv])))
                       (MoveHistory.maxHistorySize h)) as [Hgt | Hle]; simpl.
  - rewrite length_tl, Hl. split; [lia|].
    intros i m Hi.
    assert (Hi' : (MoveHistory.history h ++ [mv]) !! S i = Some m).
    { destruct (MoveHistory.history h ++ [mv]); [inversion Hi|exact Hi]. }
    rewrite (Hpushed _ _ Hi'). lia.
  - rewrite Hl. split; [lia|].
    intros i m Hi. rewrite (Hpushed _ _ Hi). lia.
Qed.

Lemma turns_logged_logged g h r c now :
  turn_ok g -> turns_logged h ->
  turns_logged (snd (fst (MoveHistory.addMove h (moveDataOf g r c) now))).
Proof.
  intros Hturn Hall. unfold turns_logged. rewrite addMove_history. cbv zeta.
  assert (Hpushed : Forall (fun m => player m = playerAt (step m))
                      (MoveHistory.history h ++
                       [mkMove (md_row (moveDataOf g r c)) (md_col (moveDataOf g r c))
                               (md_player (moveDataOf g r c))
                               (md_step (moveDataOf g r c)) now])).
  { apply Forall_app. split; [exact Hall|]. constructor; [exact Hturn|constructor]. }
  destruct (_ >? _); [apply Forall_tail|]; exact Hpushed.
Qed.

(** A stone on a free cell leaves the logged cells as they were. *)
Lemma stones_logged_set g h r c :
  GameLogic.isValidPosition g r c = true ->
  Forall (entry_ok g) (MoveHistory.history h) ->
  cellAt (GameLogic.boardData g) r c = 0 ->
  stones_logged g h ->
  Forall (fun m => cellAt (setCell (GameLogic.boardData g) r c (GameLogic.currentPlayer g))
                          (row m) (col m) = player m)
         (MoveHistory.history h).
Proof.
  intros Hv Hall Hz Hst. unfold stones_logged in Hst.
  apply isValidPosition_iff in Hv.
  rewrite Forall_forall in Hall, Hst |- *. intros m Hm.
  destruct (Hall m Hm) as (Hmv & Hocc & _). apply isValidPosition_iff in Hmv.
  rewrite cellAt_setCell_other; [exact (Hst m Hm)|lia|lia|lia|lia|].
  intros [= -> ->]. contradiction.
Qed.

Lemma tracked_fresh n oh :
  n = GameController.cfg_boardSize cfg ->
  match oh with
  | Some h => MoveHistory.history h = []
  | None => True
  end ->
  tracked cfg (freshEngine n) oh.
Proof.
  intros -> Hempty. unfold tracked, freshEngine; simpl.
  split; [reflexivity|]. split; [lia|].
  split; [rewrite countStones_emptyBoard; reflexivity|].
  split; [discriminate|].
  destruct oh as [h|]; [|exact I].
  unfold steps_ok, turns_logged, stones_logged, replayed. rewrite Hempty. simpl.
  split; [split; [lia|intros k m Hk; inversion Hk]|].
  split; [constructor|]. split; [constructor|].
  intros _. split; [reflexivity|discriminate].
Qed.

Lemma tracked_init :
  0 <= GameController.cfg_boardSize cfg ->
  holdsAt (tracked cfg) (GameController.init cfg).
Proof.
  intros _. unfold holdsAt, GameController.init; simpl.
  apply (tracked_fresh (GameController.cfg_boardSize cfg)); [reflexivity|].
  destruct (GameController.enableHistory cfg); [|exact I].
  rewrite setMaxHistorySize_new. reflexivity.
Qed.

Lemma tracked_resetGame s :
  consistent cfg s -> holdsAt (tracked cfg) s ->
  holdsAt (tracked cfg) (snd (GameController.resetGame s)).
Proof.
  destruct s as [g oh i st].
  intros ((Hsize & _) & _) _. simpl in Hsize.
  unfold holdsAt, GameController.resetGame.
  destruct oh as [h|]; simpl;
    apply (tracked_fresh (GameLogic.boardSize g)); auto.
Qed.

Lemma tracked_placeStone s now r c :
  consistent cfg s -> holdsAt (tracked cfg) s ->
  holdsAt (tracked cfg) (snd (GameController.placeStone now s r c)).
Proof.
  intros Hc Ht.
  destruct (GameLogic.canPlaceStone (GameController.gameLogic s) r c) eqn:Hcan.
  2: { rewrite ctl_placeStone_rejected by exact Hcan. exact Ht. }
  rewrite ctl_placeStone_accepted by exact Hcan. cbv zeta.
  destruct Hc as (Hlogic & Hfin & Hidle & Hlog).
  pose proof Hlogic as (Hsize & Hn & Hsq & Hst & Hp & Hw1 & Hw2).
  pose proof Hcan as Hcan'.
  apply canPlaceStone_iff in Hcan' as (Hover & Hv & Hz).
  pose proof Hv as Hrange. apply isValidPosition_iff in Hrange. rewrite Hsize in Hrange.
  destruct Ht as (Hturn & Hstep & Hcount & Hwin & Hhist).
  rewrite Hover in Hcount.

  assert (Hcount' :
            countStones (setCell (GameLogic.boardData (GameController.gameLogic s)) r c
                           (GameLogic.currentPlayer (GameController.gameLogic s)))
            = GameLogic.stepNumber (GameController.gameLogic s)).
  { rewrite (countStones_setCell _ _ _ _ _ Hsq (proj1 Hrange) (proj2 Hrange)).
    rewrite Hz, (occupied_player _ Hp). change (occupied 0) with 0. lia. }
  destruct (GameLogic.checkWin (stoneSet (GameController.gameLogic s) r c) r c)
    as [wp|] eqn:Hcheck; unfold holdsAt, tracked;
    cbn [GameController.gameLogic GameController.moveHistory].
  - split; [exact Hturn|]. split; [exact Hstep|].
    split; [simpl; rewrite Hcount'; lia|]. split; [reflexivity|].
    destruct (GameController.moveHistory s) as [h|]; [|exact I].
    destruct Hhist as (Hsteps & Hturns & Hstones & Hplay).
    destruct Hlog as (_ & _ & (Hentries & _) & _).
    split; [exact Hsteps|]. split; [exact Hturns|].
    split; [exact (stones_logged_set _ h r c Hv Hentries Hz Hstones)|].
    intros Hroomy. destruct (Hplay Hroomy) as [Hplay0 _].
    split; [intros Hx; discriminate Hx|]. intros _.
    exists r, c. rewrite <- (Hplay0 Hover). auto.
  - split; [unfold turn_ok in *; simpl; rewrite Hturn; apply playerAt_next|].
    split; [simpl; lia|].
    split; [simpl; rewrite Hcount', Hover; lia|].
    split; [simpl; rewrite Hover; discriminate|].
    destruct (GameController.moveHistory s) as [h|]; [|exact I]. cbn [logged].
    destruct Hhist as (Hsteps & Hturns & Hstones & Hplay).
    destruct Hlog as (Hen & Hcap & Hok & Hnum).
    split; [apply steps_ok_logged; exact Hsteps|].
    split; [apply turns_logged_logged; assumption|].
    split.
    { unfold stones_logged. rewrite addMove_history. cbv zeta.
      assert (Hpushed : Forall (fun m => cellAt (GameLogic.boardData
                                   (nextLogic (GameController.gameLogic s) r c))
                                   (row m) (col m) = player m)
                (MoveHistory.history h ++
                 [mkMove (md_row (moveDataOf (GameController.gameLogic s) r c))
                         (md_col (moveDataOf (GameController.gameLogic s) r c))
                         (md_player (moveDataOf (GameController.gameLogic s) r c))
                         (md_step (moveDataOf (GameController.gameLogic s) r c)) now])).
      { apply Forall_app. split.
        - exact (stones_logged_set _ h r c Hv (proj1 Hok) Hz Hstones).
        - constructor; [|constructor]. simpl.
          apply (cellAt_setCell_same (GameController.cfg_boardSize cfg)); tauto. }
      destruct (_ >? _); [apply Forall_tail|]; exact Hpushed. }
    intros Hroomy. destruct (Hplay Hroomy) as [Hplay0 _].
    unfold replayed. cbv zeta.
    rewrite (logged_without_eviction _ h r c now Hlogic Hcan Hcap Hok Hroomy (Hnum Hroomy)).
    rewrite positions_snoc, enginePlay_snoc. cbn [row col].
    rewrite <- (Hplay0 Hover).
    split; [|simpl; rewrite Hover; discriminate]. intros _.
    destruct (enginePlace_cases (GameController.gameLogic s) r c)
      as [[Hno _] | [(_ & Hyes & _) | (_ & _ & ->)]];
      [congruence|congruence|reflexivity].
Qed.

Lemma tracked_performUndo s :
  consistent cfg s -> holdsAt (tracked cfg) s ->
  holdsAt (tracked cfg) (snd (GameController.performUndo s)).
Proof.
  intros Hc Ht.
  destruct (GameController.canUndo s) eqn:Hcan.
  2: { rewrite performUndo_rejected by exact Hcan. exact Ht. }
  apply canUndo_iff in Hcan as (Hp & h & Hh & Hne).
  destruct (last (MoveHistory.history h)) as [m|] eqn:Hlast;
    [|apply last_None in Hlast; contradiction].
  apply last_Some in Hlast as [l Hl].
  rewrite (performUndo_accepted s h l m Hp Hh Hl).
  destruct Hc as (Hlogic & Hfin & Hidle & Hlog).
  pose proof Hlogic as (Hsize & Hn & Hsq & Hst & Hcp & Hw1 & Hw2).
  rewrite Hh in Hlog. destruct Hlog as (Hen & Hcap & (Hall & Hnd & Hlen) & Hnum).
  assert (Hover : GameLogic.gameOver (GameController.gameLogic s) = false).
  { destruct (GameLogic.gameOver (GameController.gameLogic s)) eqn:Ho; [|reflexivity].
    assert (GameController.gameState s = GameController.finished) by (apply Hfin; reflexivity).
    congruence. }
  unfold holdsAt, tracked in Ht. rewrite Hh, Hover in Ht.
  destruct Ht as (Hturn & Hstep & Hcount & _ & (Hslen & Hsidx) & Hturns & Hstones & Hplay).
  unfold turns_logged in Hturns. unfold stones_logged in Hstones.
  rewrite Hl in Hall, Hturns, Hslen, Hsidx, Hstones, Hnd.
  apply Forall_app in Hstones as [Hstones _].
  pose proof Hnd as Hnd0. rewrite positions_snoc in Hnd0.
  apply NoDup_app in Hnd0 as (_ & Hdisj & _).
  apply Forall_app in Hall as [Hall Hm].
  apply Forall_cons in Hm as [(Hmv & Hmocc & Hmp) _].
  apply Forall_app in Hturns as [Hturns Hmturn].
  apply Forall_cons in Hmturn as [Hmturn _].
  rewrite length_app in Hslen, Hsidx. simpl length in Hslen, Hsidx.
  assert (Hmstep : step m = GameLogic.stepNumber (GameController.gameLogic s) - 1).
  { rewrite (Hsidx (length l) m) by (apply list_lookup_middle; reflexivity). lia. }
  pose proof Hmv as Hmrange. apply isValidPosition_iff in Hmrange. rewrite Hsize in Hmrange.
  unfold holdsAt, tracked, undoneLogic; simpl.
  split; [exact Hmturn|]. split; [lia|].
  split.
  { rewrite (countStones_setCell _ _ _ _ _ Hsq (proj1 Hmrange) (proj2 Hmrange)).
    assert (Ho : occupied (cellAt (GameLogic.boardData (GameController.gameLogic s))
                             (row m) (col m)) = 1).
    { unfold occupied. apply Z.eqb_neq in Hmocc. rewrite Hmocc. reflexivity. }
    rewrite Ho, Hcount. change (occupied 0) with 0. lia. }
  split; [discriminate|].
  split.
  { split; [simpl; lia|]. simpl. intros i m' Hi.
    rewrite (Hsidx i m') by (apply lookup_app_l_Some; exact Hi). lia. }
  split; [exact Hturns|].
  split.
  { unfold stones_logged; simpl.
    rewrite Forall_forall in Hall, Hstones |- *. intros m' Hm'.
    destruct (Hall m' Hm') as (Hv' & _). apply isValidPosition_iff in Hv'.
    rewrite cellAt_setCell_other; [exact (Hstones m' Hm')|lia|lia|lia|lia|].
    intros Heq. apply (Hdisj (row m', col m')).
    - apply list_elem_of_fmap. exists m'. split; [reflexivity|exact Hm'].
    - rewrite <- Heq. apply list_elem_of_singleton. reflexivity. }
  intros Hroomy. split; [|discriminate]. intros _.
  destruct (Hplay Hroomy) as [Hplay0 _]. specialize (Hplay0 Hover).
  clear Hplay. rename Hplay0 into Hplay.
  rewrite Hl, positions_snoc, enginePlay_snoc in Hplay. simpl MoveHistory.history.
  set (g0 := enginePlay (freshEngine (GameController.cfg_boardSize cfg)) (positions l)) in *.
  assert (Hg0 : engine_ok (GameController.cfg_boardSize cfg) g0).
  { apply engine_ok_play, engine_ok_fresh. exact Hn. }
  destruct Hg0 as ((Hsize0 & _ & Hsq0 & _ & _ & Hw0 & _) & Hturn0 & _).
  assert (Hstep0 : GameLogic.stepNumber g0 <= 1 + Z.of_nat (length l)).
  { pose proof (enginePlay_step (positions l)
                  (freshEngine (GameController.cfg_boardSize cfg))) as Hb.
    unfold positions in Hb. rewrite length_fmap in Hb. exact Hb. }
  destruct (Hnum Hroomy) as (Hnumstep & _).
  rewrite Hl, length_app in Hnumstep. simpl length in Hnumstep.
  destruct (enginePlace_cases g0 (row m) (col m))
    as [[_ Heq] | [(_ & _ & Heq) | (Hcan0 & _ & Heq)]];
    rewrite Heq in Hplay.
  - rewrite Hplay in Hnumstep. lia.
  - rewrite Hplay in Hover. discriminate Hover.
  - apply canPlaceStone_iff in Hcan0 as (Hover0 & Hv0 & Hz0).
    apply isValidPosition_iff in Hv0. rewrite Hsize0 in Hv0.
    rewrite Hplay in Hmstep |- *. simpl in Hmstep |- *.
    rewrite (setCell_restore (GameController.cfg_boardSize cfg)) by tauto.
    rewrite Hmturn, Hmstep.
    replace (GameLogic.stepNumber g0 + 1 - 1) with (GameLogic.stepNumber g0) by lia.
    rewrite <- Hturn0.
    destruct g0 as [n0 b0 cp0 sn0 ov0 w0]. simpl in *.
    rewrite Hover0, (Hw0 Hover0). reflexivity.
Qed.

(** Every reachable state keeps them. *)
Lemma reachable_tracked s :
  GameController.reachable cfg s -> holdsAt (tracked cfg) s.
Proof.
  apply (reachable_holdsAt cfg (tracked cfg)).
  - apply tracked_init.
  - intros s' now r c. apply tracked_placeStone.
  - apply tracked_performUndo.
  - apply tracked_resetGame.
Qed.

End Tracking.

(** ** Placements *)

(** X1: [placeStone] answers false exactly when the game is over, the
    position is off the board or the cell is occupied; it then leaves
    engine, log, interaction and phase as they were and emits no event. *)
Theorem rejected_placement_changes_nothing now s r c :
  let g := GameController.gameLogic s in
  (fst (GameController.placeStone now s r c) = GameLogic.placeFalse <->
   GameLogic.gameOver g = true \/
   ~ (0 <= r < GameLogic.boardSize g /\ 0 <= c < GameLogic.boardSize g) \/
   cellAt (GameLogic.boardData g) r c <> 0) /\
  (fst (GameController.placeStone now s r c) = GameLogic.placeFalse ->
   snd (GameController.placeStone now s r c) = s /\
   snd (GameLogic.placeStone g r c) = []).
Proof.
  cbv zeta.
  destruct (GameLogic.canPlaceStone (GameController.gameLogic s) r c) eqn:Hcan.
  - rewrite ctl_placeStone_accepted by exact Hcan. cbv zeta.
    apply canPlaceStone_iff in Hcan as (Hover & Hv & Hz).
    apply isValidPosition_iff in Hv.
    destruct (GameLogic.checkWin _ r c); simpl; split;
      try (intros Hx; discriminate Hx);
      (split; [intros Hx; discriminate Hx|]);
      intros [Ho | [Hout | Hocc]]; [congruence|tauto|contradiction
                                   |congruence|tauto|contradiction].
  - rewrite ctl_placeStone_rejected by exact Hcan.
    rewrite (placeStone_rejected _ _ _ Hcan). simpl.
    split; [|auto]. split; [intros _|reflexivity].
    destruct (GameLogic.gameOver (GameController.gameLogic s)) eqn:Hover; [auto|].
    right.
    destruct (GameLogic.isValidPosition (GameController.gameLogic s) r c) eqn:Hv.
    + right. intros Hz.
      assert (GameLogic.canPlaceStone (GameController.gameLogic s) r c = true)
        by (apply canPlaceStone_iff; auto).
      congruence.
    + left. intros Hin. apply isValidPosition_iff in Hin. congruence.
Qed.

(** X2: in a reachable state an accepted placement puts the mover's stone
    on the placed cell and changes no other cell of the board; the board
    keeps its size. *)
Theorem placement_changes_one_cell cfg s r c now :
  GameController.reachable cfg s ->
  GameLogic.canPlaceStone (GameController.gameLogic s) r c = true ->
  let g := GameController.gameLogic s in
  let g' := GameController.gameLogic (snd (GameController.placeStone now s r c)) in
  GameLogic.boardSize g' = GameLogic.boardSize g /\
  cellAt (GameLogic.boardData g') r c = GameLogic.currentPlayer g /\
  (forall r' c', GameLogic.isValidPosition g r' c' = true -> (r', c') <> (r, c) ->
                 cellAt (GameLogic.boardData g') r' c' = cellAt (GameLogic.boardData g) r' c').
Proof.
  intros Hreach Hcan. cbv zeta.
  apply reachable_consistent in Hreach as ((Hsize & Hn & Hsq & _) & _).
  pose proof Hcan as Hcan'. apply canPlaceStone_iff in Hcan' as (_ & Hv & _).
  apply isValidPosition_iff in Hv. rewrite Hsize in Hv.
  assert (Hboard :
            GameLogic.boardSize (GameController.gameLogic
                                   (snd (GameController.placeStone now s r c)))
            = GameLogic.boardSize (GameController.gameLogic s) /\
            GameLogic.boardData (GameController.gameLogic
                                   (snd (GameController.placeStone now s r c)))
            = setCell (GameLogic.boardData (GameController.gameLogic s)) r c
                      (GameLogic.currentPlayer (GameController.gameLogic s))).
  { rewrite ctl_placeStone_accepted by exact Hcan. cbv zeta.
    destruct (GameLogic.checkWin _ r c); split; reflexivity. }
  destruct Hboard as [Hb1 Hb2]. rewrite Hb1, Hb2.
  split; [reflexivity|]. split.
  - apply (cellAt_setCell_same (GameController.cfg_boardSize cfg)); tauto.
  - intros r' c' Hv' Hne. apply isValidPosition_iff in Hv'.
    apply cellAt_setCell_other; try lia. congruence.
Qed.

Lemma placement_changes_one_cell_witness :
  let g := GameController.gameLogic beforeFive in
  let g' := GameController.gameLogic (snd (GameController.placeStone 0 beforeFive 3 3)) in
  GameLogic.boardSize g' = GameLogic.boardSize g /\
  cellAt (GameLogic.boardData g') 3 3 = GameLogic.currentPlayer g /\
  (forall r' c', GameLogic.isValidPosition g r' c' = true -> (r', c') <> (3, 3) ->
                 cellAt (GameLogic.boardData g') r' c' = cellAt (GameLogic.boardData g) r' c').
Proof.
  apply (placement_changes_one_cell smallConfig beforeFive 3 3 0).
  - played.
  - vm_compute. reflexivity.
Defined.

(** ** Turns, stones and the end of the game *)

(** X3: in every reachable state black (1) is to move when the step number
    is odd and white (2) when it is even, and every move in the log was
    made by the player of its step. *)
Theorem black_moves_on_odd_steps cfg s :
  GameController.reachable cfg s ->
  GameController.getCurrentPlayer s
  = (if Z.odd (GameLogic.getCurrentStep (GameController.gameLogic s)) then 1 else 2) /\
  (forall h m, GameController.moveHistory s = Some h ->
               m ∈ MoveHistory.history h ->
               player m = (if Z.odd (step m) then 1 else 2)).
Proof.
  intros Hreach. pose proof (reachable_tracked cfg s Hreach) as Ht.
  unfold holdsAt, tracked in Ht. destruct Ht as (Hturn & _ & _ & _ & Hhist).
  split; [exact Hturn|].
  intros h m Hh Hm. rewrite Hh in Hhist. destruct Hhist as (_ & Hturns & _).
  unfold turns_logged in Hturns. rewrite Forall_forall in Hturns.
  exact (Hturns m Hm).
Qed.

Lemma black_moves_on_odd_steps_witness :
  GameController.getCurrentPlayer beforeFive
  = (if Z.odd (GameLogic.getCurrentStep (GameController.gameLogic beforeFive))
     then 1 else 2) /\
  (forall h m, GameController.moveHistory beforeFive = Some h ->
               m ∈ MoveHistory.history h ->
               player m = (if Z.odd (step m) then 1 else 2)).
Proof.
  apply (black_moves_on_odd_steps smallConfig beforeFive). played.
Defined.



(** X5: in every reachable state the phase is Finished exactly when the
    rules engine says the game is over, which is exactly when there is a
    winner; and the winner is then the player still shown as current
    player, black or white. *)
Theorem finished_iff_won cfg s :
  GameController.reachable cfg s ->
  (GameController.getGameState s = GameController.finished <->
   GameController.isGameOver s = true) /\
  (GameController.isGameOver s = true <-> GameController.getWinner s <> None) /\
  (GameController.isGameOver s = true ->
   GameController.getWinner s = Some (GameController.getCurrentPlayer s) /\
   (GameController.getCurrentPlayer s = 1 \/ GameController.getCurrentPlayer s = 2)).
Proof.
  intros Hreach. pose proof (reachable_tracked cfg s Hreach) as Ht.
  unfold holdsAt, tracked in Ht. destruct Ht as (_ & _ & _ & Hwin & _).
  apply reachable_consistent in Hreach
    as ((_ & _ & _ & _ & Hp & Hw1 & Hw2) & Hfin & _ & _).
  split; [exact Hfin|]. split.
  - split; [exact Hw2|]. unfold GameController.isGameOver, GameLogic.isGameOver.
    intros Hw. destruct (GameLogic.gameOver (GameController.gameLogic s)); [reflexivity|].
    exfalso. apply Hw. apply Hw1. reflexivity.
  - intros Hover. split; [exact (Hwin Hover)|exact Hp].
Qed.

Lemma finished_iff_won_witness :
  (GameController.getGameState afterFive = GameController.finished <->
   GameController.isGameOver afterFive = true) /\
  (GameController.isGameOver afterFive = true <->
   GameController.getWinner afterFive <> None) /\
  (GameController.isGameOver afterFive = true ->
   GameController.getWinner afterFive = Some (GameController.getCurrentPlayer afterFive) /\
   (GameController.getCurrentPlayer afterFive = 1 \/
    GameController.getCurrentPlayer afterFive = 2)).
Proof.
  apply (finished_iff_won smallConfig afterFive). played.
Defined.

(** X6: in every reachable state the log agrees with the board: the logged
    moves are on pairwise distinct cells of the board, and the cell of
    each holds the stone of the player who made it. *)
Theorem log_agrees_with_board cfg s h :
  GameController.reachable cfg s ->
  GameController.moveHistory s = Some h ->
  NoDup (map (fun m => (row m, col m)) (MoveHistory.getAllMoves h)) /\
  (forall m, m ∈ MoveHistory.getAllMoves h ->
             (player m = 1 \/ player m = 2) /\
             GameController.getStone s (row m) (col m) = (Some (player m), s)).
Proof.
  intros Hreach Hh. pose proof (reachable_tracked cfg s Hreach) as Ht.
  unfold holdsAt, tracked in Ht. rewrite Hh in Ht.
  destruct Ht as (_ & _ & _ & _ & _ & _ & Hstones & _).
  apply reachable_consistent in Hreach as (_ & _ & _ & Hlog).
  rewrite Hh in Hlog. destruct Hlog as (_ & _ & (Hall & Hnd & _) & _).
  split; [exact Hnd|].
  intros m Hm. unfold MoveHistory.getAllMoves in Hm.
  unfold stones_logged in Hstones.
  rewrite Forall_forall in Hall, Hstones.
  destruct (Hall m Hm) as (Hv & _ & Hp). split; [exact Hp|].
  unfold GameController.getStone, GameLogic.getStone.
  rewrite Hv, (Hstones m Hm). reflexivity.
Qed.

Lemma log_agrees_with_board_witness :
  NoDup (map (fun m => (row m, col m)) (MoveHistory.getAllMoves (logOf beforeFive))) /\
  (forall m, m ∈ MoveHistory.getAllMoves (logOf beforeFive) ->
             (player m = 1 \/ player m = 2) /\
             GameController.getStone beforeFive (row m) (col m)
             = (Some (player m), beforeFive)).
Proof.
  apply (log_agrees_with_board smallConfig beforeFive (logOf beforeFive)).
  - played.
  - vm_compute. reflexivity.
Defined.

(** ** The move log *)

Lemma find_by_step (l : list Move) : forall a,
  (forall (i : nat) m, l !! i = Some m -> step m = a + Z.of_nat i) ->
  forall (i : nat) m, l !! i = Some m ->
                      find (fun x => step x =? step m) l = Some m.
Proof.
  induction l as [|x l IH]; intros a Hsteps i m Hi; [discriminate Hi|].
  destruct i as [|i]; simpl in Hi.
  - injection Hi as ->. simpl. rewrite Z.eqb_refl. reflexivity.
  - simpl. pose proof (Hsteps 0%nat x eq_refl) as Hx.
    pose proof (Hsteps (S i) m Hi) as Hm.
    destruct (Z.eqb_spec (step x) (step m)) as [Heq | _]; [lia|].
    apply (IH (a + 1)) with (i := i); [|exact Hi].
    intros j m' Hj. rewrite (Hsteps (S j) m' Hj). lia.
Qed.

(** X7: in every reachable state the log holds consecutive step numbers
    ending just before the engine's step number, so [getMoveByStep] finds
    every logged move by its step, and finds a move exactly for the steps
    from [stepNumber - length] to [stepNumber - 1]. *)
Theorem getMoveByStep_finds_logged_moves cfg s h :
  GameController.reachable cfg s ->
  GameController.moveHistory s = Some h ->
  let next := GameLogic.getCurrentStep (GameController.gameLogic s) in
  let first := next - MoveHistory.getLength h in
  (forall (i : nat) m, MoveHistory.getAllMoves h !! i = Some m ->
                       step m = first + Z.of_nat i) /\
  (forall m, m ∈ MoveHistory.getAllMoves h ->
             MoveHistory.getMoveByStep h (step m) = Some m) /\
  (forall k, MoveHistory.getMoveByStep h k <> None <-> first <= k < next).
Proof.
  intros Hreach Hh. cbv zeta.
  pose proof (reachable_tracked cfg s Hreach) as Ht.
  unfold holdsAt, tracked in Ht. rewrite Hh in Ht.
  destruct Ht as (_ & _ & _ & _ & (Hlen & Hsteps) & _).
  unfold MoveHistory.getAllMoves, MoveHistory.getLength, MoveHistory.getMoveByStep,
    GameLogic.getCurrentStep.
  split; [exact Hsteps|]. split.
  - intros m Hm. apply list_elem_of_lookup in Hm as [i Hi].
    exact (find_by_step _ _ Hsteps i m Hi).
  - intros k. split.
    + intros Hfound.
      destruct (find (fun m => step m =? k) (MoveHistory.history h)) as [m|] eqn:Hfind;
        [|contradiction].
      apply find_some in Hfind as [Hin Hk].
      apply Z.eqb_eq in Hk. apply list_elem_of_In, list_elem_of_lookup in Hin as [i Hi].
      pose proof (Hsteps i m Hi) as Hm.
      apply lookup_lt_Some in Hi. lia.
    + intros Hk.
      destruct (lookup_lt_is_Some_2 (MoveHistory.history h)
                  (Z.to_nat (k - (GameLogic.stepNumber (GameController.gameLogic s)
                                  - Z.of_nat (length (MoveHistory.history h))))))
        as [m Hi]; [lia|].
      pose proof (Hsteps _ m Hi) as Hm.
      assert (Hstep : step m = k) by lia.
      rewrite <- Hstep, (find_by_step _ _ Hsteps _ m Hi). discriminate.
Qed.

Lemma getMoveByStep_finds_logged_moves_witness :
  let next := GameLogic.getCurrentStep (GameController.gameLogic beforeFive) in
  let first := next - MoveHistory.getLength (logOf beforeFive) in
  (forall (i : nat) m, MoveHistory.getAllMoves (logOf beforeFive) !! i = Some m ->
                       step m = first + Z.of_nat i) /\
  (forall m, m ∈ MoveHistory.getAllMoves (logOf beforeFive) ->
             MoveHistory.getMoveByStep (logOf beforeFive) (step m) = Some m) /\
  (forall k, MoveHistory.getMoveByStep (logOf beforeFive) k <> None <-> first <= k < next).
Proof.
  apply (getMoveByStep_finds_logged_moves smallConfig beforeFive (logOf beforeFive)).
  - played.
  - vm_compute. reflexivity.
Defined.

Lemma last_snoc_tail (l : list Move) (m : Move) :
  last (tail (l ++ [m])) = (if decide (l = []) then None else Some m).
Proof.
  destruct l as [|x l]; [reflexivity|]. simpl. apply last_snoc.
Qed.

(** X8: with a cap of at least 1, the move returned by [addMove] is the
    last move of the log, and an [undoLastMove] right after it returns
    that move; below the cap the undo gives back the log as it was before
    the append, at the cap it gives back that log without its oldest
    entry. *)
Theorem addMove_then_undoLastMove h md now :
  1 <= MoveHistory.maxHistorySize h ->
  let move := fst (fst (MoveHistory.addMove h md now)) in
  let h' := snd (fst (MoveHistory.addMove h md now)) in
  MoveHistory.getLastMove h' = Some move /\
  fst (fst (MoveHistory.undoLastMove h')) = Some move /\
  snd (MoveHistory.undoLastMove h') = [MoveHistory.moveUndone move] /\
  (MoveHistory.getLength h < MoveHistory.maxHistorySize h ->
   snd (fst (MoveHistory.undoLastMove h')) = h) /\
  (MoveHistory.maxHistorySize h <= MoveHistory.getLength h ->
   snd (fst (MoveHistory.undoLastMove h'))
   = MoveHistory.mk (tail (MoveHistory.history h)) (MoveHistory.maxHistorySize h)).
Proof.
  intros Hcap. cbv zeta. destruct h as [l cap]. simpl in Hcap.
  unfold MoveHistory.getLastMove, MoveHistory.undoLastMove, MoveHistory.addMove,
    MoveHistory.getLength.
  cbn [MoveHistory.history MoveHistory.maxHistorySize fst snd].
  rewrite length_app. cbn [length].
  destruct (Z.gtb_spec (Z.of_nat (length l + 1)) cap) as [Hgt | Hle].
  - destruct l as [|x l]; [simpl in Hgt; lia|].
    cbn [app tail]. rewrite last_snoc. cbn [fst snd MoveHistory.history].
    rewrite removelast_last.
    split_and!; try reflexivity.
    intros Hlt. cbn [length] in Hgt, Hlt. lia.
  - rewrite last_snoc. cbn [fst snd MoveHistory.history MoveHistory.maxHistorySize].
    rewrite removelast_last.
    split_and!; try reflexivity.
    intros Hge. lia.
Qed.

Lemma addMove_then_undoLastMove_witness :
  let h := MoveHistory.mk [mkMove 0 0 1 1 10] 1 in
  let md := mkMoveData 1 1 2 2 in
  let move := fst (fst (MoveHistory.addMove h md 20)) in
  let h' := snd (fst (MoveHistory.addMove h md 20)) in
  MoveHistory.getLastMove h' = Some move /\
  fst (fst (MoveHistory.undoLastMove h')) = Some move /\
  snd (MoveHistory.undoLastMove h') = [MoveHistory.moveUndone move] /\
  (MoveHistory.getLength h < MoveHistory.maxHistorySize h ->
   snd (fst (MoveHistory.undoLastMove h')) = h) /\
  (MoveHistory.maxHistorySize h <= MoveHistory.getLength h ->
   snd (fst (MoveHistory.undoLastMove h'))
   = MoveHistory.mk (tail (MoveHistory.history h)) (MoveHistory.maxHistorySize h)).
Proof.
  apply (addMove_then_undoLastMove (MoveHistory.mk [mkMove 0 0 1 1 10] 1)
           (mkMoveData 1 1 2 2) 20).
  simpl. lia.
Defined.

Lemma last_drop (l : list Move) (n : nat) :
  (n < length l)%nat -> last (drop n l) = last l.
Proof.
  revert n. induction l as [|x l IH]; intros n Hn; [simpl in Hn; lia|].
  destruct n as [|n]; [reflexivity|]. simpl in Hn. cbn [drop].
  rewrite IH by lia.
  destruct l as [|y l]; [simpl in Hn; lia|]. reflexivity.
Qed.

(** X9: [setMaxHistorySize] keeps the newest moves: the log afterwards is
    the old one without its first [length - cap] entries (all of it when
    it fits), its last move is unchanged, no event is emitted when nothing
    is dropped, and setting the same size again changes nothing and emits
    nothing. *)
Theorem setMaxHistorySize_keeps_newest h size :
  let cap := Z.max 1 size in
  let h' := fst (MoveHistory.setMaxHistorySize h size) in
  MoveHistory.getAllMoves h'
  = drop (Z.to_nat (MoveHistory.getLength h - cap)) (MoveHistory.getAllMoves h) /\
  MoveHistory.getLength h' = Z.min (MoveHistory.getLength h) cap /\
  MoveHistory.getLastMove h' = MoveHistory.getLastMove h /\
  (MoveHistory.getLength h <= cap ->
   snd (MoveHistory.setMaxHistorySize h size) = []) /\
  MoveHistory.setMaxHistorySize h' size = (h', []).
Proof.
  cbv zeta.
  unfold MoveHistory.setMaxHistorySize, MoveHistory.getAllMoves, MoveHistory.getLength,
    MoveHistory.getLastMove.
  destruct (Z.gtb_spec (Z.of_nat (length (MoveHistory.history h))) (Z.max 1 size))
    as [Hgt | Hle]; cbn [fst snd MoveHistory.history MoveHistory.maxHistorySize].
  - split; [reflexivity|]. split; [rewrite length_drop; lia|].
    split; [apply last_drop; lia|]. split; [lia|].
    destruct (Z.gtb_spec
                (Z.of_nat (length (drop (Z.to_nat (Z.of_nat (length (MoveHistory.history h))
                                                   - Z.max 1 size))
                                        (MoveHistory.history h))))
                (Z.max 1 size)) as [Hgt' | _]; [|reflexivity].
    rewrite length_drop in Hgt'. lia.
  - replace (Z.to_nat (Z.of_nat (length (MoveHistory.history h)) - Z.max 1 size))
      with 0%nat by lia.
    split; [reflexivity|]. split; [lia|]. split; [reflexivity|].
    split; [reflexivity|].
    destruct (Z.gtb_spec (Z.of_nat (length (MoveHistory.history h))) (Z.max 1 size))
      as [Hgt' | _]; [lia|reflexivity].
Qed.

Lemma tallyFrom_counts (l : list Move) : forall index acc,
  MoveHistory.blackMoves (MoveHistory.tallyFrom index l acc)
  = MoveHistory.blackMoves acc + Z.of_nat (length (filter (fun m => player m = 1) l)) /\
  MoveHistory.whiteMoves (MoveHistory.tallyFrom index l acc)
  = MoveHistory.whiteMoves acc + Z.of_nat (length (filter (fun m => player m <> 1) l)) /\
  MoveHistory.blackMoves (MoveHistory.tallyFrom index l acc)
  + MoveHistory.whiteMoves (MoveHistory.tallyFrom index l acc)
  = MoveHistory.blackMoves acc + MoveHistory.whiteMoves acc + Z.of_nat (length l).
Proof.
  induction l as [|m l IH]; intros index acc; [simpl; lia|].
  cbn [MoveHistory.tallyFrom]. destruct (IH (S index) (MoveHistory.tallyMove index acc m))
    as (Hb & Hw & Hsum).
  rewrite Hsum, Hb, Hw. unfold MoveHistory.tallyMove.
  cbn [MoveHistory.blackMoves MoveHistory.whiteMoves].
  rewrite !filter_cons.
  destruct (Z.eqb_spec (player m) 1) as [Hp | Hp].
  - rewrite decide_True by exact Hp. rewrite decide_False by tauto. simpl length. lia.
  - rewrite decide_False by exact Hp. rewrite decide_True by exact Hp. simpl length. lia.
Qed.

(** X10: [getStatistics] counts every logged move once: [totalMoves] is
    the length of the log, [blackMoves] the number of moves of player 1
    (those [getMovesByPlayer(1)] returns), [whiteMoves] the number of all
    other moves, and the two add up to [totalMoves]. *)
Theorem getStatistics_counts_moves h :
  let stats := MoveHistory.getStatistics h in
  fst stats = MoveHistory.getLength h /\
  MoveHistory.blackMoves (snd stats)
  = Z.of_nat (length (MoveHistory.getMovesByPlayer h 1)) /\
  MoveHistory.whiteMoves (snd stats)
  = Z.of_nat (length (filter (fun m => player m <> 1) (MoveHistory.getAllMoves h))) /\
  MoveHistory.blackMoves (snd stats) + MoveHistory.whiteMoves (snd stats) = fst stats.
Proof.
  cbv zeta. unfold MoveHistory.getStatistics, MoveHistory.getLength,
    MoveHistory.getMovesByPlayer, MoveHistory.getAllMoves.
  cbn [fst snd].
  destruct (tallyFrom_counts (MoveHistory.history h) 0 (MoveHistory.mkTally 0 0 0 None))
    as (Hb & Hw & Hsum).
  rewrite Hsum, Hb, Hw. cbn [MoveHistory.blackMoves MoveHistory.whiteMoves].
  split; [reflexivity|]. split; [lia|]. split; lia.
Qed.

Lemma tallyFrom_alternating (l : list Move) : forall a index acc,
  (forall (i : nat) m, l !! i = Some m -> player m = playerAt (a + Z.of_nat i)) ->
  let n := Z.of_nat (length l) in
  MoveHistory.blackMoves (MoveHistory.tallyFrom index l acc)
  = MoveHistory.blackMoves acc + (if Z.odd a then (n + 1) / 2 else n / 2) /\
  MoveHistory.whiteMoves (MoveHistory.tallyFrom index l acc)
  = MoveHistory.whiteMoves acc + (if Z.odd a then n / 2 else (n + 1) / 2).
Proof.
  induction l as [|m l IH]; intros a index acc Hturns; cbv zeta.
  - cbn [length MoveHistory.tallyFrom]. change (Z.of_nat 0) with 0.
    change ((0 + 1) / 2) with 0. change (0 / 2) with 0.
    destruct (Z.odd a); split; lia.
  - cbn [MoveHistory.tallyFrom].
    destruct (IH (a + 1) (S index) (MoveHistory.tallyMove index acc m)) as [Hb Hw].
    { intros i m' Hi. rewrite (Hturns (S i) m' Hi). f_equal. lia. }
    rewrite Hb, Hw. clear Hb Hw IH.
    pose proof (Hturns 0%nat m eq_refl) as Hm. rewrite Z.add_0_r in Hm.
    unfold MoveHistory.tallyMove. cbn [MoveHistory.blackMoves MoveHistory.whiteMoves].
    rewrite Hm. unfold playerAt. rewrite Z.odd_add. change (Z.odd 1) with true.
    replace (Z.of_nat (length (m :: l))) with (Z.of_nat (length l) + 1)
      by (cbn [length]; lia).
    replace (Z.of_nat (length l) + 1 + 1) with (Z.of_nat (length l) + 1 * 2) by lia.
    rewrite Z.div_add by lia.
    destruct (Z.odd a); simpl; split; lia.
Qed.

(** X11: in every reachable state of a game whose log has room for every
    cell, the statistics of the log give black the larger half of the
    logged moves and white the smaller half: with [n] moves logged,
    [blackMoves] is [(n + 1) / 2] and [whiteMoves] is [n / 2]. *)
Theorem statistics_split_moves_by_turn cfg s h :
  GameController.reachable cfg s ->
  roomy cfg ->
  GameController.moveHistory s = Some h ->
  let stats := MoveHistory.getStatistics h in
  MoveHistory.blackMoves (snd stats) = (fst stats + 1) / 2 /\
  MoveHistory.whiteMoves (snd stats) = fst stats / 2.
Proof.
  intros Hreach Hroomy Hh. cbv zeta.
  pose proof (reachable_tracked cfg s Hreach) as Ht.
  unfold holdsAt, tracked in Ht. rewrite Hh in Ht.
  destruct Ht as (_ & _ & _ & _ & (_ & Hsteps) & Hturns & _).
  apply reachable_consistent in Hreach as (_ & _ & _ & Hlog).
  rewrite Hh in Hlog. destruct Hlog as (_ & _ & _ & Hnum).
  destruct (Hnum Hroomy) as (Hstep & _).
  unfold MoveHistory.getStatistics. cbn [fst snd].
  destruct (tallyFrom_alternating (MoveHistory.history h) 1 0
              (MoveHistory.mkTally 0 0 0 None)) as [Hb Hw].
  { intros i m Hi. unfold turns_logged in Hturns. rewrite Forall_forall in Hturns.
    rewrite (Hturns m (list_elem_of_lookup_2 _ _ _ Hi)).
    rewrite (Hsteps i m Hi). f_equal. lia. }
  cbv zeta in Hb, Hw. rewrite Hb, Hw. simpl. split; reflexivity.
Qed.

Lemma statistics_split_moves_by_turn_witness :
  let stats := MoveHistory.getStatistics (logOf beforeFive) in
  MoveHistory.blackMoves (snd stats) = (fst stats + 1) / 2 /\
  MoveHistory.whiteMoves (snd stats) = fst stats / 2.
Proof.
  apply (statistics_split_moves_by_turn smallConfig beforeFive (logOf beforeFive)).
  - played.
  - vm_compute. intros H. discriminate H.
  - vm_compute. reflexivity.
Defined.

Lemma tallyFrom_thinkTime (l : list Move) : forall index acc t0,
  MoveHistory.lastTimestamp acc = Some t0 -> t0 <> 0 -> (0 < index)%nat ->
  Forall (fun m => timestamp m <> 0) l ->
  MoveHistory.totalThinkTime (MoveHistory.tallyFrom index l acc)
  = MoveHistory.totalThinkTime acc
    + (match last l with Some m => timestamp m | None => t0 end - t0).
Proof.
  induction l as [|m l IH]; intros index acc t0 Hlast Ht0 Hidx Hall.
  - simpl. lia.
  - cbn [MoveHistory.tallyFrom]. inversion Hall as [|? ? Hm Hrest]; subst.
    rewrite (IH (S index) (MoveHistory.tallyMove index acc m) (timestamp m));
      [|reflexivity|exact Hm|lia|exact Hrest].
    unfold MoveHistory.tallyMove. cbn [MoveHistory.totalThinkTime].
    rewrite Hlast.
    replace (0 <? Z.of_nat index) with true by (symmetry; apply Z.ltb_lt; lia).
    replace (t0 =? 0) with false by (symmetry; apply Z.eqb_neq; exact Ht0).
    cbn [andb negb].
    destruct l as [|m' l]; [cbn [last]; lia|].
    change (last (m :: m' :: l)) with (last (m' :: l)).
    destruct (last (m' :: l)) as [lm|] eqn:Hlm; [lia|].
    apply last_None in Hlm. discriminate Hlm.
Qed.

(** X12: when no logged timestamp is 0, the think time [getStatistics]
    sums over the log telescopes to the time between the first and the
    last logged move. *)
Theorem think_time_is_last_minus_first h first rest :
  MoveHistory.getAllMoves h = first :: rest ->
  Forall (fun m => timestamp m <> 0) (MoveHistory.getAllMoves h) ->
  exists lastMove,
    MoveHistory.getLastMove h = Some lastMove /\
    MoveHistory.totalThinkTime (snd (MoveHistory.getStatistics h))
    = timestamp lastMove - timestamp first.
Proof.
  unfold MoveHistory.getAllMoves, MoveHistory.getLastMove, MoveHistory.getStatistics.
  intros Hl Hall. rewrite Hl in *. cbn [snd MoveHistory.tallyFrom].
  inversion Hall as [|? ? Hfirst Hrest]; subst.
  rewrite (tallyFrom_thinkTime rest 1 _ (timestamp first));
    [|reflexivity|exact Hfirst|lia|exact Hrest].
  cbn [MoveHistory.tallyMove MoveHistory.totalThinkTime MoveHistory.lastTimestamp].
  destruct rest as [|m' rest'].
  - exists first. split; [reflexivity|]. simpl. lia.
  - change (last (first :: m' :: rest')) with (last (m' :: rest')).
    destruct (last (m' :: rest')) as [lm|] eqn:Hlast.
    + exists lm. split; [reflexivity|]. simpl. lia.
    + apply last_None in Hlast. discriminate Hlast.
Qed.

Lemma think_time_is_last_minus_first_witness :
  exists lastMove,
    MoveHistory.getLastMove
      (MoveHistory.mk [mkMove 0 0 1 1 10; mkMove 1 1 2 2 25; mkMove 2 2 1 3 60] 1000)
    = Some lastMove /\
    MoveHistory.totalThinkTime
      (snd (MoveHistory.getStatistics
              (MoveHistory.mk [mkMove 0 0 1 1 10; mkMove 1 1 2 2 25; mkMove 2 2 1 3 60]
                              1000)))
    = timestamp lastMove - timestamp (mkMove 0 0 1 1 10).
Proof.
  apply (think_time_is_last_minus_first
           (MoveHistory.mk [mkMove 0 0 1 1 10; mkMove 1 1 2 2 25; mkMove 2 2 1 3 60] 1000)
           (mkMove 0 0 1 1 10) [mkMove 1 1 2 2 25; mkMove 2 2 1 3 60]).
  - reflexivity.
  - repeat constructor; simpl; lia.
Defined.

(** ** Pausing, resetting and clicking *)

(** X13: pausing a game in the Playing phase and resuming it succeeds
    twice and gives back the same engine, log and phase; of the
    interaction state the audio manager and the marking mode are kept,
    the preview is gone and interaction is enabled whatever it was
    before.  Pausing is refused in
    any other phase, and resuming in any phase but Paused, without a
    change. *)
Theorem pause_then_resume s :
  (GameController.getGameState s = GameController.playing ->
   let s1 := snd (GameController.pauseGame s) in
   let s2 := snd (GameController.resumeGame s1) in
   fst (GameController.pauseGame s) = true /\
   fst (GameController.resumeGame s1) = true /\
   s2 = GameController.withInteraction s
          (InteractionManager.mk
             (InteractionManager.audioManager (GameController.interactionManager s))
             (InteractionManager.isMarkingMode (GameController.interactionManager s))
             None true)) /\
  (GameController.getGameState s <> GameController.playing ->
   GameController.pauseGame s = (false, s)) /\
  (GameController.getGameState s <> GameController.paused ->
   GameController.resumeGame s = (false, s)).
Proof.
  unfold GameController.getGameState, GameController.pauseGame, GameController.resumeGame.
  destruct s as [g h i []]; cbn; split_and!; try congruence; intros; split_and!; reflexivity.
Qed.

Lemma keeps_gate_run s o :
  o <> GameController.opPause ->
  GameController.gameState s <> GameController.paused ->
  keeps_gate s (GameController.run s o).
Proof.
  intros Hop Hstate. destruct o; cbn [GameController.run].
  - apply keeps_gate_placeStone.
  - apply keeps_gate_handleCellClick.
  - apply keeps_gate_performUndo.
  - unfold GameController.undoRequested.
    eapply keeps_gate_trans; [|apply keeps_gate_performUndo].
    apply keeps_gate_interaction. unfold InteractionManager.handleUndoRequest.
    destruct (GameController.interactionManager s) as [au mark pre en].
    destruct en; reflexivity.
  - apply keeps_gate_resetGame.
  - contradiction.
  - unfold GameController.resumeGame.
    destruct (GameController.gameState s); try contradiction; apply keeps_gate_refl.
  - apply keeps_gate_interaction.
    unfold InteractionManager.handleMarkToggleRequest, InteractionManager.toggleMarkingMode.
    destruct (GameController.interactionManager s) as [au mark pre en].
    destruct en, mark; reflexivity.
  - apply keeps_gate_importGame.
Qed.

(** X14: a reset made while the game is Paused puts the phase back to
    Playing but does not enable interaction again.  From then on, until
    the game is paused again, whatever else is done (placements on the
    engine, clicks, undo, reset, resume, the marking toggle, imports),
    interaction stays disabled: every click on the board and the marking
    toggle are ignored, and [resumeGame] is refused because the phase is
    not Paused. *)
Theorem reset_while_paused_leaves_clicks_off cfg s os :
  GameController.reachable cfg s ->
  GameController.getGameState s = GameController.paused ->
  Forall (fun o => o <> GameController.opPause) os ->
  let s' := snd (GameController.resetGame s) in
  let s'' := GameController.runAll s' os in
  GameController.getGameState s' = GameController.playing /\
  InteractionManager.isEnabled (GameController.interactionManager s'') = false /\
  GameController.getGameState s'' <> GameController.paused /\
  (forall now r c, GameController.handleCellClick now s'' r c = (returns, s'')) /\
  GameController.run s'' GameController.opMarkToggle = s'' /\
  GameController.resumeGame s'' = (false, s'').
Proof.
  unfold GameController.getGameState.
  intros Hreach Hp Hos. cbv zeta.
  pose proof (reachable_gated cfg s Hreach Hp) as Hoff.
  destruct (resetGame_parts s) as (_ & _ & Hst1 & Hi1).
  assert (Hinv : InteractionManager.isEnabled
                   (GameController.interactionManager
                      (GameController.runAll (snd (GameController.resetGame s)) os))
                 = false /\
                 GameController.gameState
                   (GameController.runAll (snd (GameController.resetGame s)) os)
                 <> GameController.paused).
  { assert (H0 : InteractionManager.isEnabled
                   (GameController.interactionManager (snd (GameController.resetGame s)))
                 = false /\
                 GameController.gameState (snd (GameController.resetGame s))
                 <> GameController.paused).
    { rewrite Hi1, Hst1. split; [exact Hoff|discriminate]. }
    revert H0. generalize (snd (GameController.resetGame s)).
    induction Hos as [|o os Ho _ IH]; intros t Ht; [exact Ht|].
    cbn [GameController.runAll fold_left]. apply IH.
    destruct Ht as [Hen Hnp].
    destruct (keeps_gate_run t o Ho Hnp) as [Hsame Hback].
    split; [rewrite Hsame; exact Hen|]. intros Hpaused. exact (Hnp (Hback Hpaused)). }
  destruct Hinv as [Hen Hnp]. split; [exact Hst1|].
  set (t := GameController.runAll (snd (GameController.resetGame s)) os) in *.
  split; [exact Hen|]. split; [exact Hnp|]. split_and!.
  - intros now r c. unfold GameController.handleCellClick. rewrite Hen. reflexivity.
  - cbn [GameController.run]. unfold InteractionManager.handleMarkToggleRequest.
    rewrite Hen. cbn. unfold GameController.withInteraction. apply ctl_eta.
  - unfold GameController.resumeGame.
    destruct (GameController.gameState t); try reflexivity. contradiction.
Qed.

Lemma reset_while_paused_leaves_clicks_off_witness :
  let os := [GameController.opPlace 7 7 0; GameController.opUndoButton;
             GameController.opClick 3 3 0; GameController.opResume] in
  let s' := snd (GameController.resetGame pausedGame) in
  let s'' := GameController.runAll s' os in
  GameController.getGameState s' = GameController.playing /\
  InteractionManager.isEnabled (GameController.interactionManager s'') = false /\
  GameController.getGameState s'' <> GameController.paused /\
  (forall now r c, GameController.handleCellClick now s'' r c = (returns, s'')) /\
  GameController.run s'' GameController.opMarkToggle = s'' /\
  GameController.resumeGame s'' = (false, s'').
Proof.
  apply (reset_while_paused_leaves_clicks_off GameController.defaultConfig pausedGame
           [GameController.opPlace 7 7 0; GameController.opUndoButton;
            GameController.opClick 3 3 0; GameController.opResume]).
  - apply reachable_runAll. apply GameController.reach_init. vm_compute. discriminate.
  - reflexivity.
  - repeat constructor; intros H; discriminate H.
Defined.

(** X15: a click changes the engine, the log or the phase only when
    interaction is enabled, there is an audio manager, marking mode is
    off, and the clicked cell is free and is the cell previewed by an
    earlier click. *)
Theorem click_places_only_on_previewed_cell now s r c :
  let s' := snd (GameController.handleCellClick now s r c) in
  GameController.gameLogic s' <> GameController.gameLogic s \/
  GameController.moveHistory s' <> GameController.moveHistory s \/
  GameController.gameState s' <> GameController.gameState s ->
  InteractionManager.isEnabled (GameController.interactionManager s) = true /\
  hasAudio s /\
  InteractionManager.isMarkingMode (GameController.interactionManager s) = false /\
  InteractionManager.prePlacePosition (GameController.interactionManager s) = Some (r, c) /\
  GameController.canPlaceStone s r c = true.
Proof.
  cbv zeta. unfold GameController.handleCellClick, GameController.handleNormalClick,
    GameController.canPlaceStone, InteractionManager.playSound, hasAudio.
  destruct (InteractionManager.isEnabled (GameController.interactionManager s));
    cbn [negb]; [|intros [H | [H | H]]; contradiction].
  destruct (InteractionManager.audioManager (GameController.interactionManager s));
    [|intros [H | [H | H]]; contradiction].
  destruct (InteractionManager.isMarkingMode (GameController.interactionManager s));
    [intros [H | [H | H]]; contradiction|].
  destruct (GameLogic.isGameOver (GameController.gameLogic s));
    [intros [H | [H | H]]; contradiction|].
  destruct (GameLogic.canPlaceStone (GameController.gameLogic s) r c);
    cbn [negb]; [|intros [H | [H | H]]; contradiction].
  destruct (InteractionManager.prePlacePosition (GameController.interactionManager s))
    as [[pr pc]|]; [|intros [H | [H | H]]; contradiction].
  destruct (Z.eqb_spec pr r) as [-> | _]; cbn [andb];
    [|intros [H | [H | H]]; contradiction].
  destruct (Z.eqb_spec pc c) as [-> | _]; [|intros [H | [H | H]]; contradiction].
  intros _. split_and!; reflexivity.
Qed.

Lemma click_places_only_on_previewed_cell_witness :
  let s := snd (GameController.handleCellClick 0 beforeFive 3 3) in
  InteractionManager.isEnabled (GameController.interactionManager s) = true /\
  hasAudio s /\
  InteractionManager.isMarkingMode (GameController.interactionManager s) = false /\
  InteractionManager.prePlacePosition (GameController.interactionManager s) = Some (3, 3) /\
  GameController.canPlaceStone s 3 3 = true.
Proof.
  apply (click_places_only_on_previewed_cell 0
           (snd (GameController.handleCellClick 0 beforeFive 3 3)) 3 3).
  left. vm_compute. intros H. discriminate H.
Defined.

(** X16: with an audio manager, two clicks on the same free cell place a
    stone there.  With interaction enabled, marking mode off and no
    preview on the cell, the first click only sets the preview; the
    second click on it leaves the engine, the log and the phase exactly
    as [placeStone] on that cell does, and clears the preview; both
    clicks return.  Without an audio manager (as with [enableAudio:
    false]) the click throws at its click sound and changes nothing. *)
Theorem two_clicks_place_a_stone now1 now2 s r c :
  InteractionManager.isEnabled (GameController.interactionManager s) = true ->
  InteractionManager.isMarkingMode (GameController.interactionManager s) = false ->
  InteractionManager.prePlacePosition (GameController.interactionManager s) <> Some (r, c) ->
  GameController.canPlaceStone s r c = true ->
  (hasAudio s ->
   let s1 := snd (GameController.handleCellClick now1 s r c) in
   let s2 := snd (GameController.handleCellClick now2 s1 r c) in
   let placed := snd (GameController.placeStone now2 s r c) in
   GameController.handleCellClick now1 s r c
   = (returns, GameController.withInteraction s
                 (InteractionManager.mk true false (Some (r, c)) true)) /\
   fst (GameController.handleCellClick now2 s1 r c) = returns /\
   GameController.gameLogic s2 = GameController.gameLogic placed /\
   GameController.moveHistory s2 = GameController.moveHistory placed /\
   GameController.gameState s2 = GameController.gameState placed /\
   GameController.interactionManager s2 = InteractionManager.mk true false None true) /\
  (~ hasAudio s -> GameController.handleCellClick now1 s r c = (throws, s)).
Proof.
  intros Hen Hmark Hpre Hcan. unfold GameController.canPlaceStone in Hcan.
  pose proof Hcan as Hcan'. apply canPlaceStone_iff in Hcan' as (Hover & _).
  split.
  - unfold hasAudio. intros Haudio. cbv zeta.
    assert (Hs1 : GameController.handleCellClick now1 s r c
                  = (returns, GameController.withInteraction s
                                (InteractionManager.mk true false (Some (r, c)) true))).
    { unfold GameController.handleCellClick, GameController.handleNormalClick,
        GameLogic.isGameOver, InteractionManager.playSound.
      rewrite Hen, Haudio, Hmark, Hover, Hcan. cbn [negb].
      destruct s as [g h [au mark pre en] st]. simpl in *. subst.
      destruct pre as [[pr pc]|]; [|reflexivity].
      destruct (Z.eqb_spec pr r) as [-> | _]; [|reflexivity].
      destruct (Z.eqb_spec pc c) as [-> | _]; [|reflexivity].
      contradiction. }
    rewrite Hs1. split; [reflexivity|]. cbn [snd].
    unfold GameController.handleCellClick, GameController.handleNormalClick,
      GameLogic.isGameOver, GameController.confirmPlacement, InteractionManager.playSound.
    cbn [GameController.withInteraction GameController.interactionManager
         GameController.gameLogic GameController.moveHistory GameController.gameState
         InteractionManager.isEnabled InteractionManager.audioManager
         InteractionManager.isMarkingMode InteractionManager.prePlacePosition negb].
    rewrite Hover, Hcan, !Z.eqb_refl. cbn [negb andb].
    unfold InteractionManager.clearPreview.
    cbn [InteractionManager.isEnabled InteractionManager.audioManager
         InteractionManager.isMarkingMode].
    change (GameController.withInteraction (GameController.withInteraction s _) ?i)
      with (GameController.mk (GameController.gameLogic s) (GameController.moveHistory s)
              i (GameController.gameState s)).
    set (s0 := GameController.mk (GameController.gameLogic s) (GameController.moveHistory s)
                 (InteractionManager.mk true false None true) (GameController.gameState s)).
    assert (Hcan0 : GameLogic.canPlaceStone (GameController.gameLogic s0) r c = true)
      by exact Hcan.
    assert (Haudio0 : hasAudio s0) by reflexivity.
    pose proof (ctl_placeStone_success now2 s0 r c) as Hsucc.
    pose proof (handleSuccessfulMove_after_placeStone now2 s0 r c Haudio0 Hcan0) as Hmove.
    rewrite Hcan0 in Hsucc.
    assert (Hplaced : GameController.placeStone now2 s0 r c
                      = (fst (GameController.placeStone now2 s r c),
                         GameController.withInteraction
                           (snd (GameController.placeStone now2 s r c))
                           (InteractionManager.mk true false None true))).
    { rewrite (ctl_placeStone_accepted now2 s0 r c Hcan0),
        (ctl_placeStone_accepted now2 s r c Hcan). cbv zeta.
      change (GameController.gameLogic s0) with (GameController.gameLogic s).
      destruct (GameLogic.checkWin (stoneSet (GameController.gameLogic s) r c) r c);
        reflexivity. }
    rewrite Hplaced in Hsucc, Hmove |- *. cbn [fst snd] in Hsucc, Hmove.
    rewrite Hsucc, Hmove. cbn. split_and!; reflexivity.
  - unfold hasAudio. intros Haudio.
    unfold GameController.handleCellClick, InteractionManager.playSound.
    rewrite Hen. cbn [negb].
    destruct (InteractionManager.audioManager (GameController.interactionManager s));
      [contradiction|reflexivity].
Qed.

Lemma two_clicks_place_a_stone_witness :
  let s1 := snd (GameController.handleCellClick 1 beforeFive 3 3) in
  let s2 := snd (GameController.handleCellClick 2 s1 3 3) in
  let placed := snd (GameController.placeStone 2 beforeFive 3 3) in
  GameController.handleCellClick 1 beforeFive 3 3
  = (returns, GameController.withInteraction beforeFive
                (InteractionManager.mk true false (Some (3, 3)) true)) /\
  fst (GameController.handleCellClick 2 s1 3 3) = returns /\
  GameController.gameLogic s2 = GameController.gameLogic placed /\
  GameController.moveHistory s2 = GameController.moveHistory placed /\
  GameController.gameState s2 = GameController.gameState placed /\
  GameController.interactionManager s2 = InteractionManager.mk true false None true.
Proof.
  apply (two_clicks_place_a_stone 1 2 beforeFive 3 3).
  - vm_compute. reflexivity.
  - vm_compute. reflexivity.
  - vm_compute. intros H. discriminate H.
  - vm_compute. reflexivity.
  - vm_compute. reflexivity.
Defined.

(** ** Export and import *)





Lemma ctl_placeStone_result now s r c :
  fst (GameController.placeStone now s r c)
  = fst (fst (GameLogic.placeStone (GameController.gameLogic s) r c)).
Proof.
  unfold GameController.placeStone.
  destruct (GameLogic.placeStone (GameController.gameLogic s) r c) as [[res g] es].
  reflexivity.
Qed.

(** What [placeStone] does to the engine on coordinates of a text, and
    whether it throws, depends on the engine only. *)
Lemma ctl_placeStoneAt_related now now' s s' r c :
  GameController.gameLogic s = GameController.gameLogic s' ->
  InteractionManager.audioManager (GameController.interactionManager s)
  = InteractionManager.audioManager (GameController.interactionManager s') ->
  match GameController.placeStoneAt now s r c, GameController.placeStoneAt now' s' r c with
  | None, None => True
  | Some (res, s1), Some (res', s1') =>
      res = res' /\
      GameController.gameLogic s1 = GameController.gameLogic s1' /\
      InteractionManager.audioManager (GameController.interactionManager s1)
      = InteractionManager.audioManager (GameController.interactionManager s1')
  | _, _ => False
  end.
Proof.
  intros Hg Ha.
  assert (Hints : forall zr zc,
             match GameController.placeStoneAt now s (cInt zr) (cInt zc),
                   GameController.placeStoneAt now' s' (cInt zr) (cInt zc) with
             | None, None => True
             | Some (res, s1), Some (res', s1') =>
                 res = res' /\
                 GameController.gameLogic s1 = GameController.gameLogic s1' /\
                 InteractionManager.audioManager (GameController.interactionManager s1)
                 = InteractionManager.audioManager (GameController.interactionManager s1')
             | _, _ => False
             end).
  { intros zr zc. rewrite !ctl_placeStoneAt_int.
    pose proof (ctl_placeStone_result now s zr zc) as Hres.
    pose proof (ctl_placeStone_result now' s' zr zc) as Hres'.
    pose proof (ctl_placeStone_engine now s zr zc) as Heng.
    pose proof (ctl_placeStone_engine now' s' zr zc) as Heng'.
    pose proof (ctl_placeStone_audio now s zr zc) as Haud.
    pose proof (ctl_placeStone_audio now' s' zr zc) as Haud'.
    destruct (GameController.placeStone now s zr zc) as [res s1].
    destruct (GameController.placeStone now' s' zr zc) as [res' s1'].
    cbn [fst snd] in *. split_and!; congruence. }
  destruct r as [zr| | | |]; destruct c as [zc| | | |]; try apply Hints;
    unfold GameController.placeStoneAt, GameLogic.placeStoneAt; rewrite <- Hg;
    match goal with
    | |- context [GameLogic.canPlaceStoneAt ?g ?r ?c] =>
        destruct (GameLogic.canPlaceStoneAt g r c)
    end; cbn; auto.
Qed.

Lemma handleSuccessfulMove_related s s' res :
  GameController.gameLogic s = GameController.gameLogic s' ->
  InteractionManager.audioManager (GameController.interactionManager s)
  = InteractionManager.audioManager (GameController.interactionManager s') ->
  fst (GameController.handleSuccessfulMove s res)
  = fst (GameController.handleSuccessfulMove s' res) /\
  GameController.gameLogic (snd (GameController.handleSuccessfulMove s res))
  = GameController.gameLogic (snd (GameController.handleSuccessfulMove s' res)) /\
  InteractionManager.audioManager
    (GameController.interactionManager (snd (GameController.handleSuccessfulMove s res)))
  = InteractionManager.audioManager
      (GameController.interactionManager (snd (GameController.handleSuccessfulMove s' res))).
Proof.
  intros Hg Ha.
  unfold GameController.handleSuccessfulMove, InteractionManager.handleGameWin,
    InteractionManager.playSound.
  rewrite <- Ha.
  destruct res;
    destruct (InteractionManager.audioManager (GameController.interactionManager s)) eqn:Hau;
    cbn; rewrite <- ?Ha, ?Hau; cbn; auto.
Qed.

(** Whether a replay throws, and the engine it leaves, depend on the
    engine it starts from, on whether there is an audio manager, and on
    the entries; not on the log, the phase or the clock. *)
Lemma replay_related clock clock' ms :
  forall k k' s s',
    GameController.gameLogic s = GameController.gameLogic s' ->
    InteractionManager.audioManager (GameController.interactionManager s)
    = InteractionManager.audioManager (GameController.interactionManager s') ->
    fst (GameController.replay clock k ms s) = fst (GameController.replay clock' k' ms s') /\
    GameController.gameLogic (snd (GameController.replay clock k ms s))
    = GameController.gameLogic (snd (GameController.replay clock' k' ms s')).
Proof.
  induction ms as [|[|r c] rest IH]; intros k k' s s' Hg Ha;
    cbn [GameController.replay]; [auto|auto|].
  pose proof (ctl_placeStoneAt_related (clock k) (clock' k') s s' r c Hg Ha) as Hrel.
  destruct (GameController.placeStoneAt (clock k) s r c) as [[res s1]|];
    destruct (GameController.placeStoneAt (clock' k') s' r c) as [[res' s1']|];
    try contradiction; [|auto].
  destruct Hrel as (<- & Hg1 & Ha1).
  destruct (GameLogic.success res); [|apply IH; assumption].
  destruct (handleSuccessfulMove_related s1 s1' res Hg1 Ha1) as (Ho & Hg2 & Ha2).
  destruct (GameController.handleSuccessfulMove s1 res) as [o s2].
  destruct (GameController.handleSuccessfulMove s1' res) as [o' s2'].
  cbn [fst snd] in Ho, Hg2, Ha2. subst o'.
  destruct o; [apply IH; assumption|auto].
Qed.

(** X18: what an import of a text with board data does to the engine, and
    whether it reports success, depends only on the board size, on
    whether there is an audio manager, on whether History is enabled, and
    on the text: not on the game before it or on the clock.  With History
    disabled the moves of the text are not looked at: the import reports
    success and leaves the reset game. *)
Theorem import_position_depends_on_moves_only clock clock' s s' mh :
  GameLogic.boardSize (GameController.gameLogic s)
  = GameLogic.boardSize (GameController.gameLogic s') ->
  (hasAudio s <-> hasAudio s') ->
  (GameController.moveHistory s = None <-> GameController.moveHistory s' = None) ->
  fst (GameController.importGame clock s (GameController.boardState mh))
  = fst (GameController.importGame clock' s' (GameController.boardState mh)) /\
  GameController.gameLogic (snd (GameController.importGame clock s
                                   (GameController.boardState mh)))
  = GameController.gameLogic (snd (GameController.importGame clock' s'
                                     (GameController.boardState mh))) /\
  (GameController.moveHistory s = None ->
   GameController.importGame clock s (GameController.boardState mh)
   = (true, snd (GameController.resetGame s))).
Proof.
  intros Hsize Haudio Hhist.
  destruct (resetGame_parts s) as (Hg1 & Hh1 & _ & Hi1).
  destruct (resetGame_parts s') as (Hg1' & Hh1' & _ & Hi1').
  assert (Hg : GameController.gameLogic (snd (GameController.resetGame s))
               = GameController.gameLogic (snd (GameController.resetGame s')))
    by (rewrite Hg1, Hg1', Hsize; reflexivity).
  assert (Ha : InteractionManager.audioManager
                 (GameController.interactionManager (snd (GameController.resetGame s)))
               = InteractionManager.audioManager
                   (GameController.interactionManager (snd (GameController.resetGame s')))).
  { rewrite Hi1, Hi1'. cbn. unfold hasAudio in Haudio.
    destruct (InteractionManager.audioManager (GameController.interactionManager s)),
      (InteractionManager.audioManager (GameController.interactionManager s'));
      try reflexivity; [symmetry|]; tauto. }
  unfold GameController.importGame.
  set (s1 := snd (GameController.resetGame s)) in *.
  set (s1' := snd (GameController.resetGame s')) in *.
  rewrite Hh1, Hh1'.
  destruct (GameController.moveHistory s) as [h|],
    (GameController.moveHistory s') as [h'|];
    try (exfalso; destruct Hhist as [H1 H2];
         first [discriminate (H1 eq_refl)|discriminate (H2 eq_refl)]).
  - destruct mh as [| |ms]; cbn [fst snd];
      try (split_and!; [reflexivity|exact Hg|intros H; discriminate H]).
    destruct (replay_related clock clock' ms 0 0 s1 s1' Hg Ha) as [Ho Hg2].
    destruct (GameController.replay clock 0 ms s1) as [o s2].
    destruct (GameController.replay clock' 0 ms s1') as [o' s2'].
    cbn [fst snd] in Ho, Hg2. subst o'.
    destruct o; cbn [fst snd]; split_and!; try reflexivity; try exact Hg2;
      intros H; discriminate H.
  - destruct mh as [| |ms]; cbn [fst snd]; split_and!; try reflexivity; exact Hg.
Qed.

Lemma import_position_depends_on_moves_only_witness :
  let mh := GameController.movesArray [intEntry (2, 2); entryNull; intEntry (3, 3)] in
  fst (GameController.importGame (fun k => Z.of_nat k) beforeFive
         (GameController.boardState mh))
  = fst (GameController.importGame (fun _ => 0) afterFive (GameController.boardState mh)) /\
  GameController.gameLogic (snd (GameController.importGame (fun k => Z.of_nat k) beforeFive
                                   (GameController.boardState mh)))
  = GameController.gameLogic (snd (GameController.importGame (fun _ => 0) afterFive
                                     (GameController.boardState mh))) /\
  (GameController.moveHistory beforeFive = None ->
   GameController.importGame (fun k => Z.of_nat k) beforeFive (GameController.boardState mh)
   = (true, snd (GameController.resetGame beforeFive))).
Proof.
  apply (import_position_depends_on_moves_only (fun k => Z.of_nat k) (fun _ => 0)
           beforeFive afterFive
           (GameController.movesArray [intEntry (2, 2); entryNull; intEntry (3, 3)])).
  - vm_compute. reflexivity.
  - vm_compute. tauto.
  - vm_compute. split; intros H; discriminate H.
Defined.



(** ** The winning line *)

(** A loop of [checkWin] appends the cells it walks over, in the order it
    meets them, and each of them holds [p]. *)
Lemma walk_cells fuel g p dr dc :
  forall r c count wp,
  exists k : nat,
    GameLogic.walk fuel g p r c dr dc count wp
    = (count + Z.of_nat k, wp ++ ray r c dr dc k) /\
    Forall (fun cell => holds g p cell.1 cell.2) (ray r c dr dc k).
Proof.
  induction fuel as [|fuel IH]; intros r c count wp.
  - exists 0%nat. cbn [GameLogic.walk ray]. rewrite app_nil_r, Z.add_0_r.
    split; [reflexivity|constructor].
  - cbn [GameLogic.walk].
    destruct (GameLogic.isValidPosition g r c &&
              (cellAt (GameLogic.boardData g) r c =? p)) eqn:Htest.
    + apply holds_test in Htest.
      destruct (IH (r + dr) (c + dc) (count + 1) (wp ++ [(r, c)])) as (k & Heq & Hall).
      exists (S k). rewrite Heq. cbn [ray]. split.
      * rewrite <- app_assoc. cbn [app]. f_equal. lia.
      * constructor; [exact Htest|exact Hall].
    + exists 0%nat. cbn [ray]. rewrite app_nil_r, Z.add_0_r.
      split; [reflexivity|constructor].
Qed.

Lemma lineThrough_cells g p r c dx dy :
  exists a b : nat,
    GameLogic.lineThrough g p r c dx dy
    = (1 + Z.of_nat a + Z.of_nat b,
       (r, c) :: ray (r + dx) (c + dy) dx dy a ++ ray (r - dx) (c - dy) (- dx) (- dy) b) /\
    Forall (fun cell => holds g p cell.1 cell.2)
           (ray (r + dx) (c + dy) dx dy a ++ ray (r - dx) (c - dy) (- dx) (- dy) b).
Proof.
  unfold GameLogic.lineThrough.
  destruct (walk_cells (Z.to_nat (GameLogic.boardSize g)) g p dx dy
              (r + dx) (c + dy) 1 [(r, c)]) as (a & Heq1 & Hall1).
  rewrite Heq1.
  destruct (walk_cells (Z.to_nat (GameLogic.boardSize g)) g p (- dx) (- dy)
              (r - dx) (c - dy) (1 + Z.of_nat a)
              ([(r, c)] ++ ray (r + dx) (c + dy) dx dy a)) as (b & Heq2 & Hall2).
  rewrite Heq2. exists a, b. split.
  - rewrite <- app_assoc. reflexivity.
  - apply Forall_app. split; assumption.
Qed.

Lemma checkDirections_cells g p r c dirs wp :
  GameLogic.checkDirections g p r c dirs = Some wp ->
  exists d (a b : nat),
    d ∈ dirs /\ (a + b = 4)%nat /\
    wp = (r, c) :: ray (r + d.1) (c + d.2) d.1 d.2 a
         ++ ray (r - d.1) (c - d.2) (- d.1) (- d.2) b /\
    Forall (fun cell => holds g p cell.1 cell.2)
           (ray (r + d.1) (c + d.2) d.1 d.2 a ++ ray (r - d.1) (c - d.2) (- d.1) (- d.2) b).
Proof.
  induction dirs as [|[dx dy] rest IH]; intros Hwp; [discriminate Hwp|].
  cbn [GameLogic.checkDirections] in Hwp.
  destruct (lineThrough_cells g p r c dx dy) as (a & b & Heq & Hall).
  rewrite Heq in Hwp.
  destruct (Z.eqb_spec (1 + Z.of_nat a + Z.of_nat b) 5) as [Hfive | _].
  - injection Hwp as <-. exists (dx, dy), a, b.
    split; [left|]. split; [lia|]. split; [reflexivity|exact Hall].
  - destruct (IH Hwp) as (d & a' & b' & Hd & Hrest).
    exists d, a', b'. split; [right; exact Hd|exact Hrest].
Qed.

(** X20: the line a winning placement reports.  In a reachable state,
    when a placement at [(r, c)] wins, the reported line is the placed
    cell, then the [a] cells next to it along one of the four directions,
    then the [b] cells next to it the opposite way, with [a + b = 4]; each
    of the five cells is on the board and holds a stone of the player who
    moved, who is the winner. *)
Theorem winning_line_lists_the_five_stones cfg s r c now wp md :
  GameController.reachable cfg s ->
  fst (GameController.placeStone now s r c) = GameLogic.placeWin wp md ->
  let s' := snd (GameController.placeStone now s r c) in
  let p := GameController.getCurrentPlayer s in
  (exists d (a b : nat),
     d ∈ GameLogic.directions /\ (a + b = 4)%nat /\
     wp = (r, c) :: ray (r + d.1) (c + d.2) d.1 d.2 a
          ++ ray (r - d.1) (c - d.2) (- d.1) (- d.2) b) /\
  (forall cell, cell ∈ wp ->
                fst (GameController.getStone s' cell.1 cell.2) = Some p) /\
  GameController.getWinner s' = Some p.
Proof.
  intros Hreach Hres. cbv zeta.
  apply reachable_consistent in Hreach as ((Hsize & Hn & Hsq & _ & Hp & _) & _).
  destruct (GameLogic.canPlaceStone (GameController.gameLogic s) r c) eqn:Hcan;
    [|rewrite (ctl_placeStone_rejected now s r c Hcan) in Hres; discriminate Hres].
  rewrite (ctl_placeStone_accepted now s r c Hcan) in Hres |- *. cbv zeta in Hres |- *.
  pose proof Hcan as Hcan'. apply canPlaceStone_iff in Hcan' as (_ & Hv & _).
  pose proof Hv as Hin. apply isValidPosition_iff in Hin. rewrite Hsize in Hin.
  assert (Hcell : cellAt (GameLogic.boardData (stoneSet (GameController.gameLogic s) r c)) r c
                  = GameLogic.currentPlayer (GameController.gameLogic s)).
  { apply (cellAt_setCell_same (GameController.cfg_boardSize cfg)); tauto. }
  destruct (GameLogic.checkWin (stoneSet (GameController.gameLogic s) r c) r c)
    as [wp'|] eqn:Hw; [|discriminate Hres].
  cbn [fst] in Hres. injection Hres as -> _.
  unfold GameLogic.checkWin in Hw. rewrite Hcell in Hw.
  destruct (GameLogic.currentPlayer (GameController.gameLogic s) =? 0);
    [discriminate Hw|].
  apply checkDirections_cells in Hw as (d & a & b & Hd & Hab & Hwp & Hall).
  unfold GameController.getCurrentPlayer, GameLogic.getCurrentPlayer,
    GameController.getWinner, GameLogic.getWinner, GameController.getStone.
  cbn [snd fst GameController.gameLogic wonLogic GameLogic.winner].
  split; [exists d, a, b; auto|]. split; [|reflexivity].
  intros cell Hcellin.
  assert (Hholds : holds (stoneSet (GameController.gameLogic s) r c)
                         (GameLogic.currentPlayer (GameController.gameLogic s))
                         cell.1 cell.2).
  { rewrite Hwp in Hcellin. apply elem_of_cons in Hcellin as [-> | Hrest].
    - split; [exact Hv|exact Hcell].
    - rewrite Forall_forall in Hall. exact (Hall cell Hrest). }
  destruct Hholds as [Hvalid Hstone].
  unfold GameLogic.getStone.
  change (GameLogic.isValidPosition (wonLogic (GameController.gameLogic s) r c) cell.1 cell.2)
    with (GameLogic.isValidPosition (stoneSet (GameController.gameLogic s) r c)
                                    cell.1 cell.2).
  rewrite Hvalid. cbn [negb]. f_equal. exact Hstone.
Qed.

Lemma winning_line_lists_the_five_stones_witness :
  let s' := snd (GameController.placeStone 0 beforeFive 0 4) in
  let p := GameController.getCurrentPlayer beforeFive in
  (exists d (a b : nat),
     d ∈ GameLogic.directions /\ (a + b = 4)%nat /\
     [(0, 4); (0, 3); (0, 2); (0, 1); (0, 0)]
     = (0, 4) :: ray (0 + d.1) (4 + d.2) d.1 d.2 a
       ++ ray (0 - d.1) (4 - d.2) (- d.1) (- d.2) b) /\
  (forall cell, cell ∈ [(0, 4); (0, 3); (0, 2); (0, 1); (0, 0)] ->
                fst (GameController.getStone s' cell.1 cell.2) = Some p) /\
  GameController.getWinner s' = Some p.
Proof.
  apply (winning_line_lists_the_five_stones smallConfig beforeFive 0 4 0
           [(0, 4); (0, 3); (0, 2); (0, 1); (0, 0)] (mkMoveData 0 4 1 9)).
  - played.
  - vm_compute. reflexivity.
Defined.

(** ** Undo, redo and the end of the game *)




(** X23: a finished game changes only by a reset or an import.  In a
    reachable state in the Finished phase every other operation (a direct
    placement, a click, undo by call or by button, pause, resume, the
    marking toggle) leaves the engine, the log and the phase as they
    are. *)
Theorem finished_game_changes_only_by_reset_or_import cfg s o :
  GameController.reachable cfg s ->
  GameController.getGameState s = GameController.finished ->
  o <> GameController.opReset ->
  (forall data clock, o <> GameController.opImport data clock) ->
  GameController.gameLogic (GameController.run s o) = GameController.gameLogic s /\
  GameController.moveHistory (GameController.run s o) = GameController.moveHistory s /\
  GameController.getGameState (GameController.run s o) = GameController.finished.
Proof.
  unfold GameController.getGameState.
  intros Hreach Hfin Hreset Himport.
  apply reachable_consistent in Hreach as (_ & Hover & _).
  apply Hover in Hfin as Hg.
  assert (Hcan : forall r c, GameLogic.canPlaceStone (GameController.gameLogic s) r c = false).
  { intros r c. unfold GameLogic.canPlaceStone. rewrite Hg. reflexivity. }
  assert (Hundo : forall i, GameController.performUndo (GameController.withInteraction s i)
                            = (false, GameController.withInteraction s i)).
  { intros i. apply performUndo_rejected. unfold GameController.canUndo.
    cbn [GameController.withInteraction GameController.gameState]. rewrite Hfin.
    reflexivity. }
  destruct o as [r c now|r c now| | | | | | |data clock]; cbn [GameController.run].
  - rewrite (ctl_placeStone_rejected now s r c (Hcan r c)). cbn [snd]. auto.
  - unfold GameController.handleCellClick, GameController.handleNormalClick,
      GameLogic.isGameOver. rewrite Hg.
    destruct (negb _); [auto|].
    destruct (InteractionManager.playSound _); [|auto].
    destruct (InteractionManager.isMarkingMode _); auto.
  - rewrite performUndo_rejected; [cbn [snd]; auto|].
    unfold GameController.canUndo. rewrite Hfin. reflexivity.
  - unfold GameController.undoRequested. rewrite Hundo. cbn [snd]. auto.
  - contradiction.
  - unfold GameController.pauseGame. rewrite Hfin. cbn. auto.
  - unfold GameController.resumeGame. rewrite Hfin. cbn. auto.
  - cbn. auto.
  - exfalso. exact (Himport data clock eq_refl).
Qed.

Lemma finished_game_changes_only_by_reset_or_import_witness :
  GameController.gameLogic (GameController.run afterFive (GameController.opPlace 4 4 0))
  = GameController.gameLogic afterFive /\
  GameController.moveHistory (GameController.run afterFive (GameController.opPlace 4 4 0))
  = GameController.moveHistory afterFive /\
  GameController.getGameState (GameController.run afterFive (GameController.opPlace 4 4 0))
  = GameController.finished.
Proof.
  apply (finished_game_changes_only_by_reset_or_import smallConfig afterFive
           (GameController.opPlace 4 4 0)).
  - played.
  - vm_compute. reflexivity.
  - intros H. discriminate H.
  - intros data clock H. discriminate H.
Defined.
